(** * Scenario execution engine of the QA agent: a shallow embedding

    The browser-automation service (executeScenario, normalizeColorValue,
    runTests) is embedded as Rocq functions.  JavaScript strings are
    modelled as Rocq strings whose characters are the code units 0..255
    (the Latin-1 part of UTF-16); the Puppeteer collaborator is an abstract
    interface of state-passing primitives, each of which may throw. *)

From Stdlib Require Import List String Ascii Bool Arith ZArith Lia.
From Stdlib Require Import DecimalString.
Import ListNotations.

Local Open Scope string_scope.
Local Open Scope list_scope.
Local Open Scope nat_scope.

(** ** JavaScript strings *)

Module JsString.

Definition chars (s : string) : list ascii := list_ascii_of_string s.
Definition str (l : list ascii) : string := string_of_list_ascii l.

Definition code (c : ascii) : nat := nat_of_ascii c.

Definition between (lo hi : nat) (c : ascii) : bool :=
  (lo <=? code c) && (code c <=? hi).

(** WhiteSpace and LineTerminator code units below 256: TAB, LF, VT, FF,
    CR, SP, NBSP.  It is the set removed by [trim], matched by [\s] and
    skipped by [parseInt]. *)
Definition isSpace (c : ascii) : bool :=
  between 9 13 c || (code c =? 32) || (code c =? 160).

(** LineTerminator code units below 256 (the ones [.] refuses). *)
Definition isLineTerminator (c : ascii) : bool :=
  (code c =? 10) || (code c =? 13).

Definition isDigit (c : ascii) : bool := between 48 57 c.

(** [String.prototype.toLowerCase] on one code unit: A-Z and the
    Latin-1 capitals (U+00C0..U+00DE but the multiplication sign). *)
Definition lowerChar (c : ascii) : ascii :=
  if between 65 90 c || (between 192 222 c && negb (code c =? 215))
  then ascii_of_nat (code c + 32) else c.

(** Canonicalize of a case-insensitive RegExp without the u flag, for
    the comparison with an ASCII pattern character: a-z go to A-Z, and a
    code unit above 127 never canonicalizes to one below 128. *)
Definition canonChar (c : ascii) : ascii :=
  if between 97 122 c then ascii_of_nat (code c - 32) else c.

Definition asciiLower (c : ascii) : ascii :=
  if between 65 90 c then ascii_of_nat (code c + 32) else c.

Definition toLowerCase (s : string) : string :=
  str (map lowerChar (chars s)).

Fixpoint dropSpace (l : list ascii) : list ascii :=
  match l with
  | c :: l' => if isSpace c then dropSpace l' else l
  | [] => []
  end.

Definition trimChars (l : list ascii) : list ascii :=
  rev (dropSpace (rev (dropSpace l))).

Definition trim (s : string) : string := str (trimChars (chars s)).

Fixpoint isPrefix (p l : list ascii) : bool :=
  match p, l with
  | [], _ => true
  | a :: p', b :: l' => Ascii.eqb a b && isPrefix p' l'
  | _ :: _, [] => false
  end.

Definition startsWith (s p : string) : bool := isPrefix (chars p) (chars s).

Fixpoint includesChars (l sub : list ascii) : bool :=
  isPrefix sub l ||
  match l with
  | [] => false
  | _ :: l' => includesChars l' sub
  end.

(** [s.includes(sub)] *)
Definition includes (s sub : string) : bool :=
  includesChars (chars s) (chars sub).

(** Replacing c by the empty string, for a one-character string pattern: the first
    occurrence is removed. *)
Fixpoint removeFirst (c : ascii) (l : list ascii) : list ascii :=
  match l with
  | [] => []
  | x :: l' => if Ascii.eqb x c then l' else x :: removeFirst c l'
  end.

Definition hexDigit (c : ascii) : option Z :=
  if between 48 57 c then Some (Z.of_nat (code c - 48))
  else if between 97 102 c then Some (Z.of_nat (code c - 87))
  else if between 65 70 c then Some (Z.of_nat (code c - 55))
  else None.

(** The digits that [parseInt] consumes: the longest prefix of digits of
    the radix, accumulated from the left. *)
Fixpoint hexPrefix (acc : option Z) (l : list ascii) : option Z :=
  match l with
  | [] => acc
  | c :: l' =>
      match hexDigit c with
      | Some d =>
          hexPrefix (Some (match acc with Some a => 16 * a + d | None => d end)%Z) l'
      | None => acc
      end
  end.

(** [parseInt(s, 16)]: leading white space is skipped, then an optional
    sign, then an optional 0x or 0X; [None] is NaN. *)
Definition parseInt16 (s : string) : option Z :=
  let l := dropSpace (chars s) in
  let '(neg, l1) :=
    match l with
    | "-"%char :: r => (true, r)
    | "+"%char :: r => (false, r)
    | _ => (false, l)
    end in
  let l2 :=
    match l1 with
    | "0"%char :: "x"%char :: r => r
    | "0"%char :: "X"%char :: r => r
    | _ => l1
    end in
  match hexPrefix None l2 with
  | Some v => Some (if neg then (- v)%Z else v)
  | None => None
  end.

(** A number inside a template literal; NaN prints as NaN, and minus
    zero as 0. *)
Definition numberToString (n : option Z) : string :=
  match n with
  | Some z => NilZero.string_of_int (Z.to_int z)
  | None => "NaN"
  end.

(** [s[i]] as a string; reading past the end gives undefined, which
    concatenates as the text undefined. *)
Definition charAt (l : list ascii) (i : nat) : string :=
  match nth_error l i with
  | Some c => String c EmptyString
  | None => "undefined"
  end.

(** [s.substring(a, b)] for a <= b *)
Definition substring (a b : nat) (l : list ascii) : string :=
  str (firstn (b - a) (skipn a l)).

End JsString.

(** ** Regular expressions

    A backtracking matcher for the fragment of ECMAScript patterns that
    the service uses: literal characters, character classes, sequence,
    alternation, greedy and lazy quantifiers, capture groups and the
    ignore-case flag.  The first match in priority order is returned, as
    by RegExp.prototype.exec. *)

Module Regex.
Import JsString.

Inductive regex : Type :=
| REmpty
| RChar (c : ascii)
| RClass (p : ascii -> bool)
| RSeq (r1 r2 : regex)
| RAlt (r1 r2 : regex)
| ROpt (greedy : bool) (r : regex)
| RStar (greedy : bool) (r : regex)
| RGroup (i : nat) (r : regex).

Definition RPlus (greedy : bool) (r : regex) : regex :=
  RSeq r (RStar greedy r).

Fixpoint RLit (l : list ascii) : regex :=
  match l with
  | [] => REmpty
  | c :: l' => RSeq (RChar c) (RLit l')
  end.

(** Captures, most recent binding first. *)
Definition captures := list (nat * list ascii).

Fixpoint capture (i : nat) (caps : captures) : option (list ascii) :=
  match caps with
  | [] => None
  | (j, v) :: caps' => if Nat.eqb i j then Some v else capture i caps'
  end.

Definition result := (list ascii * captures)%type.

Definition orElse {A} (a b : option A) : option A :=
  match a with Some _ => a | None => b end.

Definition charMatches (ic : bool) (c x : ascii) : bool :=
  if ic then Ascii.eqb (canonChar c) (canonChar x) else Ascii.eqb c x.

(** With the ignore-case flag a class accepts x when it holds a
    character with the canonical form of x.  Only the two ASCII cases of x
    are tried, which is exact for the classes of the service: each of them
    holds a letter beyond ASCII in both its cases or in none. *)
Definition classMatches (ic : bool) (p : ascii -> bool) (x : ascii) : bool :=
  if ic then p x || p (canonChar x) || p (asciiLower x) else p x.

(** The text consumed between two suffixes of the input. *)
Definition consumed (s s' : list ascii) : list ascii :=
  firstn (List.length s - List.length s') s.

Definition cont : Type := list ascii -> captures -> option result.

(** A continuation that is entered only when the iteration before it has
    consumed something: RepeatMatcher refuses an empty iteration. *)
Definition progress (s : list ascii) (k : cont) : cont :=
  fun s' caps' => if List.length s' <? List.length s then k s' caps' else None.

(** The iterations of a star.  [step] matches the body once; a greedy
    star tries one more iteration before it tries to go on, a lazy one
    the other way round.  The counter bounds the iterations by the length
    of the input that is left, which is enough as each one consumes. *)
Fixpoint starLoop (greedy : bool)
    (step : list ascii -> captures -> cont -> option result) (k : cont)
    (n : nat) (s : list ascii) (caps : captures) {struct n} : option result :=
  match n with
  | O => k s caps
  | S n' =>
      let more := step s caps (progress s (starLoop greedy step k n')) in
      if greedy then orElse more (k s caps) else orElse (k s caps) more
  end.

(** [rmatch ic r s caps k]: match r at the head of s, then go on with k
    on the rest; the first success in priority order is the answer.  No
    pattern of the service has a group inside a quantifier, so there is no
    capture to reset between two iterations. *)
Fixpoint rmatch (ic : bool) (r : regex) (s : list ascii) (caps : captures)
    (k : cont) {struct r} : option result :=
  match r with
  | REmpty => k s caps
  | RChar c =>
      match s with
      | x :: s' => if charMatches ic c x then k s' caps else None
      | [] => None
      end
  | RClass p =>
      match s with
      | x :: s' => if classMatches ic p x then k s' caps else None
      | [] => None
      end
  | RSeq r1 r2 =>
      rmatch ic r1 s caps (fun s' caps' => rmatch ic r2 s' caps' k)
  | RAlt r1 r2 =>
      orElse (rmatch ic r1 s caps k) (rmatch ic r2 s caps k)
  | ROpt greedy r1 =>
      let once := rmatch ic r1 s caps (progress s k) in
      if greedy then orElse once (k s caps) else orElse (k s caps) once
  | RStar greedy r1 =>
      starLoop greedy (rmatch ic r1) k (List.length s) s caps
  | RGroup i r1 =>
      rmatch ic r1 s caps
        (fun s' caps' => k s' ((i, consumed s s') :: caps'))
  end.

Record matchResult : Type := {
  index : nat;                 (* where the match starts *)
  matched : list ascii;        (* the text of the whole match *)
  groups : captures
}.

Definition matchAt (ic : bool) (r : regex) (s : list ascii)
    : option result :=
  rmatch ic r s [] (fun s' caps => Some (s', caps)).

(** The leftmost position at which the pattern matches. *)
Fixpoint search (ic : bool) (r : regex) (i : nat) (s : list ascii)
    : option matchResult :=
  match matchAt ic r s with
  | Some (s', caps) =>
      Some {| index := i; matched := consumed s s'; groups := caps |}
  | None =>
      match s with
      | [] => None
      | _ :: s' => search ic r (S i) s'
      end
  end.

(** [regex.exec(s)] without the g flag *)
Definition exec (ic : bool) (r : regex) (s : string) : option matchResult :=
  search ic r 0 (chars s).

(** [$n] of a match; a group that took no part gives the empty string. *)
Definition group (n : nat) (m : matchResult) : string :=
  match capture n (groups m) with
  | Some v => str v
  | None => EmptyString
  end.

(** [s.replace(regex, "$1")] without the g flag: the first match is
    replaced by its first group, the rest of the string is kept. *)
Definition replaceWithGroup1 (ic : bool) (r : regex) (s : string) : string :=
  match exec ic r s with
  | None => s
  | Some m =>
      (str (firstn (index m) (chars s))
       ++ group 1 m
       ++ str (skipn (index m + List.length (matched m)) (chars s)))%string
  end.

Definition anyChar : regex := RClass (fun c => negb (isLineTerminator c)).
Definition digit : regex := RClass isDigit.
Definition space : regex := RClass isSpace.

End Regex.

(** ** The value normalizer (normalizeColorValue) *)

Module Normalizer.
Import JsString Regex.

(** What a lookup in the colour table can give.  The table is a plain
    object literal, so besides its own string entries the lookup finds
    the two properties inherited from Object.prototype whose names are
    written in lower case. *)
Inductive jsval : Type :=
| JStr (s : string)
| JObjectConstructor               (* colorMap["constructor"] *)
| JObjectPrototype.                (* colorMap["__proto__"] *)

(** Strict equality [===]. *)
Definition strictEq (a b : jsval) : bool :=
  match a, b with
  | JStr x, JStr y => String.eqb x y
  | JObjectConstructor, JObjectConstructor => true
  | JObjectPrototype, JObjectPrototype => true
  | _, _ => false
  end.

Definition colorMap : list (string * string) :=
  [ ("yellow", "rgb(255, 255, 0)");
    ("blue", "rgb(0, 0, 255)");
    ("red", "rgb(255, 0, 0)");
    ("green", "rgb(0, 128, 0)");
    ("white", "rgb(255, 255, 255)");
    ("black", "rgb(0, 0, 0)");
    ("gray", "rgb(128, 128, 128)");
    ("grey", "rgb(128, 128, 128)");
    ("orange", "rgb(255, 165, 0)");
    ("purple", "rgb(128, 0, 128)");
    ("pink", "rgb(255, 192, 203)");
    ("brown", "rgb(165, 42, 42)");
    ("cyan", "rgb(0, 255, 255)");
    ("magenta", "rgb(255, 0, 255)") ].

Fixpoint ownProperty (key : string) (m : list (string * string))
    : option string :=
  match m with
  | [] => None
  | (k, v) :: m' => if String.eqb key k then Some v else ownProperty key m'
  end.

(** [colorMap[key]]; [None] is undefined.  Every value found is truthy. *)
Definition colorMapGet (key : string) : option jsval :=
  match ownProperty key colorMap with
  | Some v => Some (JStr v)
  | None =>
      if String.eqb key "constructor" then Some JObjectConstructor
      else if String.eqb key "__proto__" then Some JObjectPrototype
      else None
  end.

Definition digits (i : nat) : regex := RGroup i (RPlus true digit).
Definition spaces : regex := RStar true space.
Definition comma : regex := RChar ",".

(** The pattern rgba?\((\d+),\s*(\d+),\s*(\d+) *)
Definition rgbaPattern : regex :=
  RSeq (RLit (chars "rgb")) (RSeq (ROpt true (RChar "a")) (RSeq (RChar "(")
    (RSeq (digits 1) (RSeq comma (RSeq spaces
    (RSeq (digits 2) (RSeq comma (RSeq spaces (digits 3))))))))).

(** The pattern rgb\((\d+),?\s*(\d+),?\s*(\d+)\) *)
Definition rgbPattern : regex :=
  RSeq (RLit (chars "rgb("))
    (RSeq (digits 1) (RSeq (ROpt true comma) (RSeq spaces
    (RSeq (digits 2) (RSeq (ROpt true comma) (RSeq spaces
    (RSeq (digits 3) (RChar ")")))))))).

(** The template literal rgb(${r}, ${g}, ${b}). *)
Definition rgbText (r g b : string) : string :=
  ("rgb(" ++ r ++ ", " ++ g ++ ", " ++ b ++ ")")%string.

Definition fromMatch (m : matchResult) : string :=
  rgbText (group 1 m) (group 2 m) (group 3 m).

Definition rgbaBranch (lowerColor : string) : option string :=
  if startsWith lowerColor "rgba"
  then option_map fromMatch (exec false rgbaPattern lowerColor)
  else None.

Definition rgbBranch (lowerColor : string) : option string :=
  if startsWith lowerColor "rgb"
  then option_map fromMatch (exec false rgbPattern lowerColor)
  else None.

Definition hexBranch (lowerColor : string) : option string :=
  if startsWith lowerColor "#" then
    let hex := removeFirst "#" (chars lowerColor) in
    if List.length hex =? 3 then
      let r := parseInt16 (charAt hex 0 ++ charAt hex 0) in
      let g := parseInt16 (charAt hex 1 ++ charAt hex 1) in
      let b := parseInt16 (charAt hex 2 ++ charAt hex 2) in
      Some (rgbText (numberToString r) (numberToString g) (numberToString b))
    else if List.length hex =? 6 then
      let r := parseInt16 (substring 0 2 hex) in
      let g := parseInt16 (substring 2 4 hex) in
      let b := parseInt16 (substring 4 6 hex) in
      Some (rgbText (numberToString r) (numberToString g) (numberToString b))
    else None
  else None.

Definition normalizeColorValue (color : string) : jsval :=
  let lowerColor := trim (toLowerCase color) in
  match colorMapGet lowerColor with
  | Some v => v
  | None =>
      match rgbaBranch lowerColor with
      | Some s => JStr s
      | None =>
          match rgbBranch lowerColor with
          | Some s => JStr s
          | None =>
              match hexBranch lowerColor with
              | Some s => JStr s
              | None => JStr lowerColor
              end
          end
      end
  end.

End Normalizer.

(** ** The expectation patterns of the action handlers *)

Module Expectation.
Import JsString Regex.

(** The double quote, and a text between double quotes. *)
Definition dq : string := String "034"%char EmptyString.
Definition quoted (s : string) : string := (dq ++ s ++ dq)%string.

Definition isPropertyChar (c : ascii) : bool :=
  between 97 122 c || Ascii.eqb c "-".

Definition someSpace : regex := RPlus true space.
Definition optQuote : regex := ROpt true (RChar "034").

(** The pattern ([a-z-]+)\s+should\s+be\s+(.+) with the i flag *)
Definition stylePattern : regex :=
  RSeq (RGroup 1 (RPlus true (RClass isPropertyChar)))
    (RSeq someSpace (RSeq (RLit (chars "should"))
    (RSeq someSpace (RSeq (RLit (chars "be"))
    (RSeq someSpace (RGroup 2 (RPlus true anyChar))))))).

(** What follows the fixed words in the three replace patterns: an
    optional quote, the lazy group (.+?) and an optional quote. *)
Definition lazyValue : regex :=
  RSeq optQuote (RSeq (RGroup 1 (RPlus false anyChar)) optQuote).

(** text should (?:contain|be) "?(.+?)"? with the i flag *)
Definition textPattern : regex :=
  RSeq (RLit (chars "text should "))
    (RSeq (RAlt (RLit (chars "contain")) (RLit (chars "be")))
    (RSeq (RChar " ") lazyValue)).

(** navigate to "?(.+?)"? with the i flag *)
Definition navigatePattern : regex :=
  RSeq (RLit (chars "navigate to ")) lazyValue.

(** fill with "?(.+?)"? with the i flag *)
Definition fillPattern : regex :=
  RSeq (RLit (chars "fill with ")) lazyValue.

(** [expectedResult.match(stylePattern)]: the pair of groups 1 and 2. *)
Definition parseStyle (expectedResult : string) : option (string * string) :=
  match exec true stylePattern expectedResult with
  | Some m => Some (group 1 m, group 2 m)
  | None => None
  end.

Definition extractText (expectedResult : string) : string :=
  replaceWithGroup1 true textPattern expectedResult.

Definition extractUrl (expectedResult : string) : string :=
  replaceWithGroup1 true navigatePattern expectedResult.

Definition extractFill (expectedResult : string) : string :=
  replaceWithGroup1 true fillPattern expectedResult.

End Expectation.

(** ** Scenarios, results and the effects of a run *)

Module Engine.
Import JsString Regex Normalizer Expectation.

Record TestScenario : Type := {
  action : string;
  target : string;
  expectedResult : string;
  description : string
}.

Record TestResult : Type := {
  scenario : TestScenario;
  passed : bool;
  error : option string;
  actualValue : option string;
  screenshot : option string
}.

(** A thrown value; the handlers read only its message. *)
Record JsError : Type := { message : string }.

Inductive outcome (A : Type) : Type :=
| Returned (a : A)
| Thrown (e : JsError).
Arguments Returned {A} a.
Arguments Thrown {A} e.

(** The calls that a run makes to the browser, and its pauses. *)
Inductive event : Type :=
| CallLaunch
| CallNewPage
| CallSetViewport (width height : nat)
| CallGoto (url : string)
| CallQuery (selector : string)
| CallComputedStyle (property : string)
| CallTextContent
| CallClick
| CallHover
| CallType (text : string)
| CallClose
| Pause (ms : nat).

Definition isClose (ev : event) : bool :=
  match ev with CallClose => true | _ => false end.

(** The rendering collaborator: the state of everything outside the
    service (World) and the Puppeteer operations that the service calls,
    each returning normally or throwing.  The options of launch (the
    headless flag, read from the environment, and fixed arguments) and of
    goto (the event to wait for and the timeout of 60 s) are left out, and
    so is what the service writes to the console. *)
Record Puppeteer (World Browser Page Element : Type) : Type := {
  launch : World -> outcome Browser * World;
  newPage : Browser -> World -> outcome Page * World;
  setViewport : Page -> nat -> nat -> World -> outcome unit * World;
  goto : Page -> string -> World -> outcome unit * World;
  querySelector : Page -> string -> World -> outcome (option Element) * World;
  computedStyle : Page -> Element -> string -> World -> outcome string * World;
  textContent : Page -> Element -> World -> outcome (option string) * World;
  click : Element -> World -> outcome unit * World;
  hover : Element -> World -> outcome unit * World;
  type : Element -> string -> World -> outcome unit * World;
  close : Browser -> World -> outcome unit * World;
  elapse : nat -> World -> World
}.
Arguments launch {World Browser Page Element} _ _.
Arguments newPage {World Browser Page Element} _ _ _.
Arguments setViewport {World Browser Page Element} _ _ _ _ _.
Arguments goto {World Browser Page Element} _ _ _ _.
Arguments querySelector {World Browser Page Element} _ _ _ _.
Arguments computedStyle {World Browser Page Element} _ _ _ _ _.
Arguments textContent {World Browser Page Element} _ _ _ _.
Arguments click {World Browser Page Element} _ _ _.
Arguments hover {World Browser Page Element} _ _ _.
Arguments type {World Browser Page Element} _ _ _ _.
Arguments close {World Browser Page Element} _ _ _.
Arguments elapse {World Browser Page Element} _ _ _.

(** The state of a run: the world and the trace of calls made so far. *)
Record state (World : Type) : Type := { world : World; calls : list event }.
Arguments world {World} _.
Arguments calls {World} _.
Arguments Build_state {World} _ _.

(** Computations of the service: state passing with exceptions. *)
Definition M (World A : Type) : Type := state World -> outcome A * state World.

Definition ret {World A} (a : A) : M World A := fun st => (Returned a, st).

Definition bind {World A B} (m : M World A) (f : A -> M World B) : M World B :=
  fun st =>
    match m st with
    | (Returned a, st') => f a st'
    | (Thrown e, st') => (Thrown e, st')
    end.

Definition throw {World A} (e : JsError) : M World A :=
  fun st => (Thrown e, st).

(** try { m } catch (error) { handler error } *)
Definition tryCatch {World A} (m : M World A) (handler : JsError -> M World A)
    : M World A :=
  fun st =>
    match m st with
    | (Returned a, st') => (Returned a, st')
    | (Thrown e, st') => handler e st'
    end.

(** An awaited call of the collaborator, recorded in the trace. *)
Definition call {World A} (ev : event) (f : World -> outcome A * World)
    : M World A :=
  fun st =>
    let (r, w) := f (world st) in
    (r, {| world := w; calls := calls st ++ [ev] |}).

Notation "x <- m ;; k" := (bind m (fun x => k))
  (at level 61, m at next level, right associativity).
Notation "m ;;; k" := (bind m (fun _ => k))
  (at level 61, right associativity).

Definition failed (sc : TestScenario) (msg : string) : TestResult :=
  {| scenario := sc; passed := false; error := Some msg;
     actualValue := None; screenshot := None |}.

Definition succeeded (sc : TestScenario) : TestResult :=
  {| scenario := sc; passed := true; error := None;
     actualValue := None; screenshot := None |}.

(** A result of one of the three checks: the error is undefined when the
    check passed. *)
Definition checked (sc : TestScenario) (ok : bool) (actual msg : string)
    : TestResult :=
  {| scenario := sc; passed := ok;
     error := if ok then None else Some msg;
     actualValue := Some actual; screenshot := None |}.

Definition notFound (sc : TestScenario) : TestResult :=
  failed sc ("Element " ++ quoted (target sc) ++ " not found")%string.

Definition styleGrammarMessage : string :=
  ("Could not parse expected result format. Use: "
   ++ quoted "property-name should be value")%string.

(** The text of a value that may be null inside a template literal. *)
Definition showNullable (s : option string) : string :=
  match s with Some v => v | None => "null" end.

Section Run.

Context {World Browser Page Element : Type}.
Variable P : Puppeteer World Browser Page Element.

(** await new Promise(resolve => setTimeout(resolve, ms)) *)
Definition sleep (ms : nat) : M World unit :=
  fun st =>
    (Returned tt,
     {| world := elapse P ms (world st); calls := calls st ++ [Pause ms] |}).

(** puppeteer.launch, with the options of the service *)
Definition launchBrowser : M World Browser := call CallLaunch (launch P).

Definition checkStyle (page : Page) (sc : TestScenario) : M World TestResult :=
  element <- call (CallQuery (target sc)) (querySelector P page (target sc)) ;;
  match element with
  | None => ret (notFound sc)
  | Some el =>
      match parseStyle (expectedResult sc) with
      | None => ret (failed sc styleGrammarMessage)
      | Some (property, expectedValue) =>
          actual <- call (CallComputedStyle (trim property))
                      (computedStyle P page el (trim property)) ;;
          let normalizedActual := normalizeColorValue (trim actual) in
          let normalizedExpected := normalizeColorValue (trim expectedValue) in
          let ok := strictEq normalizedActual normalizedExpected in
          ret (checked sc ok (trim actual)
                 ("Expected " ++ property ++ " to be " ++ quoted expectedValue
                  ++ ", but got " ++ quoted actual)%string)
      end
  end.

Definition doClick (page : Page) (sc : TestScenario) : M World TestResult :=
  element <- call (CallQuery (target sc)) (querySelector P page (target sc)) ;;
  match element with
  | None => ret (notFound sc)
  | Some el =>
      call CallClick (click P el) ;;;
      sleep 500 ;;;
      ret (succeeded sc)
  end.

Definition checkText (page : Page) (sc : TestScenario) : M World TestResult :=
  element <- call (CallQuery (target sc)) (querySelector P page (target sc)) ;;
  match element with
  | None => ret (notFound sc)
  | Some el =>
      actualText <- call CallTextContent (textContent P page el) ;;
      let expectedText := extractText (expectedResult sc) in
      let ok :=
        match actualText with
        | Some t => includes t expectedText || String.eqb t expectedText
        | None => false
        end in
      ret (checked sc ok
             (match actualText with Some t => t | None => EmptyString end)
             ("Expected text to contain " ++ quoted expectedText
              ++ ", but got " ++ quoted (showNullable actualText))%string)
  end.

Definition checkVisibility (page : Page) (sc : TestScenario)
    : M World TestResult :=
  element <- call (CallQuery (target sc)) (querySelector P page (target sc)) ;;
  let isVisible := match element with Some _ => true | None => false end in
  let shouldBeVisible := includes (toLowerCase (expectedResult sc)) "visible" in
  let ok := Bool.eqb isVisible shouldBeVisible in
  ret (checked sc ok
         (if isVisible then "visible" else "not visible")
         ("Expected element to be "
          ++ (if shouldBeVisible then "visible" else "hidden"))%string).

Definition doNavigate (page : Page) (sc : TestScenario) : M World TestResult :=
  let url := extractUrl (expectedResult sc) in
  call (CallGoto url) (goto P page url) ;;;
  sleep 1000 ;;;
  ret (succeeded sc).

Definition doHover (page : Page) (sc : TestScenario) : M World TestResult :=
  element <- call (CallQuery (target sc)) (querySelector P page (target sc)) ;;
  match element with
  | None => ret (notFound sc)
  | Some el =>
      call CallHover (hover P el) ;;;
      sleep 300 ;;;
      ret (succeeded sc)
  end.

Definition fillInput (page : Page) (sc : TestScenario) : M World TestResult :=
  element <- call (CallQuery (target sc)) (querySelector P page (target sc)) ;;
  match element with
  | None => ret (notFound sc)
  | Some el =>
      let value := extractFill (expectedResult sc) in
      call (CallType value) (type P el value) ;;;
      ret (succeeded sc)
  end.

(** The switch on action.toLowerCase(), in the order of its cases. *)
Definition dispatch (page : Page) (sc : TestScenario) : M World TestResult :=
  let a := toLowerCase (action sc) in
  if String.eqb a "check_style" then checkStyle page sc
  else if String.eqb a "click" then doClick page sc
  else if String.eqb a "check_text" then checkText page sc
  else if String.eqb a "check_visibility" then checkVisibility page sc
  else if String.eqb a "navigate" then doNavigate page sc
  else if String.eqb a "hover" then doHover page sc
  else if String.eqb a "fill_input" then fillInput page sc
  else ret (failed sc ("Unknown action: " ++ action sc)%string).

(** The whole switch is inside try, and the catch clause turns what was
    thrown into a failed result. *)
Definition executeScenario (page : Page) (sc : TestScenario)
    : M World TestResult :=
  tryCatch (dispatch page sc) (fun e => ret (failed sc (message e))).

(** The for-of loop of runTests; results is the array being filled. *)
Fixpoint forEachScenario (page : Page) (scenarios : list TestScenario)
    (results : list TestResult) : M World (list TestResult) :=
  match scenarios with
  | [] => ret results
  | sc :: rest =>
      result <- executeScenario page sc ;;
      sleep 500 ;;;
      forEachScenario page rest (results ++ [result])
  end.

(** What runTests does with the page once the browser is there. *)
Definition withBrowser (browser : Browser) (portalUrl : string)
    (scenarios : list TestScenario) : M World (list TestResult) :=
  page <- call CallNewPage (newPage P browser) ;;
  call (CallSetViewport 1920 1080) (setViewport P page 1920 1080) ;;;
  call (CallGoto portalUrl) (goto P page portalUrl) ;;;
  sleep 2000 ;;;
  forEachScenario page scenarios [].

(** The try block: the variable browser, null at first, is assigned as
    soon as the launch returns; the block gives its outcome together
    with the value of that variable when the block is left. *)
Definition tryBlock (portalUrl : string) (scenarios : list TestScenario)
    (st : state World)
    : outcome (list TestResult) * option Browser * state World :=
  match launchBrowser st with
  | (Thrown e, st1) => (Thrown e, None, st1)
  | (Returned b, st1) =>
      let (r, st2) := withBrowser b portalUrl scenarios st1 in
      (r, Some b, st2)
  end.

Definition automationFailed (e : JsError) : JsError :=
  {| message := ("Browser automation failed: " ++ message e)%string |}.

(** try, catch and finally of runTests.  An exception of the finally
    block replaces the completion of try and catch. *)
Definition runTests (portalUrl : string) (scenarios : list TestScenario)
    : M World (list TestResult) :=
  fun st =>
    let '(tried, browser, st1) := tryBlock portalUrl scenarios st in
    let caught :=
      match tried with
      | Returned results => Returned results
      | Thrown e => Thrown (automationFailed e)
      end in
    match browser with
    | Some b =>
        match call CallClose (close P b) st1 with
        | (Returned _, st2) => (caught, st2)
        | (Thrown e, st2) => (Thrown e, st2)
        end
    | None => (caught, st1)
    end.

End Run.

End Engine.

(** ** A simulated browser

    A concrete collaborator on which the service can be run: a static
    document that maps selectors to elements, and a browser process that
    may die after a given number of page operations.  Once dead, every
    page operation throws. *)

Module Sim.
Import Engine.

Record SimElement : Type := {
  text : option string;
  styles : list (string * string)
}.

Record SimWorld : Type := {
  document : list (string * SimElement);
  remaining : option nat       (* page operations left before the crash *)
}.

Fixpoint lookup {A} (key : string) (m : list (string * A)) : option A :=
  match m with
  | [] => None
  | (k, v) :: m' => if String.eqb key k then Some v else lookup key m'
  end.

Definition targetClosed : JsError :=
  {| message := "Protocol error: Target closed" |}.

(** One page operation: it throws when the process is dead. *)
Definition operate {A} (f : SimWorld -> A) (w : SimWorld)
    : outcome A * SimWorld :=
  match remaining w with
  | None => (Returned (f w), w)
  | Some (S n) =>
      (Returned (f w), {| document := document w; remaining := Some n |})
  | Some O => (Thrown targetClosed, w)
  end.

Definition styleOf (el : SimElement) (property : string) : string :=
  match lookup property (styles el) with
  | Some v => v
  | None => EmptyString
  end.

Definition driver : Puppeteer SimWorld unit unit SimElement := {|
  launch := fun w => (Returned tt, w);
  newPage := fun _ w => (Returned tt, w);
  setViewport := fun _ _ _ w => (Returned tt, w);
  goto := fun _ _ => operate (fun _ => tt);
  querySelector := fun _ selector => operate (fun w => lookup selector (document w));
  computedStyle := fun _ el property => operate (fun _ => styleOf el property);
  textContent := fun _ el => operate (fun _ => text el);
  click := fun _ => operate (fun _ => tt);
  hover := fun _ => operate (fun _ => tt);
  type := fun _ _ => operate (fun _ => tt);
  close := fun _ w => (Returned tt, w);
  elapse := fun _ w => w
|}.

(** A driver whose launch fails: no browser is ever there. *)
Definition noBrowser : Puppeteer SimWorld unit unit SimElement := {|
  launch := fun w =>
    (Thrown {| message := "Failed to launch the browser process" |}, w);
  newPage := newPage driver;
  setViewport := setViewport driver;
  goto := goto driver;
  querySelector := querySelector driver;
  computedStyle := computedStyle driver;
  textContent := textContent driver;
  click := click driver;
  hover := hover driver;
  type := type driver;
  close := close driver;
  elapse := elapse driver
|}.

Definition button : SimElement :=
  {| text := Some "Hello";
     styles := [("background-color", "rgb(255, 255, 0)")] |}.

Definition banner : SimElement :=
  {| text := Some "Hello world"; styles := [] |}.

Definition page : list (string * SimElement) :=
  [("#btn", button); ("#banner", banner)].

Definition start (w : SimWorld) : state SimWorld :=
  {| world := w; calls := [] |}.

Definition healthy : state SimWorld :=
  start {| document := page; remaining := None |}.

(** The process dies after n page operations. *)
Definition crashingAfter (n : nat) : state SimWorld :=
  start {| document := page; remaining := Some n |}.

Definition scenarioOf (a t e : string) : TestScenario :=
  {| action := a; target := t; expectedResult := e; description := a |}.

(** A: the target is not in the document; B and C succeed. *)
Definition scenarioA : TestScenario := scenarioOf "click" "#missing" "click it".
Definition scenarioB : TestScenario := scenarioOf "CLICK" "#btn" "click it".
Definition scenarioC : TestScenario :=
  scenarioOf "check_style" "#btn" "background-color should be yellow".

Definition dragDrop : TestScenario := scenarioOf "drag_drop" "#btn" "drop it".

Definition fillOffGrammar : TestScenario :=
  scenarioOf "fill_input" "#btn" "abc".

(** The expectation of check_text as the scenario generator is told to
    write it, with the value between double quotes. *)
Definition textQuoted : TestScenario :=
  scenarioOf "check_text" "#btn"
    ("text should contain " ++ Expectation.quoted "Hello")%string.

Definition checkVisible : TestScenario :=
  scenarioOf "check_visibility" "#btn" "element should be visible".

(** The results that the run of A, B and C is to give. *)
Definition resultsABC : list TestResult :=
  [ notFound scenarioA; succeeded scenarioB;
    checked scenarioC true "rgb(255, 255, 0)" EmptyString ].

Definition run (scenarios : list TestScenario) (st : state SimWorld)
    : outcome (list TestResult) * state SimWorld :=
  runTests driver "http://portal.test" scenarios st.

End Sim.

(** ** Notions used by the statements *)

Module Spec.
Import JsString Regex Normalizer Expectation Engine.

(** How often the browser was closed in a trace. *)
Definition closeCount (tr : list event) : nat :=
  List.length (filter isClose tr).

(** The closed set of actions of the dispatcher. *)
Definition supportedActions : list string :=
  ["navigate"; "click"; "hover"; "fill_input"; "check_style"; "check_text";
   "check_visibility"].

Definition supported (a : string) : bool :=
  existsb (String.eqb a) supportedActions.

(** The actions whose handler gives up when the target is not there. *)
Definition needsElement (a : string) : bool :=
  existsb (String.eqb a)
    ["check_style"; "click"; "check_text"; "hover"; "fill_input"].

(** The parts of an expectation written in the grammar of check_style,
    as lists of characters: a property name, blanks, a word spelled in
    any letter case, and a value. *)
Definition propertyName (p : list ascii) : Prop :=
  p <> [] /\ Forall (fun c => classMatches true isPropertyChar c = true) p.

Definition blanks (ws : list ascii) : Prop :=
  ws <> [] /\ Forall (fun c => isSpace c = true) ws.

Definition spelled (word : string) (l : list ascii) : Prop :=
  Forall2 (fun c x => charMatches true c x = true) (chars word) l.

(** A value: not empty, on one line, and not starting with a blank. *)
Definition valueText (v : list ascii) : Prop :=
  Forall (fun c => isLineTerminator c = false) v
  /\ exists c v', v = c :: v' /\ isSpace c = false.

(** Decimal digits, at least one. *)
Definition digitText (d : list ascii) : Prop :=
  d <> [] /\ Forall (fun c => isDigit c = true) d.

(** What it is for a pattern to match a stretch of the input, without the
    order in which the matcher tries the ways to do so: [matches ic r s caps
    s' caps'] says that r matches the part of s before its suffix s', and
    that the captures are caps before and caps' after. *)
Inductive matches (ic : bool)
    : regex -> list ascii -> captures -> list ascii -> captures -> Prop :=
| MEmpty s caps : matches ic REmpty s caps s caps
| MChar c x s caps :
    charMatches ic c x = true -> matches ic (RChar c) (x :: s) caps s caps
| MClass p x s caps :
    classMatches ic p x = true -> matches ic (RClass p) (x :: s) caps s caps
| MSeq r1 r2 s caps s1 caps1 s2 caps2 :
    matches ic r1 s caps s1 caps1 -> matches ic r2 s1 caps1 s2 caps2 ->
    matches ic (RSeq r1 r2) s caps s2 caps2
| MAltLeft r1 r2 s caps s' caps' :
    matches ic r1 s caps s' caps' -> matches ic (RAlt r1 r2) s caps s' caps'
| MAltRight r1 r2 s caps s' caps' :
    matches ic r2 s caps s' caps' -> matches ic (RAlt r1 r2) s caps s' caps'
| MOptSome g r s caps s' caps' :
    matches ic r s caps s' caps' -> matches ic (ROpt g r) s caps s' caps'
| MOptNone g r s caps : matches ic (ROpt g r) s caps s caps
| MStarStop g r s caps : matches ic (RStar g r) s caps s caps
| MStarMore g r s caps s1 caps1 s2 caps2 :
    matches ic r s caps s1 caps1 -> matches ic (RStar g r) s1 caps1 s2 caps2 ->
    matches ic (RStar g r) s caps s2 caps2
| MGroup i r s caps s' caps' :
    matches ic r s caps s' caps' ->
    matches ic (RGroup i r) s caps s' ((i, consumed s s') :: caps').

(** A pattern without capture groups. *)
Fixpoint groupFree (r : regex) : bool :=
  match r with
  | REmpty | RChar _ | RClass _ => true
  | RSeq r1 r2 | RAlt r1 r2 => groupFree r1 && groupFree r2
  | ROpt _ r1 | RStar _ r1 => groupFree r1
  | RGroup _ _ => false
  end.

(** The canonical text of a colour, from its three numbers in decimal. *)
Definition canonical (d1 d2 d3 : list ascii) : string :=
  rgbText (str d1) (str d2) (str d3).

(** A text that does not start with a blank. *)
Definition noLeadingSpace (l : list ascii) : Prop :=
  match l with
  | [] => True
  | c :: _ => isSpace c = false
  end.

(** Hexadecimal digits only. *)
Definition hexDigits (l : list ascii) : Prop :=
  Forall (fun c => hexDigit c <> None) l.

(** The input is at its end, or its next character is not in the class. *)
Definition stopsAt (ic : bool) (p : ascii -> bool) (s : list ascii) : Prop :=
  match s with
  | [] => True
  | x :: _ => classMatches ic p x = false
  end.

Section Session.
Context {World Browser Page Element : Type}.
Variable P : Puppeteer World Browser Page Element.

(** The computation extends the trace, and never by a close. *)
Definition quiet {A} (m : M World A) : Prop :=
  forall st, exists tr,
    calls (snd (m st)) = calls st ++ tr /\ closeCount tr = 0.

(** Every result that the computation returns is about scenario sc. *)
Definition about (sc : TestScenario) (m : M World TestResult) : Prop :=
  forall st r st', m st = (Returned r, st') -> scenario r = sc.

(** The start of a session: launch, page, viewport and first load. *)
Definition sessionSetup (portalUrl : string) : M World (Browser * Page) :=
  browser <- launchBrowser P ;;
  page <- call CallNewPage (newPage P browser) ;;
  call (CallSetViewport 1920 1080) (setViewport P page 1920 1080) ;;;
  call (CallGoto portalUrl) (goto P page portalUrl) ;;;
  ret (browser, page).

(** The failures that stay inside one scenario, each with the
    diagnostic the handler gives: the target of a handler that needs it
    does not resolve, the action is not one of the switch, the
    expectation of check_style does not parse, or something is thrown
    while the handler runs. *)
Inductive localFailure (page : Page) (sc : TestScenario) (st : state World)
    : string -> Prop :=
| ElementNotFound w :
    needsElement (toLowerCase (action sc)) = true ->
    querySelector P page (target sc) (world st) = (Returned None, w) ->
    localFailure page sc st
      ("Element " ++ quoted (target sc) ++ " not found")%string
| UnsupportedAction :
    supported (toLowerCase (action sc)) = false ->
    localFailure page sc st ("Unknown action: " ++ action sc)%string
| ExpectationParseFailure el w :
    toLowerCase (action sc) = "check_style" ->
    querySelector P page (target sc) (world st) = (Returned (Some el), w) ->
    parseStyle (expectedResult sc) = None ->
    localFailure page sc st styleGrammarMessage
| HandlerThrows e st' :
    dispatch P page sc st = (Thrown e, st') ->
    localFailure page sc st (message e).

(** The state after a pause. *)
Definition paused (ms : nat) (st : state World) : state World :=
  snd (sleep P ms st).

(** The scenarios have been processed from state st: each of them was
    executed by executeScenario, in the order of the list, on the state
    that the scenario before it and the pause of 500 ms have left, and
    its result is the one kept at its place. *)
Inductive processed (page : Page)
    : list TestScenario -> state World -> list TestResult -> state World
      -> Prop :=
| ProcessedNone st : processed page [] st [] st
| ProcessedNext sc rest st r st1 out st' :
    executeScenario P page sc st = (Returned r, st1) ->
    processed page rest (paused 500 st1) out st' ->
    processed page (sc :: rest) st (r :: out) st'.

End Session.

Section Counting.
Context {World Browser Page Element : Type}.
Variable P : Puppeteer World Browser Page Element.

(** An operation of the browser in a world that carries a counter, which
    it leaves alone. *)
Definition onWorld {A} (f : World -> outcome A * World) (wn : World * nat)
    : outcome A * (World * nat) :=
  let (r, w') := f (fst wn) in (r, (w', snd wn)).

(** The same browser in a world that counts the closes carried out: every
    operation does what it does, and close adds one to the counter. *)
Definition countingCloses : Puppeteer (World * nat) Browser Page Element := {|
  launch := onWorld (launch P);
  newPage := fun b => onWorld (newPage P b);
  setViewport := fun pg width height => onWorld (setViewport P pg width height);
  goto := fun pg url => onWorld (goto P pg url);
  querySelector := fun pg selector => onWorld (querySelector P pg selector);
  computedStyle := fun pg el property => onWorld (computedStyle P pg el property);
  textContent := fun pg el => onWorld (textContent P pg el);
  click := fun el => onWorld (click P el);
  hover := fun el => onWorld (hover P el);
  type := fun el value => onWorld (type P el value);
  close := fun b wn =>
    let (r, w') := close P b (fst wn) in (r, (w', S (snd wn)));
  elapse := fun ms wn => (elapse P ms (fst wn), snd wn)
|}.

(** A state of a run with n closes counted so far. *)
Definition counted (n : nat) (st : state World) : state (World * nat) :=
  {| world := (world st, n); calls := calls st |}.

(** The computation m' in the counting world does what m does and leaves
    the counter as it is. *)
Definition uncounted {A} (m' : M (World * nat) A) (m : M World A) : Prop :=
  forall n st, m' (counted n st) = (fst (m st), counted n (snd (m st))).

End Counting.

End Spec.

(** ** The ticket key (jira-service) *)

Module Jira.
Import JsString Regex.

Record JiraTicket : Type := {
  key : string;
  summary : string;
  description : string;
  acceptanceCriteria : string;
  status : string;
  assignee : option string;
  issueType : string;
  priority : string
}.

Definition isUpper (c : ascii) : bool := between 65 90 c.

(** The pattern ([A-Z]{2,}-\d+), without flags: two capitals, then as many
    more as there are, a hyphen and digits. *)
Definition ticketPattern : regex :=
  RGroup 1
    (RSeq (RClass isUpper) (RSeq (RPlus true (RClass isUpper))
       (RSeq (RChar "-") (RPlus true digit)))).

(** input.match(regex), then group 1 or null *)
Definition extractJiraTicketId (input : string) : option string :=
  match exec false ticketPattern input with
  | Some m => Some (group 1 m)
  | None => None
  end.

End Jira.

(** ** The answer of the model (ai-service) *)

Module Ai.
Import JsString Regex Engine.

Record ParsedAcceptanceCriteria : Type := {
  scenarios : list TestScenario;
  summary : string
}.

(** The class [\s\S]: every character. *)
Definition anything : regex := RClass (fun _ => true).

(** The pattern \{[\s\S]*\} *)
Definition jsonPattern : regex :=
  RSeq (RChar "{") (RSeq (RStar true anything) (RChar "}")).

(** content.text.match(jsonPattern) of parseAcceptanceCriteria: the text
    jsonMatch[0] that is handed to JSON.parse, or null. *)
Definition jsonMatch (text : string) : option string :=
  match exec false jsonPattern text with
  | Some m => Some (str (matched m))
  | None => None
  end.

End Ai.

(** ** The answers of the server (server.ts) *)

Module Api.

(** An element of results.tests *)
Module Row.
Record t : Type := {
  description : string;
  action : string;
  target : string;
  expected : string;
  passed : bool;
  actual : option string;
  error : option string
}.
End Row.

(** The object results of the answer *)
Module Summary.
Record t : Type := {
  total : nat;
  passed : nat;
  failed : nat;
  tests : list Row.t
}.
End Summary.

(** The three shapes of a JSON body that POST /api/test sends. *)
Inductive body : Type :=
| Failure (error : string)
| NoCriteria (error : string) (key summary description : string)
| Completed (allTestsPassed : bool) (key summary status : string)
    (results : Summary.t) (report : string).

Record response : Type := { statusCode : nat; json : body }.

End Api.

Module Server.
Import JsString Engine.

(** The services that the handler awaits besides runTests, each returning
    or throwing: the fetch of the ticket and the two calls of the model. *)
Record Services (World : Type) : Type := {
  getJiraTicket : string -> World -> outcome Jira.JiraTicket * World;
  parseAcceptanceCriteria :
    string -> string -> string -> World
    -> outcome Ai.ParsedAcceptanceCriteria * World;
  generateTestReport :
    string -> string -> list TestResult -> World -> outcome string * World
}.
Arguments getJiraTicket {World} _ _ _.
Arguments parseAcceptanceCriteria {World} _ _ _ _ _.
Arguments generateTestReport {World} _ _ _ _ _.

(** An awaited service: it works on the world and calls no browser. *)
Definition service {World A} (f : World -> outcome A * World) : M World A :=
  fun st =>
    let (r, w) := f (world st) in
    (r, {| world := w; calls := calls st |}).

(** A field of req.body, absent or a string; [!v] holds of an absent
    field and of the empty string. *)
Definition falsy (v : option string) : bool :=
  match v with
  | None => true
  | Some s => String.eqb s EmptyString
  end.

Definition row (r : TestResult) : Api.Row.t :=
  {| Api.Row.description := description (scenario r);
     Api.Row.action := action (scenario r);
     Api.Row.target := target (scenario r);
     Api.Row.expected := expectedResult (scenario r);
     Api.Row.passed := passed r;
     Api.Row.actual := actualValue r;
     Api.Row.error := error r |}.

Definition passedCount (testResults : list TestResult) : nat :=
  List.length (filter passed testResults).

Definition totalCount (testResults : list TestResult) : nat :=
  List.length testResults.

(** The object results of the answer. *)
Definition summarize (testResults : list TestResult) : Api.Summary.t :=
  {| Api.Summary.total := totalCount testResults;
     Api.Summary.passed := passedCount testResults;
     Api.Summary.failed := totalCount testResults - passedCount testResults;
     Api.Summary.tests := map row testResults |}.

Definition allPassed (testResults : list TestResult) : bool :=
  passedCount testResults =? totalCount testResults.

Definition answer {World} (code : nat) (b : Api.body) : M World Api.response :=
  ret {| Api.statusCode := code; Api.json := b |}.

Section Handler.

Context {World Browser Page Element : Type}.
Variable P : Puppeteer World Browser Page Element.
Variable S : Services World.

(** The try block of POST /api/test. *)
Definition testSteps (ticketId portalUrl : string) : M World Api.response :=
  match Jira.extractJiraTicketId ticketId with
  | None =>
      answer 400
        (Api.Failure "Invalid ticket ID format. Expected format: ABC-123")
  | Some extractedId =>
      ticket <- service (getJiraTicket S extractedId) ;;
      if String.eqb (Jira.acceptanceCriteria ticket)
           "No acceptance criteria found"
      then
        answer 400
          (Api.NoCriteria "No acceptance criteria found in ticket"
             (Jira.key ticket) (Jira.summary ticket) (Jira.description ticket))
      else
        parsedCriteria <-
          service (parseAcceptanceCriteria S (Jira.acceptanceCriteria ticket)
                     (Jira.summary ticket) (Jira.description ticket)) ;;
        testResults <- runTests P portalUrl (Ai.scenarios parsedCriteria) ;;
        report <-
          service (generateTestReport S (Jira.key ticket) (Jira.summary ticket)
                     testResults) ;;
        answer 200
          (Api.Completed (allPassed testResults) (Jira.key ticket)
             (Jira.summary ticket) (Jira.status ticket)
             (summarize testResults) report)
  end.

(** The handler of POST /api/test: the check of the two fields, then the
    try block, whose catch clause answers 500 with the message. *)
Definition postTest (ticketId portalUrl : option string) : M World Api.response :=
  match ticketId, portalUrl with
  | Some id, Some url =>
      if falsy ticketId || falsy portalUrl
      then
        answer 400
          (Api.Failure "Missing required fields: ticketId and portalUrl")
      else
        tryCatch (testSteps id url)
          (fun e => answer 500 (Api.Failure (message e)))
  | _, _ =>
      answer 400 (Api.Failure "Missing required fields: ticketId and portalUrl")
  end.

End Handler.

End Server.

(** ** More of the simulated world *)

Module SimServer.
Import Engine.

(** A browser whose close throws. *)
Definition closeFails : Puppeteer Sim.SimWorld unit unit Sim.SimElement := {|
  launch := launch Sim.driver;
  newPage := newPage Sim.driver;
  setViewport := setViewport Sim.driver;
  goto := goto Sim.driver;
  querySelector := querySelector Sim.driver;
  computedStyle := computedStyle Sim.driver;
  textContent := textContent Sim.driver;
  click := click Sim.driver;
  hover := hover Sim.driver;
  type := type Sim.driver;
  close := fun _ w => (Thrown {| message := "Connection closed" |}, w);
  elapse := elapse Sim.driver
|}.

Definition ticket : Jira.JiraTicket := {|
  Jira.key := "QA-7";
  Jira.summary := "Yellow button";
  Jira.description := "The button turns yellow";
  Jira.acceptanceCriteria := "The button is yellow";
  Jira.status := "Open";
  Jira.assignee := None;
  Jira.issueType := "Story";
  Jira.priority := "Medium"
|}.

(** Services that answer at once: the ticket above for the key QA-7, the
    scenarios A and C for its criteria, and a fixed report. *)
Definition services : Server.Services Sim.SimWorld := {|
  Server.getJiraTicket := fun id w =>
    if String.eqb id "QA-7" then (Returned ticket, w)
    else (Thrown {| message := "Failed to fetch JIRA ticket" |}, w);
  Server.parseAcceptanceCriteria := fun _ _ _ w =>
    (Returned {| Ai.scenarios := [Sim.scenarioA; Sim.scenarioC];
                 Ai.summary := "One button" |}, w);
  Server.generateTestReport := fun _ _ _ w => (Returned "One of two passed", w)
|}.

End SimServer.

(** ** Notions used by the further statements *)

Module Notions.
Import JsString Regex Normalizer Expectation Engine Spec.

(** Blanks, none included. *)
Definition spacesText (ws : list ascii) : Prop :=
  Forall (fun c => isSpace c = true) ws.

(** What may stand between two numbers of rgb(...): a comma and blanks, or
    blanks alone, at least one. *)
Definition separator (sep : list ascii) : Prop :=
  (exists ws, sep = ","%char :: ws /\ spacesText ws)
  \/ (sep <> [] /\ spacesText sep).

(** The number that a template literal prints. *)
Definition decimal (z : Z) : string := numberToString (Some z).

(** A value as the three replace patterns expect it when it is not
    quoted: it starts with a character that is no quote and no line
    terminator, and no quote comes second. *)
Definition bareValue (v : list ascii) : Prop :=
  exists c rest,
    v = c :: rest /\ isLineTerminator c = false /\ c <> "034"%char
    /\ match rest with
       | x :: _ => x <> "034"%char
       | [] => True
       end.

(** The sum over a trace of what each of its events weighs. *)
Definition weight (mu : event -> nat) (tr : list event) : nat :=
  list_sum (map mu tr).

(** The time of a pause, in milliseconds. *)
Definition pauseOf (ev : event) : nat :=
  match ev with Pause ms => ms | _ => 0 end.

Definition pausedMs (tr : list event) : nat := weight pauseOf tr.

(** The calls that work on the page. *)
Definition pageCall (ev : event) : nat :=
  match ev with
  | CallGoto _ | CallQuery _ | CallComputedStyle _ | CallTextContent
  | CallClick | CallHover | CallType _ => 1
  | _ => 0
  end.

(** The calls that make or end a session. *)
Definition sessionCall (ev : event) : nat :=
  match ev with
  | CallLaunch | CallNewPage | CallSetViewport _ _ | CallClose => 1
  | _ => 0
  end.

(** The pause that ends the handler of an action that went through. *)
Definition settleDelay (a : string) : nat :=
  if String.eqb a "click" then 500
  else if String.eqb a "navigate" then 1000
  else if String.eqb a "hover" then 300
  else 0.

(** A computation extends the trace by events that weigh hi at most, and
    lo at least when it returns. *)
Definition bounded {World A} (mu : event -> nat) (lo hi : nat) (m : M World A)
    : Prop :=
  forall st, exists tr,
    calls (snd (m st)) = calls st ++ tr
    /\ weight mu tr <= hi
    /\ (forall a, fst (m st) = Returned a -> lo <= weight mu tr).

(** The words before the value of a replace pattern lead the matcher to
    the value. *)
Definition leads (pat : regex) (words : string) : Prop :=
  forall w s caps k res,
    spelled words w ->
    rmatch true lazyValue s caps k = Some res ->
    rmatch true pat (w ++ s) caps k = Some res.

(** A ticket key: two capitals or more, a hyphen, digits. *)
Definition ticketKey (k : list ascii) : Prop :=
  exists letters ds,
    k = letters ++ "-"%char :: ds
    /\ 2 <= List.length letters
    /\ Forall (fun c => Jira.isUpper c = true) letters
    /\ digitText ds.

End Notions.

(** ** Properties of the engine *)

Module Properties.
Import JsString Regex Normalizer Expectation Engine Spec.

Lemma closeCount_app (a b : list event) :
  closeCount (a ++ b) = closeCount a + closeCount b.
Proof.
  unfold closeCount. now rewrite filter_app, length_app.
Qed.

(** *** How the matcher runs on the shapes of input met here *)

Lemma chars_str (l : list ascii) : chars (str l) = l.
Proof. apply list_ascii_of_string_of_list_ascii. Qed.

Lemma str_chars (s : string) : str (chars s) = s.
Proof. apply string_of_list_ascii_of_string. Qed.

Lemma includesChars_app (a b : list ascii) : includesChars (a ++ b) b = true.
Proof.
  assert (Hp : forall l, isPrefix l l = true).
  { induction l as [| c l IH]; cbn; [reflexivity|].
    now rewrite Ascii.eqb_refl, IH. }
  induction a as [| c a IH]; cbn.
  - destruct b; cbn; [reflexivity|]. now rewrite Ascii.eqb_refl, Hp.
  - rewrite IH. apply orb_true_r.
Qed.

Lemma chars_append (a b : string) : chars (a ++ b) = chars a ++ chars b.
Proof.
  unfold chars. induction a as [| c a IH]; cbn; [reflexivity|].
  now rewrite IH.
Qed.

Lemma includes_suffix (a b : string) : includes (a ++ b) b = true.
Proof.
  unfold includes. rewrite chars_append. apply includesChars_app.
Qed.

Lemma consumed_app (a b : list ascii) : consumed (a ++ b) b = a.
Proof.
  unfold consumed. rewrite length_app.
  replace (List.length a + List.length b - List.length b)
    with (List.length a) by lia.
  rewrite firstn_app, firstn_all, Nat.sub_diag. cbn. apply app_nil_r.
Qed.

Lemma consumed_nil (a : list ascii) : consumed a [] = a.
Proof.
  rewrite <- (app_nil_r a) at 1. apply consumed_app.
Qed.

Lemma class_fails (ic : bool) (p : ascii -> bool) (s : list ascii)
    (caps : captures) (k : cont) :
  stopsAt ic p s -> rmatch ic (RClass p) s caps k = None.
Proof.
  destruct s as [| x s]; cbn; [reflexivity|]. now intros ->.
Qed.

Lemma class_matches (ic : bool) (p : ascii -> bool) (x : ascii)
    (s : list ascii) (caps : captures) (k : cont) :
  classMatches ic p x = true -> rmatch ic (RClass p) (x :: s) caps k = k s caps.
Proof.
  cbn. now intros ->.
Qed.

Lemma starLoop_S (greedy : bool)
    (step : list ascii -> captures -> cont -> option result) (k : cont)
    (n : nat) (s : list ascii) (caps : captures) :
  starLoop greedy step k (S n) s caps =
    if greedy
    then orElse (step s caps (progress s (starLoop greedy step k n))) (k s caps)
    else orElse (k s caps) (step s caps (progress s (starLoop greedy step k n))).
Proof. reflexivity. Qed.

Lemma progress_cons (x : ascii) (s : list ascii) (k : cont) (caps : captures) :
  progress (x :: s) k s caps = k s caps.
Proof.
  unfold progress.
  replace (List.length s <? List.length (x :: s)) with true; [reflexivity|].
  symmetry. apply Nat.ltb_lt. cbn. lia.
Qed.

(** A greedy star over a class takes the whole run of characters of the
    class when the rest of the pattern matches after it. *)
Lemma star_greedy_class (ic : bool) (p : ascii -> bool) (k : cont)
    (res : result) (s : list ascii) (caps : captures) :
  stopsAt ic p s -> k s caps = Some res ->
  forall xs n,
    Forall (fun c => classMatches ic p c = true) xs ->
    List.length xs <= n ->
    starLoop true (rmatch ic (RClass p)) k n (xs ++ s) caps = Some res.
Proof.
  intros Hs Hk. induction xs as [| x xs IH]; intros n Hxs Hn.
  - destruct n as [| n]; [exact Hk|].
    rewrite starLoop_S. cbn [app].
    rewrite (class_fails ic p s caps _ Hs). exact Hk.
  - destruct n as [| n]; [cbn in Hn; lia|].
    inversion Hxs as [| ? ? Hx Hxs']; subst.
    rewrite starLoop_S. cbn [app].
    rewrite (class_matches ic p x _ caps _ Hx), progress_cons.
    rewrite (IH n Hxs') by (cbn in Hn; lia). reflexivity.
Qed.

Lemma plus_greedy_class (ic : bool) (p : ascii -> bool) (k : cont)
    (res : result) (xs s : list ascii) (caps : captures) :
  xs <> [] -> Forall (fun c => classMatches ic p c = true) xs ->
  stopsAt ic p s -> k s caps = Some res ->
  rmatch ic (RPlus true (RClass p)) (xs ++ s) caps k = Some res.
Proof.
  intros Hne Hxs Hs Hk. destruct xs as [| x xs]; [contradiction|].
  inversion Hxs as [| ? ? Hx Hxs']; subst.
  change (rmatch ic (RClass p) ((x :: xs) ++ s) caps
            (fun s' caps' => rmatch ic (RStar true (RClass p)) s' caps' k)
          = Some res).
  cbn [app]. rewrite (class_matches ic p x _ caps _ Hx).
  change (starLoop true (rmatch ic (RClass p)) k (List.length (xs ++ s))
            (xs ++ s) caps = Some res).
  apply star_greedy_class; auto. rewrite length_app. lia.
Qed.

Lemma star_greedy_class_all (ic : bool) (p : ascii -> bool) (k : cont)
    (res : result) (xs s : list ascii) (caps : captures) :
  Forall (fun c => classMatches ic p c = true) xs ->
  stopsAt ic p s -> k s caps = Some res ->
  rmatch ic (RStar true (RClass p)) (xs ++ s) caps k = Some res.
Proof.
  intros Hxs Hs Hk.
  change (starLoop true (rmatch ic (RClass p)) k (List.length (xs ++ s))
            (xs ++ s) caps = Some res).
  apply star_greedy_class; auto. rewrite length_app. lia.
Qed.

(** A literal matches the text that spells it. *)
Lemma literal_matches (ic : bool) (k : cont) (s : list ascii)
    (caps : captures) (l xs : list ascii) :
  Forall2 (fun c x => charMatches ic c x = true) l xs ->
  rmatch ic (RLit l) (xs ++ s) caps k = k s caps.
Proof.
  induction 1 as [| c x l xs Hc _ IH]; cbn [RLit rmatch app]; [reflexivity|].
  rewrite Hc. exact IH.
Qed.

Lemma search_here (ic : bool) (r : regex) (i : nat) (s s' : list ascii)
    (caps : captures) :
  matchAt ic r s = Some (s', caps) ->
  search ic r i s
    = Some {| index := i; matched := consumed s s'; groups := caps |}.
Proof.
  intros H. destruct s; cbn [search]; now rewrite H.
Qed.

Ltac by_cases_on c :=
  destruct c as [[] [] [] [] [] [] [] []]; vm_compute; congruence.

Lemma space_is_no_property_char (c : ascii) :
  isSpace c = true -> classMatches true isPropertyChar c = false.
Proof. by_cases_on c. Qed.

Lemma spelled_s_is_no_space (x : ascii) :
  charMatches true "s" x = true -> classMatches true isSpace x = false.
Proof. by_cases_on x. Qed.

Lemma spelled_b_is_no_space (x : ascii) :
  charMatches true "b" x = true -> classMatches true isSpace x = false.
Proof. by_cases_on x. Qed.

Lemma space_class (ic : bool) (c : ascii) :
  isSpace c = true -> classMatches ic isSpace c = true.
Proof.
  intros H. unfold classMatches. rewrite H. now destruct ic.
Qed.

Lemma no_space_class (c : ascii) :
  isSpace c = false -> classMatches true isSpace c = false.
Proof. by_cases_on c. Qed.

Lemma any_class (ic : bool) (c : ascii) :
  isLineTerminator c = false ->
  classMatches ic (fun x => negb (isLineTerminator x)) c = true.
Proof.
  intros H. unfold classMatches. rewrite H. now destruct ic.
Qed.

Lemma blanks_class (ic : bool) (ws : list ascii) :
  Forall (fun c => isSpace c = true) ws ->
  Forall (fun c => classMatches ic isSpace c = true) ws.
Proof.
  intros H. eapply Forall_impl; [| exact H]. intros c. apply space_class.
Qed.

Lemma rmatch_seq (ic : bool) (r1 r2 : regex) (s : list ascii)
    (caps : captures) (k : cont) :
  rmatch ic (RSeq r1 r2) s caps k
    = rmatch ic r1 s caps (fun s' caps' => rmatch ic r2 s' caps' k).
Proof. reflexivity. Qed.

Lemma rmatch_group (ic : bool) (i : nat) (r : regex) (s : list ascii)
    (caps : captures) (k : cont) :
  rmatch ic (RGroup i r) s caps k
    = rmatch ic r s caps (fun s' caps' => k s' ((i, consumed s s') :: caps')).
Proof. reflexivity. Qed.

(** The pattern of check_style on an expectation written in its
    grammar: the match starts at the property name, group 1 is the name
    and group 2 the value. *)
Lemma stylePattern_on_grammar (p ws1 sh ws2 be ws3 v : list ascii) :
  propertyName p -> blanks ws1 -> spelled "should" sh -> blanks ws2 ->
  spelled "be" be -> blanks ws3 -> valueText v ->
  matchAt true stylePattern (p ++ ws1 ++ sh ++ ws2 ++ be ++ ws3 ++ v)
    = Some ([], [(2, v); (1, p)]).
Proof.
  intros [Hp1 Hp2] [Hw1 Hw1'] Hsh [Hw2 Hw2'] Hbe [Hw3 Hw3'] [Hv (c & v' & -> & Hc)].
  unfold matchAt, stylePattern, someSpace.
  rewrite rmatch_seq, rmatch_group.
  apply plus_greedy_class; auto.
  { destruct ws1 as [| x ws1]; [contradiction|].
    inversion Hw1'; subst. now apply space_is_no_property_char. }
  rewrite consumed_app, rmatch_seq.
  apply plus_greedy_class; auto using blanks_class.
  { inversion Hsh as [| ? x ? ? Hx]; subst. now apply spelled_s_is_no_space. }
  rewrite rmatch_seq, (literal_matches true _ _ _ _ sh Hsh), rmatch_seq.
  apply plus_greedy_class; auto using blanks_class.
  { inversion Hbe as [| ? x ? ? Hx]; subst. now apply spelled_b_is_no_space. }
  rewrite rmatch_seq, (literal_matches true _ _ _ _ be Hbe), rmatch_seq.
  apply plus_greedy_class; auto using blanks_class.
  { now apply no_space_class. }
  rewrite rmatch_group, <- (app_nil_r (c :: v')) at 1.
  apply plus_greedy_class.
  - discriminate.
  - eapply Forall_impl; [| exact Hv]. intros x. apply any_class.
  - exact I.
  - now rewrite consumed_nil.
Qed.

Lemma parseStyle_on_grammar (p ws1 sh ws2 be ws3 v : list ascii) :
  propertyName p -> blanks ws1 -> spelled "should" sh -> blanks ws2 ->
  spelled "be" be -> blanks ws3 -> valueText v ->
  parseStyle (str (p ++ ws1 ++ sh ++ ws2 ++ be ++ ws3 ++ v))
    = Some (str p, str v).
Proof.
  intros Hp H1 Hsh H2 Hbe H3 Hv. unfold parseStyle, exec.
  rewrite chars_str.
  rewrite (search_here _ _ _ _ _ _
             (stylePattern_on_grammar p ws1 sh ws2 be ws3 v Hp H1 Hsh H2 Hbe H3 Hv)).
  reflexivity.
Qed.

Lemma char_matches (ic : bool) (c x : ascii) (s : list ascii)
    (caps : captures) (k : cont) :
  charMatches ic c x = true -> rmatch ic (RChar c) (x :: s) caps k = k s caps.
Proof.
  cbn. now intros ->.
Qed.

Lemma alt_first (ic : bool) (r1 r2 : regex) (s : list ascii) (caps : captures)
    (k : cont) (res : result) :
  rmatch ic r1 s caps k = Some res -> rmatch ic (RAlt r1 r2) s caps k = Some res.
Proof.
  intros H. cbn [rmatch]. now rewrite H.
Qed.

Lemma alt_second (ic : bool) (r1 r2 : regex) (s : list ascii) (caps : captures)
    (k : cont) :
  rmatch ic r1 s caps k = None ->
  rmatch ic (RAlt r1 r2) s caps k = rmatch ic r2 s caps k.
Proof.
  intros H. cbn [rmatch]. now rewrite H.
Qed.

(** A greedy optional character is taken when it is there and the rest
    of the pattern matches after it. *)
Lemma opt_char_taken (ic : bool) (c x : ascii) (s : list ascii)
    (caps : captures) (k : cont) (res : result) :
  charMatches ic c x = true -> k s caps = Some res ->
  rmatch ic (ROpt true (RChar c)) (x :: s) caps k = Some res.
Proof.
  intros Hc Hk.
  change (orElse (rmatch ic (RChar c) (x :: s) caps (progress (x :: s) k))
            (k (x :: s) caps) = Some res).
  now rewrite (char_matches ic c x s caps _ Hc), progress_cons, Hk.
Qed.

Lemma opt_char_skipped (ic : bool) (c x : ascii) (s : list ascii)
    (caps : captures) (k : cont) :
  charMatches ic c x = false ->
  rmatch ic (ROpt true (RChar c)) (x :: s) caps k = k (x :: s) caps.
Proof.
  intros Hc.
  change (orElse (rmatch ic (RChar c) (x :: s) caps (progress (x :: s) k))
            (k (x :: s) caps) = k (x :: s) caps).
  cbn [rmatch]. now rewrite Hc.
Qed.

(** A lazy plus over a class takes one character when the rest of the
    pattern matches right after it. *)
Lemma plus_lazy_class_one (ic : bool) (p : ascii -> bool) (x : ascii)
    (s : list ascii) (caps : captures) (k : cont) (res : result) :
  classMatches ic p x = true -> k s caps = Some res ->
  rmatch ic (RPlus false (RClass p)) (x :: s) caps k = Some res.
Proof.
  intros Hx Hk.
  change (rmatch ic (RClass p) (x :: s) caps
            (fun s' caps' => rmatch ic (RStar false (RClass p)) s' caps' k)
          = Some res).
  rewrite (class_matches ic p x s caps _ Hx).
  change (starLoop false (rmatch ic (RClass p)) k (List.length s) s caps
          = Some res).
  destruct (List.length s); [exact Hk|]. rewrite starLoop_S. now rewrite Hk.
Qed.

Lemma skipn_consumed (a b : list ascii) :
  skipn (List.length (consumed (a ++ b) b)) (a ++ b) = b.
Proof.
  rewrite consumed_app, skipn_app, skipn_all, Nat.sub_diag. reflexivity.
Qed.

(** What the replacement of check_text leaves of an expectation written
    with the value between double quotes, when the value has two
    characters or more: the value and the closing quote. *)
Lemma extractText_keeps_closing_quote (c x : ascii) (v : list ascii) :
  isLineTerminator c = false -> x <> "034"%char ->
  extractText ("text should contain " ++ quoted (str (c :: x :: v)))
    = (str (c :: x :: v) ++ dq)%string.
Proof.
  intros Hc Hx.
  assert (Hq : charMatches true "034" x = false).
  { unfold charMatches. apply Ascii.eqb_neq. intros E. apply Hx.
    revert E. clear. by_cases_on x. }
  pose (rest := x :: v ++ ["034"%char]).
  pose (input := chars "text should "
                 ++ chars "contain" ++ " "%char :: "034"%char :: [c] ++ rest).
  assert (Hin : chars ("text should contain " ++ quoted (str (c :: x :: v)))
                = input).
  { unfold quoted, dq. rewrite !chars_append, chars_str.
    unfold input, rest. cbn. rewrite <- ?app_assoc. reflexivity. }
  assert (Hm : matchAt true textPattern input = Some (rest, [(1, [c])])).
  { unfold matchAt, textPattern, lazyValue, optQuote, input.
    rewrite rmatch_seq.
    rewrite (literal_matches true _ _ _ (chars "text should ")
               (chars "text should "))
      by (cbn; repeat constructor).
    rewrite rmatch_seq. apply alt_first.
    rewrite (literal_matches true _ _ _ (chars "contain") (chars "contain"))
      by (cbn; repeat constructor).
    rewrite rmatch_seq, char_matches by reflexivity.
    rewrite rmatch_seq. apply opt_char_taken; [reflexivity|].
    rewrite rmatch_seq, rmatch_group.
    cbn [app]. apply plus_lazy_class_one; [now apply any_class|].
    unfold rest. rewrite (opt_char_skipped true _ x _ _ _ Hq).
    change (c :: x :: v ++ ["034"%char]) with ([c] ++ x :: v ++ ["034"%char]).
    now rewrite consumed_app. }
  assert (Hsplit : input = (chars "text should contain " ++ ["034"%char; c]) ++ rest)
    by (unfold input; cbn; reflexivity).
  unfold extractText, replaceWithGroup1, exec. rewrite Hin.
  rewrite (search_here _ _ _ _ _ _ Hm). cbn [index matched groups].
  rewrite Hsplit, Nat.add_0_l, skipn_consumed.
  unfold group, rest, str, dq. cbn.
  f_equal. f_equal. clear. induction v as [| y v IH]; cbn; [reflexivity|].
  now rewrite IH.
Qed.

(** *** The bound on the iterations of a star is enough *)

(** The matcher asks its continuation only about suffixes that are not
    longer than its input. *)
Lemma starLoop_ext (g : bool)
    (step : list ascii -> captures -> cont -> option result)
    (Hstep : forall s caps k1 k2,
        (forall s' caps', List.length s' <= List.length s ->
                          k1 s' caps' = k2 s' caps') ->
        step s caps k1 = step s caps k2)
    (k1 k2 : cont) :
  forall n s caps,
    (forall s' caps', List.length s' <= List.length s -> k1 s' caps' = k2 s' caps') ->
    starLoop g step k1 n s caps = starLoop g step k2 n s caps.
Proof.
  induction n as [| n IH]; intros s caps H.
  - cbn. apply H. lia.
  - rewrite !starLoop_S.
    rewrite (Hstep s caps (progress s (starLoop g step k1 n))
               (progress s (starLoop g step k2 n))).
    + now rewrite (H s caps (Nat.le_refl _)).
    + intros s' caps' Hl. unfold progress.
      destruct (List.length s' <? List.length s); [| reflexivity].
      apply IH. intros s2 caps2 H2. apply H. lia.
Qed.

Lemma rmatch_ext (ic : bool) (r : regex) :
  forall s caps k1 k2,
    (forall s' caps', List.length s' <= List.length s -> k1 s' caps' = k2 s' caps') ->
    rmatch ic r s caps k1 = rmatch ic r s caps k2.
Proof.
  induction r as [| c | p | r1 IH1 r2 IH2 | r1 IH1 r2 IH2 | g r1 IH1 | g r1 IH1
                 | i r1 IH1]; intros s caps k1 k2 H; cbn [rmatch].
  - apply H. lia.
  - destruct s as [| x s]; [reflexivity|].
    destruct (charMatches ic c x); [| reflexivity]. apply H. cbn. lia.
  - destruct s as [| x s]; [reflexivity|].
    destruct (classMatches ic p x); [| reflexivity]. apply H. cbn. lia.
  - apply IH1. intros s' caps' Hl. apply IH2.
    intros s2 caps2 H2. apply H. lia.
  - now rewrite (IH1 s caps k1 k2 H), (IH2 s caps k1 k2 H).
  - rewrite (IH1 s caps (progress s k1) (progress s k2)).
    + now rewrite (H s caps (Nat.le_refl _)).
    + intros s' caps' Hl. unfold progress.
      destruct (List.length s' <? List.length s); [| reflexivity].
      apply H. lia.
  - apply starLoop_ext; assumption.
  - apply IH1. intros s' caps' Hl. apply H. exact Hl.
Qed.

Lemma orElse_none_r {A} (a : option A) : orElse a None = a.
Proof. now destruct a. Qed.

(** When the continuation always fails, so does the match. *)
Lemma rmatch_fails (ic : bool) (r : regex) :
  forall s caps k,
    (forall s' caps', k s' caps' = None) -> rmatch ic r s caps k = None.
Proof.
  induction r as [| c | p | r1 IH1 r2 IH2 | r1 IH1 r2 IH2 | g r1 IH1 | g r1 IH1
                 | i r1 IH1]; intros s caps k H; cbn [rmatch].
  - apply H.
  - destruct s as [| x s]; [reflexivity|]. destruct (charMatches ic c x); auto.
  - destruct s as [| x s]; [reflexivity|]. destruct (classMatches ic p x); auto.
  - apply IH1. intros s' caps'. now apply IH2.
  - now rewrite (IH1 s caps k H), (IH2 s caps k H).
  - rewrite IH1, H; [now destruct g|].
    intros s' caps'. unfold progress. now destruct (_ <? _).
  - generalize (List.length s) at 1. intros n. revert s caps.
    induction n as [| n IHn]; intros s caps; [apply H|].
    rewrite starLoop_S, IH1, H; [now destruct g|].
    intros s' caps'. unfold progress. now destruct (_ <? _).
  - apply IH1. intros s' caps'. apply H.
Qed.

(** At the end of the input a star has nothing to iterate. *)
Lemma starLoop_at_end (ic g : bool) (r : regex) (k : cont) (n : nat)
    (caps : captures) :
  starLoop g (rmatch ic r) k n [] caps = k [] caps.
Proof.
  destruct n as [| n]; [reflexivity|].
  rewrite starLoop_S, rmatch_fails; [destruct g; [reflexivity | apply orElse_none_r]|].
  intros s' caps'. reflexivity.
Qed.

(** Any counter that is at least the length of the input gives the
    same answer: no match is lost to the bound. *)
Lemma starLoop_bound_enough (ic g : bool) (r : regex) (k : cont) :
  forall n m s caps,
    List.length s <= n -> List.length s <= m ->
    starLoop g (rmatch ic r) k n s caps = starLoop g (rmatch ic r) k m s caps.
Proof.
  induction n as [| n IH]; intros m s caps Hn Hm.
  - destruct s; [| cbn in Hn; lia]. now rewrite !starLoop_at_end.
  - destruct m as [| m].
    + destruct s; [| cbn in Hm; lia]. now rewrite !starLoop_at_end.
    + rewrite !starLoop_S.
      rewrite (rmatch_ext ic r s caps
                 (progress s (starLoop g (rmatch ic r) k n))
                 (progress s (starLoop g (rmatch ic r) k m))); [reflexivity|].
      intros s' caps' Hl. unfold progress.
      destruct (List.length s' <? List.length s) eqn:E; [| reflexivity].
      apply Nat.ltb_lt in E. apply IH; lia.
Qed.

(** *** The matcher finds only matches *)

Lemma starLoop_sound (ic : bool) (g : bool) (r : regex) (k : cont)
    (res : result)
    (IH : forall s caps k', rmatch ic r s caps k' = Some res ->
          exists s' caps', matches ic r s caps s' caps' /\ k' s' caps' = Some res) :
  forall n s caps,
    starLoop g (rmatch ic r) k n s caps = Some res ->
    exists s' caps', matches ic (RStar g r) s caps s' caps' /\ k s' caps' = Some res.
Proof.
  induction n as [| n IHn]; intros s caps H.
  - exists s, caps. split; [constructor | exact H].
  - rewrite starLoop_S in H.
    assert (Hmore : rmatch ic r s caps (progress s (starLoop g (rmatch ic r) k n))
                    = Some res ->
                    exists s' caps',
                      matches ic (RStar g r) s caps s' caps' /\ k s' caps' = Some res).
    { intros Hm. destruct (IH _ _ _ Hm) as (s1 & caps1 & M1 & K1).
      unfold progress in K1.
      destruct (List.length s1 <? List.length s); [| discriminate].
      destruct (IHn _ _ K1) as (s2 & caps2 & M2 & K2).
      exists s2, caps2. split; [| exact K2]. econstructor; eassumption. }
    assert (Hstop : k s caps = Some res ->
                    exists s' caps',
                      matches ic (RStar g r) s caps s' caps' /\ k s' caps' = Some res).
    { intros Hk. exists s, caps. split; [constructor | exact Hk]. }
    destruct g; unfold orElse in H.
    + destruct (rmatch ic r s caps _) eqn:E; [inversion H; subst; auto | auto].
    + destruct (k s caps) eqn:E; [inversion H; subst; auto | auto].
Qed.

Lemma rmatch_sound (ic : bool) (res : result) (r : regex) :
  forall s caps k,
    rmatch ic r s caps k = Some res ->
    exists s' caps', matches ic r s caps s' caps' /\ k s' caps' = Some res.
Proof.
  induction r as [| c | p | r1 IH1 r2 IH2 | r1 IH1 r2 IH2 | g r1 IH1 | g r1 IH1
                 | i r1 IH1]; intros s caps k H.
  - exists s, caps. split; [constructor | exact H].
  - cbn in H. destruct s as [| x s]; [discriminate|].
    destruct (charMatches ic c x) eqn:E; [| discriminate].
    exists s, caps. split; [now constructor | exact H].
  - cbn in H. destruct s as [| x s]; [discriminate|].
    destruct (classMatches ic p x) eqn:E; [| discriminate].
    exists s, caps. split; [now constructor | exact H].
  - rewrite rmatch_seq in H.
    destruct (IH1 _ _ _ H) as (s1 & caps1 & M1 & K1).
    destruct (IH2 _ _ _ K1) as (s2 & caps2 & M2 & K2).
    exists s2, caps2. split; [econstructor; eassumption | exact K2].
  - cbn [rmatch] in H. unfold orElse in H.
    destruct (rmatch ic r1 s caps k) eqn:E.
    + inversion H; subst. destruct (IH1 _ _ _ E) as (s1 & caps1 & M1 & K1).
      exists s1, caps1. split; [now apply MAltLeft | exact K1].
    + destruct (IH2 _ _ _ H) as (s1 & caps1 & M1 & K1).
      exists s1, caps1. split; [now apply MAltRight | exact K1].
  - cbn [rmatch] in H.
    assert (Honce : rmatch ic r1 s caps (progress s k) = Some res ->
                    exists s' caps',
                      matches ic (ROpt g r1) s caps s' caps' /\ k s' caps' = Some res).
    { intros Hm. destruct (IH1 _ _ _ Hm) as (s1 & caps1 & M1 & K1).
      unfold progress in K1.
      destruct (List.length s1 <? List.length s); [| discriminate].
      exists s1, caps1. split; [now apply MOptSome | exact K1]. }
    assert (Hnone : k s caps = Some res ->
                    exists s' caps',
                      matches ic (ROpt g r1) s caps s' caps' /\ k s' caps' = Some res).
    { intros Hk. exists s, caps. split; [apply MOptNone | exact Hk]. }
    destruct g; unfold orElse in H.
    + destruct (rmatch ic r1 s caps _) eqn:E; [inversion H; subst; auto | auto].
    + destruct (k s caps) eqn:E; [inversion H; subst; auto | auto].
  - apply (starLoop_sound ic g r1 k res IH1 (List.length s)). exact H.
  - rewrite rmatch_group in H.
    destruct (IH1 _ _ _ H) as (s1 & caps1 & M1 & K1).
    exists s1, ((i, consumed s s1) :: caps1). split; [now constructor | exact K1].
Qed.

Lemma matchAt_sound (ic : bool) (r : regex) (s s' : list ascii)
    (caps : captures) :
  matchAt ic r s = Some (s', caps) -> matches ic r s [] s' caps.
Proof.
  unfold matchAt. intros H.
  destruct (rmatch_sound ic _ r _ _ _ H) as (s1 & caps1 & M & K).
  now inversion K; subst.
Qed.

(** The groups of the match that exec returns are those of a match of the
    pattern on a suffix of the input. *)
Lemma search_sound (ic : bool) (r : regex) (s : list ascii) :
  forall i m,
    search ic r i s = Some m ->
    exists s0 s', matches ic r s0 [] s' (groups m).
Proof.
  induction s as [| x s IH]; intros i m H; cbn [search] in H.
  - destruct (matchAt ic r []) as [[s' caps] |] eqn:E; [| discriminate].
    inversion H; subst. exists [], s'. now apply matchAt_sound.
  - destruct (matchAt ic r (x :: s)) as [[s' caps] |] eqn:E.
    + inversion H; subst. exists (x :: s), s'. now apply matchAt_sound.
    + exact (IH _ _ H).
Qed.

Lemma matches_groupFree (ic : bool) (r : regex) (s s' : list ascii)
    (caps caps' : captures) :
  matches ic r s caps s' caps' -> groupFree r = true -> caps' = caps.
Proof.
  induction 1; cbn [groupFree]; intros G;
    try apply andb_prop in G; try reflexivity; try discriminate; auto.
  - destruct G as [G1 G2]. rewrite (IHmatches2 G2). auto.
  - destruct G; auto.
  - destruct G; auto.
  - rewrite (IHmatches2 G). auto.
Qed.

Lemma matches_class_star (ic g : bool) (p : ascii -> bool) (r : regex)
    (s s' : list ascii) (caps caps' : captures) :
  matches ic r s caps s' caps' -> r = RStar g (RClass p) ->
  exists xs, s = xs ++ s' /\ Forall (fun c => classMatches ic p c = true) xs.
Proof.
  induction 1; intros E; try discriminate.
  - exists []. split; [reflexivity | constructor].
  - inversion E; subst. destruct (IHmatches2 eq_refl) as (xs & -> & F).
    inversion H; subst. exists (x :: xs). split; [reflexivity|].
    now constructor.
Qed.

Lemma digit_class (ic : bool) (c : ascii) :
  classMatches ic isDigit c = true -> isDigit c = true.
Proof.
  destruct ic; [| exact (fun H => H)]. revert c. intros c. by_cases_on c.
Qed.

(** A group of digits captures the digits it has matched. *)
Lemma matches_digits (ic : bool) (i : nat) (s s' : list ascii)
    (caps caps' : captures) :
  matches ic (digits i) s caps s' caps' ->
  exists d, digitText d /\ s = d ++ s' /\ caps' = (i, d) :: caps.
Proof.
  unfold digits, RPlus. intros H.
  inversion H as [| | | | | | | | | | ? ? ? ? ? caps0 H1]; subst.
  inversion H1 as [| | | ? ? ? ? s1 caps1 ? ? Hc Hs | | | | | | |]; subst.
  pose proof (matches_groupFree _ _ _ _ _ _ Hs eq_refl) as ->.
  inversion Hc; subst.
  destruct (matches_class_star _ true isDigit _ _ _ _ _ Hs eq_refl)
    as (xs & -> & F).
  exists (x :: xs). split; [| split].
  - split; [discriminate|]. constructor; [now apply (digit_class ic)|].
    eapply Forall_impl; [| exact F]. intros c. apply digit_class.
  - reflexivity.
  - change (x :: xs ++ s') with ((x :: xs) ++ s'). now rewrite consumed_app.
Qed.

(** Taking a match of a sequence apart, component by component. *)
Ltac split_sequence :=
  repeat match goal with
    | H : matches _ (digits _) _ _ _ _ |- _ =>
        apply matches_digits in H; destruct H as (? & ? & ? & ?); subst
    | H : matches _ (RSeq _ _) _ _ _ _ |- _ =>
        inversion H; subst; clear H
    | H : matches _ _ _ _ _ _ |- _ =>
        apply matches_groupFree in H; [subst | reflexivity]
    end.

Lemma rgbaPattern_groups (s s' : list ascii) (caps : captures) :
  matches false rgbaPattern s [] s' caps ->
  exists d1 d2 d3,
    digitText d1 /\ digitText d2 /\ digitText d3
    /\ caps = [(3, d3); (2, d2); (1, d1)].
Proof.
  unfold rgbaPattern. intros H. split_sequence. eauto 10.
Qed.

Lemma rgbPattern_groups (s s' : list ascii) (caps : captures) :
  matches false rgbPattern s [] s' caps ->
  exists d1 d2 d3,
    digitText d1 /\ digitText d2 /\ digitText d3
    /\ caps = [(3, d3); (2, d2); (1, d1)].
Proof.
  unfold rgbPattern. intros H. split_sequence. eauto 10.
Qed.

(** What the rgba and rgb branches return is a canonical text. *)
Lemma exec_groups_canonical (r : regex) (lowerColor : string) (m : matchResult) :
  (forall s s' caps, matches false r s [] s' caps ->
     exists d1 d2 d3,
       digitText d1 /\ digitText d2 /\ digitText d3
       /\ caps = [(3, d3); (2, d2); (1, d1)]) ->
  exec false r lowerColor = Some m ->
  exists d1 d2 d3,
    digitText d1 /\ digitText d2 /\ digitText d3
    /\ fromMatch m = canonical d1 d2 d3.
Proof.
  intros G H. unfold exec in H.
  destruct (search_sound _ _ _ _ _ H) as (s0 & s' & M).
  destruct (G _ _ _ M) as (d1 & d2 & d3 & H1 & H2 & H3 & E).
  exists d1, d2, d3. repeat (split; [assumption|]).
  unfold fromMatch, group. rewrite E. reflexivity.
Qed.

(** *** The normalizer on canonical texts *)

Lemma digit_lower (c : ascii) : isDigit c = true -> lowerChar c = c.
Proof. by_cases_on c. Qed.

Lemma digit_is_no_space (c : ascii) :
  isDigit c = true -> classMatches false isSpace c = false.
Proof. by_cases_on c. Qed.

Lemma digits_class (d : list ascii) :
  Forall (fun c => isDigit c = true) d ->
  Forall (fun c => classMatches false isDigit c = true) d.
Proof.
  intros H. eapply Forall_impl; [| exact H]. now intros c.
Qed.

Lemma digits_stop_spaces (d s : list ascii) :
  digitText d -> stopsAt false isSpace (d ++ s).
Proof.
  intros [Hne H]. destruct d as [| c d]; [contradiction|].
  inversion H; subst. now apply digit_is_no_space.
Qed.

Lemma chars_canonical (d1 d2 d3 : list ascii) :
  chars (canonical d1 d2 d3)
    = chars "rgb(" ++ d1 ++ chars ", " ++ d2 ++ chars ", " ++ d3 ++ chars ")".
Proof.
  unfold canonical, rgbText. now rewrite !chars_append, !chars_str.
Qed.

Lemma rgbPattern_on_canonical (d1 d2 d3 : list ascii) :
  digitText d1 -> digitText d2 -> digitText d3 ->
  matchAt false rgbPattern
    (chars "rgb(" ++ d1 ++ chars ", " ++ d2 ++ chars ", " ++ d3 ++ chars ")")
    = Some ([], [(3, d3); (2, d2); (1, d1)]).
Proof.
  intros H1 H2 H3.
  pose proof (digits_stop_spaces d2 (chars ", " ++ d3 ++ chars ")") H2) as S2.
  pose proof (digits_stop_spaces d3 (chars ")") H3) as S3.
  destruct H1 as [N1 F1], H2 as [N2 F2], H3 as [N3 F3].
  unfold matchAt, rgbPattern, digits, spaces, comma.
  rewrite rmatch_seq.
  rewrite (literal_matches false _ _ _ (chars "rgb(") (chars "rgb("))
    by (cbn; repeat constructor).
  rewrite rmatch_seq, rmatch_group.
  apply plus_greedy_class; auto using digits_class; [reflexivity|].
  rewrite consumed_app, rmatch_seq.
  cbn [chars list_ascii_of_string app].
  apply opt_char_taken; [reflexivity|].
  rewrite rmatch_seq.
  apply (star_greedy_class_all false isSpace _ _ [" "%char]);
    [repeat constructor | exact S2 |].
  rewrite rmatch_seq, rmatch_group.
  apply plus_greedy_class; auto using digits_class; [reflexivity|].
  rewrite consumed_app, rmatch_seq.
  apply opt_char_taken; [reflexivity|].
  rewrite rmatch_seq.
  apply (star_greedy_class_all false isSpace _ _ [" "%char]);
    [repeat constructor | exact S3 |].
  rewrite rmatch_seq, rmatch_group.
  apply plus_greedy_class; auto using digits_class; [reflexivity|].
  rewrite consumed_app. reflexivity.
Qed.

(** *** Lower case and trimming *)

Lemma lowerChar_idempotent (c : ascii) : lowerChar (lowerChar c) = lowerChar c.
Proof. by_cases_on c. Qed.

Lemma lowerChar_space (c : ascii) : isSpace (lowerChar c) = isSpace c.
Proof. by_cases_on c. Qed.

Lemma dropSpace_fixed (l : list ascii) : noLeadingSpace l -> dropSpace l = l.
Proof.
  destruct l as [| c l]; cbn; [reflexivity|]. now intros ->.
Qed.

Lemma dropSpace_noLeadingSpace (l : list ascii) : noLeadingSpace (dropSpace l).
Proof.
  induction l as [| c l IH]; cbn; [exact I|].
  destruct (isSpace c) eqn:E; [exact IH | exact E].
Qed.

(** What dropSpace leaves is a suffix, and what it keeps starts as the
    whole does when something is left of a text without leading blank. *)
Lemma dropSpace_suffix (l : list ascii) : exists ws, l = ws ++ dropSpace l.
Proof.
  induction l as [| c l [ws IH]]; cbn.
  - now exists [].
  - destruct (isSpace c).
    + exists (c :: ws). cbn. now rewrite <- IH.
    + now exists [].
Qed.

Lemma dropSpace_map_lower (l : list ascii) :
  dropSpace (map lowerChar l) = map lowerChar (dropSpace l).
Proof.
  induction l as [| c l IH]; cbn; [reflexivity|].
  rewrite lowerChar_space. now destruct (isSpace c).
Qed.

Lemma trimChars_map_lower (l : list ascii) :
  trimChars (map lowerChar l) = map lowerChar (trimChars l).
Proof.
  unfold trimChars.
  now rewrite dropSpace_map_lower, <- map_rev, dropSpace_map_lower, <- map_rev.
Qed.

Lemma noLeadingSpace_rev_prefix (a b ws : list ascii) :
  noLeadingSpace a -> rev a = ws ++ b -> noLeadingSpace (rev b).
Proof.
  intros Ha E.
  assert (Ea : a = rev b ++ rev ws).
  { rewrite <- (rev_involutive a), E, rev_app_distr. reflexivity. }
  destruct (rev b) as [| c l]; [exact I|]. subst a. exact Ha.
Qed.

Lemma trimChars_idempotent (l : list ascii) :
  trimChars (trimChars l) = trimChars l.
Proof.
  unfold trimChars.
  set (a := dropSpace l). set (b := dropSpace (rev a)).
  destruct (dropSpace_suffix (rev a)) as [ws E]. fold b in E.
  assert (Hb : noLeadingSpace (rev b)).
  { apply (noLeadingSpace_rev_prefix a b ws);
      [apply dropSpace_noLeadingSpace | exact E]. }
  rewrite (dropSpace_fixed (rev b) Hb), rev_involutive.
  now rewrite (dropSpace_fixed b (dropSpace_noLeadingSpace (rev a))).
Qed.

(** Lower case and trimming, done twice, is the same as done once. *)
Lemma lower_trim_idempotent (x : string) :
  trim (toLowerCase (trim (toLowerCase x))) = trim (toLowerCase x).
Proof.
  unfold trim, toLowerCase. rewrite !chars_str. f_equal.
  set (l := chars x).
  rewrite (trimChars_map_lower l), map_map.
  rewrite (map_ext _ lowerChar (fun c => lowerChar_idempotent c)).
  now rewrite trimChars_map_lower, trimChars_idempotent.
Qed.

Lemma trimChars_fixed (l : list ascii) :
  noLeadingSpace l -> noLeadingSpace (rev l) -> trimChars l = l.
Proof.
  intros H1 H2. unfold trimChars.
  now rewrite (dropSpace_fixed l H1), (dropSpace_fixed (rev l) H2), rev_involutive.
Qed.

Lemma map_lower_digits (d : list ascii) :
  Forall (fun c => isDigit c = true) d -> map lowerChar d = d.
Proof.
  induction 1 as [| c d Hc _ IH]; cbn; [reflexivity|].
  now rewrite (digit_lower c Hc), IH.
Qed.

Lemma lower_trim_canonical (d1 d2 d3 : list ascii) :
  digitText d1 -> digitText d2 -> digitText d3 ->
  trim (toLowerCase (canonical d1 d2 d3)) = canonical d1 d2 d3.
Proof.
  intros [_ F1] [_ F2] [_ F3]. unfold trim, toLowerCase.
  rewrite chars_str, chars_canonical, !map_app.
  rewrite (map_lower_digits d1 F1), (map_lower_digits d2 F2),
    (map_lower_digits d3 F3).
  change (map lowerChar (chars "rgb(")) with (chars "rgb(").
  change (map lowerChar (chars ", ")) with (chars ", ").
  change (map lowerChar (chars ")")) with (chars ")").
  rewrite trimChars_fixed.
  - now rewrite <- chars_canonical, str_chars.
  - reflexivity.
  - rewrite !app_assoc, rev_app_distr. reflexivity.
Qed.

(** Normalizing a canonical text returns it unchanged. *)
Lemma normalizeColorValue_canonical (d1 d2 d3 : list ascii) :
  digitText d1 -> digitText d2 -> digitText d3 ->
  normalizeColorValue (canonical d1 d2 d3) = JStr (canonical d1 d2 d3).
Proof.
  intros H1 H2 H3. unfold normalizeColorValue.
  rewrite (lower_trim_canonical d1 d2 d3 H1 H2 H3).
  assert (E1 : colorMapGet (canonical d1 d2 d3) = None) by reflexivity.
  assert (E2 : rgbaBranch (canonical d1 d2 d3) = None).
  { unfold rgbaBranch, startsWith. rewrite chars_canonical. reflexivity. }
  assert (E3 : rgbBranch (canonical d1 d2 d3) = Some (canonical d1 d2 d3)).
  { unfold rgbBranch, startsWith, exec. rewrite chars_canonical.
    change (isPrefix (chars "rgb") (chars "rgb(" ++ _)) with true.
    cbv iota.
    rewrite (search_here _ _ _ _ _ _ (rgbPattern_on_canonical d1 d2 d3 H1 H2 H3)).
    reflexivity. }
  now rewrite E1, E2, E3.
Qed.

Lemma ownProperty_values (key v : string) (m : list (string * string)) :
  ownProperty key m = Some v -> In v (map snd m).
Proof.
  induction m as [| [k w] m IH]; cbn; [discriminate|].
  destruct (String.eqb key k); [intros [= ->]; now left | right; auto].
Qed.

Lemma colorMap_values_normalized (v : string) :
  In v (map snd colorMap) -> normalizeColorValue v = JStr v.
Proof.
  cbn. intros H.
  repeat (destruct H as [<- | H]; [vm_compute; reflexivity|]).
  contradiction.
Qed.

(** The normalizer is idempotent on an input when the text that the
    hexadecimal branch gives for it, if any, is returned unchanged: the
    texts of the other branches always are. *)
Lemma normalizeColorValue_idempotent_when (x s : string) :
  normalizeColorValue x = JStr s ->
  (forall t, hexBranch (trim (toLowerCase x)) = Some t ->
             normalizeColorValue t = JStr t) ->
  normalizeColorValue s = JStr s.
Proof.
  unfold normalizeColorValue at 1. intros H Hhex.
  set (lowerColor := trim (toLowerCase x)) in *.
  destruct (colorMapGet lowerColor) as [v |] eqn:E1.
  { subst v. unfold colorMapGet in E1.
    destruct (ownProperty lowerColor colorMap) as [w |] eqn:Ew.
    - inversion E1; subst.
      exact (colorMap_values_normalized s (ownProperty_values _ _ _ Ew)).
    - destruct (String.eqb lowerColor "constructor"); [discriminate|].
      destruct (String.eqb lowerColor "__proto__"); discriminate. }
  destruct (rgbaBranch lowerColor) as [t |] eqn:E2.
  { inversion H; subst t. unfold rgbaBranch in E2.
    destruct (startsWith lowerColor "rgba"); [| discriminate].
    destruct (exec false rgbaPattern lowerColor) as [m |] eqn:Em; [| discriminate].
    inversion E2; subst s.
    destruct (exec_groups_canonical _ _ _ rgbaPattern_groups Em)
      as (d1 & d2 & d3 & H1 & H2 & H3 & ->).
    now apply normalizeColorValue_canonical. }
  destruct (rgbBranch lowerColor) as [t |] eqn:E3.
  { inversion H; subst t. unfold rgbBranch in E3.
    destruct (startsWith lowerColor "rgb"); [| discriminate].
    destruct (exec false rgbPattern lowerColor) as [m |] eqn:Em; [| discriminate].
    inversion E3; subst s.
    destruct (exec_groups_canonical _ _ _ rgbPattern_groups Em)
      as (d1 & d2 & d3 & H1 & H2 & H3 & ->).
    now apply normalizeColorValue_canonical. }
  destruct (hexBranch lowerColor) as [t |] eqn:E4.
  { inversion H; subst t. now apply Hhex. }
  inversion H; subst s.
  assert (El : trim (toLowerCase lowerColor) = lowerColor)
    by apply lower_trim_idempotent.
  unfold normalizeColorValue. cbv zeta. now rewrite El, E1, E2, E3, E4.
Qed.

(** The normalizer is idempotent on every input that does not take the
    hexadecimal branch. *)
Lemma normalizeColorValue_idempotent_outside_hex (x s : string) :
  normalizeColorValue x = JStr s ->
  hexBranch (trim (toLowerCase x)) = None ->
  normalizeColorValue s = JStr s.
Proof.
  intros H Hhex. apply (normalizeColorValue_idempotent_when x s H).
  intros t Ht. rewrite Hhex in Ht. discriminate.
Qed.

(** *** The hexadecimal branch on hexadecimal digits *)

Lemma uint_digits (d : Decimal.uint) :
  Forall (fun c => isDigit c = true) (chars (NilEmpty.string_of_uint d)).
Proof.
  induction d; cbn; constructor; auto.
Qed.

Lemma numberToString_digits (z : Z) :
  (0 <= z)%Z -> digitText (chars (numberToString (Some z))).
Proof.
  intros Hz. unfold numberToString.
  destruct z as [| p | p]; [| | lia].
  - split; [discriminate | repeat constructor].
  - cbn [Z.to_int NilZero.string_of_int NilZero.string_of_uint].
    destruct (Pos.to_uint p) eqn:E;
      try (split; [discriminate | exact (uint_digits _)]).
    split; [discriminate | repeat constructor].
Qed.

Lemma hexDigit_nonneg (c : ascii) (a : Z) : hexDigit c = Some a -> (0 <= a)%Z.
Proof.
  unfold hexDigit.
  repeat match goal with |- context [if ?b then _ else _] => destruct b end;
    intros [= <-]; lia.
Qed.

Lemma hexPrefix_pair (c1 c2 : ascii) (a b : Z) :
  hexDigit c1 = Some a -> hexDigit c2 = Some b ->
  hexPrefix None [c1; c2] = Some (16 * a + b)%Z.
Proof.
  intros H1 H2. cbn [hexPrefix]. now rewrite H1, H2.
Qed.

Lemma hexDigit_is_no_space (c : ascii) : hexDigit c <> None -> isSpace c = false.
Proof.
  destruct c as [[] [] [] [] [] [] [] []]; vm_compute; intros H;
    try reflexivity; exfalso; now apply H.
Qed.

(** Two hexadecimal digits have no blank, sign or 0x for parseInt to
    skip. *)
Lemma parseInt16_pair_digits (c1 c2 : ascii) :
  hexDigit c1 <> None -> hexDigit c2 <> None ->
  parseInt16 (str [c1; c2]) = hexPrefix None [c1; c2].
Proof.
  intros H1 H2. unfold parseInt16. rewrite chars_str.
  cbn [dropSpace]. rewrite (hexDigit_is_no_space c1 H1).
  destruct c1 as [[] [] [] [] [] [] [] []];
    try (exfalso; apply H1; reflexivity);
    cbv beta iota zeta;
    try (now destruct (hexPrefix None _)).
  destruct c2 as [[] [] [] [] [] [] [] []];
    try (exfalso; apply H2; reflexivity);
    cbv beta iota zeta; now destruct (hexPrefix None _).
Qed.

Lemma parseInt16_pair (c1 c2 : ascii) :
  hexDigit c1 <> None -> hexDigit c2 <> None ->
  exists z, parseInt16 (str [c1; c2]) = Some z /\ (0 <= z)%Z.
Proof.
  intros H1 H2. rewrite (parseInt16_pair_digits c1 c2 H1 H2).
  destruct (hexDigit c1) as [a |] eqn:E1; [| contradiction].
  destruct (hexDigit c2) as [b |] eqn:E2; [| contradiction].
  exists (16 * a + b)%Z. split; [now apply hexPrefix_pair|].
  pose proof (hexDigit_nonneg c1 a E1). pose proof (hexDigit_nonneg c2 b E2). lia.
Qed.

Lemma pair_canonical (a b c d e f : ascii) :
  hexDigits [a; b; c; d; e; f] ->
  exists d1 d2 d3,
    digitText d1 /\ digitText d2 /\ digitText d3
    /\ rgbText (numberToString (parseInt16 (str [a; b])))
         (numberToString (parseInt16 (str [c; d])))
         (numberToString (parseInt16 (str [e; f])))
       = canonical d1 d2 d3.
Proof.
  intros H.
  repeat match goal with
         | H : hexDigits (_ :: _) |- _ => inversion H; subst; clear H
         | H : Forall _ (_ :: _) |- _ => inversion H; subst; clear H
         end.
  destruct (parseInt16_pair a b) as (z1 & -> & Hz1); [assumption | assumption |].
  destruct (parseInt16_pair c d) as (z2 & -> & Hz2); [assumption | assumption |].
  destruct (parseInt16_pair e f) as (z3 & -> & Hz3); [assumption | assumption |].
  exists (chars (numberToString (Some z1))), (chars (numberToString (Some z2))),
    (chars (numberToString (Some z3))).
  repeat (split; [now apply numberToString_digits|]).
  unfold canonical. now rewrite !str_chars.
Qed.

(** On hexadecimal digits the hexadecimal branch gives a canonical text. *)
Lemma hexBranch_on_digits (lowerColor t : string) :
  hexBranch lowerColor = Some t ->
  hexDigits (removeFirst "#" (chars lowerColor)) ->
  exists d1 d2 d3,
    digitText d1 /\ digitText d2 /\ digitText d3 /\ t = canonical d1 d2 d3.
Proof.
  unfold hexBranch. destruct (startsWith lowerColor "#"); [| discriminate].
  set (hex := removeFirst "#" (chars lowerColor)). intros H Hd.
  destruct hex as [| a [| b [| c [| d [| e [| f [| g hex]]]]]]];
    try discriminate H.
  - cbn in H. inversion H; subst t.
    apply (pair_canonical a a b b c c).
    inversion Hd as [| ? ? Ha Hd1]; subst. inversion Hd1 as [| ? ? Hb Hd2]; subst.
    inversion Hd2 as [| ? ? Hc _]; subst. repeat constructor; assumption.
  - cbn in H. inversion H; subst t. now apply (pair_canonical a b c d e f).
Qed.

(** The normalizer is idempotent on every input but those that put
    something else than hexadecimal digits behind the sign #. *)
Lemma normalizeColorValue_idempotent_on_hex_digits (x s : string) :
  normalizeColorValue x = JStr s ->
  (startsWith (trim (toLowerCase x)) "#" = true ->
   hexDigits (removeFirst "#" (chars (trim (toLowerCase x))))) ->
  normalizeColorValue s = JStr s.
Proof.
  intros H Hd. apply (normalizeColorValue_idempotent_when x s H).
  intros t Ht.
  assert (Hs : startsWith (trim (toLowerCase x)) "#" = true).
  { unfold hexBranch in Ht.
    destruct (startsWith (trim (toLowerCase x)) "#"); [reflexivity | discriminate]. }
  destruct (hexBranch_on_digits _ _ Ht (Hd Hs)) as (d1 & d2 & d3 & H1 & H2 & H3 & ->).
  now apply normalizeColorValue_canonical.
Qed.

Section Session.
Context {World Browser Page Element : Type}.
Variable P : Puppeteer World Browser Page Element.

(** *** The trace grows, and only runTests closes the browser *)

Lemma quiet_ret {A} (a : A) : quiet (ret (World := World) a).
Proof.
  intros st. exists []. cbn. now rewrite app_nil_r.
Qed.

Lemma quiet_throw {A} (e : JsError) : quiet (throw (World := World) (A := A) e).
Proof.
  intros st. exists []. cbn. now rewrite app_nil_r.
Qed.

Lemma quiet_bind {A B} (m : M World A) (f : A -> M World B) :
  quiet m -> (forall a, quiet (f a)) -> quiet (bind m f).
Proof.
  intros Hm Hf st. unfold bind.
  destruct (Hm st) as [tr1 [E1 C1]].
  destruct (m st) as [[a | e] st1]; cbn in E1.
  - destruct (Hf a st1) as [tr2 [E2 C2]].
    exists (tr1 ++ tr2). rewrite E2, E1, app_assoc, closeCount_app.
    split; [reflexivity | lia].
  - exists tr1. cbn. auto.
Qed.

Lemma quiet_tryCatch {A} (m : M World A) (h : JsError -> M World A) :
  quiet m -> (forall e, quiet (h e)) -> quiet (tryCatch m h).
Proof.
  intros Hm Hh st. unfold tryCatch.
  destruct (Hm st) as [tr1 [E1 C1]].
  destruct (m st) as [[a | e] st1]; cbn in E1.
  - exists tr1. cbn. auto.
  - destruct (Hh e st1) as [tr2 [E2 C2]].
    exists (tr1 ++ tr2). rewrite E2, E1, app_assoc, closeCount_app.
    split; [reflexivity | lia].
Qed.

Lemma quiet_call {A} (ev : event) (f : World -> outcome A * World) :
  isClose ev = false -> quiet (call ev f).
Proof.
  intros Hev st. exists [ev]. unfold call.
  destruct (f (world st)) as [r w]. cbn. split; [reflexivity|].
  unfold closeCount. cbn. now rewrite Hev.
Qed.

Lemma quiet_sleep (ms : nat) : quiet (sleep P ms).
Proof.
  intros st. exists [Pause ms]. cbn. auto.
Qed.

Ltac quiet_steps :=
  repeat first
    [ apply quiet_ret | apply quiet_sleep
    | apply quiet_call; reflexivity
    | apply quiet_bind; [| intros ?]
    | apply quiet_tryCatch; [| intros ?]
    | match goal with |- quiet (match ?x with _ => _ end) => destruct x end ].

Lemma quiet_dispatch (page : Page) (sc : TestScenario) :
  quiet (dispatch P page sc).
Proof.
  unfold dispatch.
  repeat match goal with
         | |- quiet (if ?c then _ else _) => destruct c
         end;
    unfold checkStyle, doClick, checkText, checkVisibility, doNavigate,
      doHover, fillInput; quiet_steps.
Qed.

Lemma quiet_executeScenario (page : Page) (sc : TestScenario) :
  quiet (executeScenario P page sc).
Proof.
  unfold executeScenario. apply quiet_tryCatch.
  - apply quiet_dispatch.
  - intros e. apply quiet_ret.
Qed.

Lemma quiet_forEachScenario (page : Page) (scenarios : list TestScenario) :
  forall results, quiet (forEachScenario P page scenarios results).
Proof.
  induction scenarios as [| sc rest IH]; intros results; cbn.
  - apply quiet_ret.
  - apply quiet_bind; [apply quiet_executeScenario | intros r].
    apply quiet_bind; [apply quiet_sleep | intros _]. apply IH.
Qed.

Lemma quiet_withBrowser (b : Browser) (url : string)
    (scenarios : list TestScenario) :
  quiet (withBrowser P b url scenarios).
Proof.
  unfold withBrowser. quiet_steps. apply quiet_forEachScenario.
Qed.

(** *** One result per scenario *)

Lemma about_ret (sc : TestScenario) (r : TestResult) :
  scenario r = sc -> about sc (ret (World := World) r).
Proof.
  intros H st r' st' E. inversion E. now subst.
Qed.

Lemma about_bind {A} (sc : TestScenario) (m : M World A)
    (f : A -> M World TestResult) :
  (forall a, about sc (f a)) -> about sc (bind m f).
Proof.
  intros Hf st r st' E. unfold bind in E.
  destruct (m st) as [[a | e] st1]; [| discriminate].
  exact (Hf a st1 r st' E).
Qed.

Ltac about_steps :=
  repeat first
    [ apply about_ret; reflexivity
    | apply about_bind; intros ?
    | match goal with |- about _ (match ?x with _ => _ end) => destruct x end ].

Lemma about_dispatch (page : Page) (sc : TestScenario) :
  about sc (dispatch P page sc).
Proof.
  unfold dispatch.
  repeat match goal with
         | |- about _ (if ?c then _ else _) => destruct c
         end;
    unfold checkStyle, doClick, checkText, checkVisibility, doNavigate,
      doHover, fillInput; about_steps.
Qed.

(** executeScenario always returns, with a result about its scenario:
    what the handler throws ends in the catch clause. *)
Lemma executeScenario_returns (page : Page) (sc : TestScenario)
    (st : state World) :
  exists r st',
    executeScenario P page sc st = (Returned r, st') /\ scenario r = sc.
Proof.
  unfold executeScenario, tryCatch.
  destruct (dispatch P page sc st) as [[r | e] st1] eqn:E.
  - exists r, st1. split; [reflexivity|]. exact (about_dispatch page sc st r st1 E).
  - exists (failed sc (message e)), st1. split; reflexivity.
Qed.

Lemma forEachScenario_returns (page : Page) (scenarios : list TestScenario) :
  forall results st, exists out st',
    forEachScenario P page scenarios results st
      = (Returned (results ++ out), st')
    /\ map scenario out = scenarios.
Proof.
  induction scenarios as [| sc rest IH]; intros results st; cbn.
  - exists [], st. now rewrite app_nil_r.
  - unfold bind at 1.
    destruct (executeScenario_returns page sc st) as [r [st1 [E Hr]]].
    rewrite E. unfold bind at 1. cbn.
    destruct (IH (results ++ [r])
                {| world := elapse P 500 (world st1);
                   calls := calls st1 ++ [Pause 500] |})
      as [out [st2 [E2 Hout]]].
    exists (r :: out), st2. rewrite E2, <- app_assoc. cbn.
    now rewrite Hr, Hout.
Qed.


(** *** The shape of a run *)

Lemma forEachScenario_step (page : Page) (sc : TestScenario)
    (rest : list TestScenario) (results : list TestResult)
    (st st1 : state World) (r : TestResult) :
  executeScenario P page sc st = (Returned r, st1) ->
  forEachScenario P page (sc :: rest) results st
    = forEachScenario P page rest (results ++ [r]) (paused P 500 st1).
Proof.
  intros E. cbn. unfold bind at 1. rewrite E. reflexivity.
Qed.

(** The loop executes every scenario with executeScenario, in order, each
    on the state that the one before and its pause have left, and keeps
    what it gives. *)
Lemma forEachScenario_processed (page : Page) (scenarios : list TestScenario) :
  forall results st, exists out st',
    forEachScenario P page scenarios results st
      = (Returned (results ++ out), st')
    /\ processed P page scenarios st out st'
    /\ map scenario out = scenarios.
Proof.
  induction scenarios as [| sc rest IH]; intros results st.
  - exists [], st. cbn. rewrite app_nil_r.
    split; [reflexivity|]. split; [constructor | reflexivity].
  - destruct (executeScenario_returns page sc st) as [r [st1 [E Hr]]].
    rewrite (forEachScenario_step page sc rest results st st1 r E).
    destruct (IH (results ++ [r]) (paused P 500 st1))
      as [out [st2 [E2 [Hp Hout]]]].
    exists (r :: out), st2. rewrite E2, <- app_assoc.
    split; [reflexivity|]. split.
    + exact (ProcessedNext P page sc rest st r st1 out st2 E Hp).
    + cbn. now rewrite Hr, Hout.
Qed.

Lemma withBrowser_results (b : Browser) (url : string)
    (scenarios : list TestScenario) (st st' : state World)
    (results : list TestResult) :
  withBrowser P b url scenarios st = (Returned results, st') ->
  map scenario results = scenarios.
Proof.
  unfold withBrowser, bind, call, sleep. intros E.
  destruct (newPage P b (world st)) as [[page | e] w1]; [| discriminate].
  cbn in E.
  destruct (setViewport P page 1920 1080 w1) as [[[] | e] w2]; [| discriminate].
  cbn in E.
  destruct (goto P page url w2) as [[[] | e] w3]; [| discriminate].
  cbn in E.
  match type of E with
  | forEachScenario P page scenarios [] ?s = _ =>
      destruct (forEachScenario_returns page scenarios [] s)
        as [out [st2 [E2 Hout]]]
  end.
  rewrite E2 in E. inversion E. now subst.
Qed.

(** runTests when the launch has returned a browser: the try block is
    withBrowser, and the browser is closed after it. *)
Lemma runTests_launched (url : string) (scenarios : list TestScenario)
    (st : state World) (b : Browser) (w : World) :
  launch P (world st) = (Returned b, w) ->
  runTests P url scenarios st =
    let (r, st2) :=
      withBrowser P b url scenarios
        {| world := w; calls := calls st ++ [CallLaunch] |} in
    match call CallClose (close P b) st2 with
    | (Returned _, st3) =>
        (match r with
         | Returned results => Returned results
         | Thrown e => Thrown (automationFailed e)
         end, st3)
    | (Thrown e, st3) => (Thrown e, st3)
    end.
Proof.
  intros L. unfold runTests, tryBlock, launchBrowser. unfold call at 1. rewrite L.
  destruct (withBrowser P b url scenarios _) as [r st2]. reflexivity.
Qed.

Lemma runTests_not_launched (url : string) (scenarios : list TestScenario)
    (st : state World) (e : JsError) (w : World) :
  launch P (world st) = (Thrown e, w) ->
  runTests P url scenarios st =
    (Thrown (automationFailed e),
     {| world := w; calls := calls st ++ [CallLaunch] |}).
Proof.
  intros L. unfold runTests, tryBlock, launchBrowser. unfold call at 1. rewrite L.
  reflexivity.
Qed.

Lemma runTests_results (url : string) (scenarios : list TestScenario)
    (st st' : state World) (results : list TestResult) :
  runTests P url scenarios st = (Returned results, st') ->
  map scenario results = scenarios.
Proof.
  intros E.
  destruct (launch P (world st)) as [[b | e] w] eqn:L.
  - rewrite (runTests_launched url scenarios st b w L) in E.
    destruct (withBrowser P b url scenarios _) as [r st2] eqn:W.
    destruct (call CallClose (close P b) st2) as [[[] | e] st3];
      [| discriminate].
    destruct r as [rs | e]; [| discriminate].
    inversion E; subst. exact (withBrowser_results _ _ _ _ _ _ W).
  - rewrite (runTests_not_launched url scenarios st e w L) in E.
    discriminate.
Qed.

Lemma supported_false (a : string) :
  supported a = false ->
  String.eqb a "check_style" = false /\ String.eqb a "click" = false
  /\ String.eqb a "check_text" = false
  /\ String.eqb a "check_visibility" = false
  /\ String.eqb a "navigate" = false /\ String.eqb a "hover" = false
  /\ String.eqb a "fill_input" = false.
Proof.
  unfold supported, supportedActions. cbn [existsb].
  rewrite !orb_false_iff. tauto.
Qed.

Lemma dispatch_unsupported (page : Page) (sc : TestScenario) :
  supported (toLowerCase (action sc)) = false ->
  dispatch P page sc
    = ret (failed sc ("Unknown action: " ++ action sc)%string).
Proof.
  intros H. apply supported_false in H.
  destruct H as (H1 & H2 & H3 & H4 & H5 & H6 & H7).
  unfold dispatch. now rewrite H1, H2, H3, H4, H5, H6, H7.
Qed.


Lemma replace_without_match (ic : bool) (r : regex) (e : string) :
  exec ic r e = None -> replaceWithGroup1 ic r e = e.
Proof.
  intros H. unfold replaceWithGroup1. now rewrite H.
Qed.

Lemma localFailure_dispatch (page : Page) (sc : TestScenario)
    (st : state World) (msg : string) :
  localFailure P page sc st msg ->
  exists st1,
    executeScenario P page sc st = (Returned (failed sc msg), st1).
Proof.
  intros [w Ha Hq | Ha | el w Ha Hq Hp | e st' Hd];
    unfold executeScenario, tryCatch.
  - assert (Hdisp : dispatch P page sc st
                    = (Returned (notFound sc),
                       {| world := w;
                          calls := calls st ++ [CallQuery (target sc)] |})).
    { unfold needsElement in Ha. apply existsb_exists in Ha.
      destruct Ha as [a [Hin Ha]]. apply String.eqb_eq in Ha.
      unfold dispatch. rewrite Ha.
      cbn in Hin.
      repeat (destruct Hin as [<- | Hin];
              [cbn [String.eqb Ascii.eqb Bool.eqb];
               unfold checkStyle, doClick, checkText, doHover, fillInput,
                 bind, call;
               rewrite Hq; reflexivity |]).
      contradiction. }
    rewrite Hdisp. eexists. reflexivity.
  - rewrite (dispatch_unsupported page sc Ha). cbn. eexists. reflexivity.
  - unfold dispatch. rewrite Ha. cbn [String.eqb Ascii.eqb Bool.eqb].
    unfold checkStyle, bind, call. rewrite Hq, Hp. cbn. eexists. reflexivity.
  - rewrite Hd. cbn. eexists. reflexivity.
Qed.

(** C1: a run of runTests that returns gives one result per input
    scenario, and the result at index i is about the i-th scenario. *)
Theorem runTests_preserves_scenarios (portalUrl : string)
    (scenarios : list TestScenario) (st st' : state World)
    (results : list TestResult) :
  runTests P portalUrl scenarios st = (Returned results, st') ->
  List.length results = List.length scenarios
  /\ forall i, option_map scenario (nth_error results i)
               = nth_error scenarios i.
Proof.
  intros E. apply runTests_results in E. subst scenarios. split.
  - now rewrite length_map.
  - intros i. now rewrite nth_error_map.
Qed.

(** C10: a scenario whose action, in lower case, is none of the seven
    of the switch gets a failed result whose error names the action as
    it was written; nothing is asked of the page, and the loop goes on:
    after its pause every later scenario is executed by executeScenario,
    in order, and its result kept. *)
Theorem unsupported_action_fails_and_run_continues (page : Page)
    (sc : TestScenario) (rest : list TestScenario)
    (results : list TestResult) (st : state World) :
  supported (toLowerCase (action sc)) = false ->
  let unknown := failed sc ("Unknown action: " ++ action sc)%string in
  executeScenario P page sc st = (Returned unknown, st)
  /\ passed unknown = false
  /\ (exists msg, error unknown = Some msg /\ includes msg (action sc) = true)
  /\ exists out st',
       forEachScenario P page (sc :: rest) results st
         = (Returned (results ++ unknown :: out), st')
       /\ processed P page rest (paused P 500 st) out st'
       /\ map scenario out = rest.
Proof.
  intros H unknown.
  assert (E : executeScenario P page sc st = (Returned unknown, st)).
  { unfold executeScenario, tryCatch.
    now rewrite (dispatch_unsupported page sc H). }
  split; [exact E|]. split; [reflexivity|]. split.
  - eexists. split; [reflexivity|]. apply includes_suffix.
  - rewrite (forEachScenario_step page sc rest results st st unknown E).
    destruct (forEachScenario_processed page rest (results ++ [unknown])
                (paused P 500 st)) as [out [st' [E2 [Hp Hout]]]].
    exists out, st'. rewrite E2, <- app_assoc. auto.
Qed.

(** C3, as the code has it: a failure local to a scenario that the code
    detects (the target of a handler that needs it is not found, the
    action is unsupported, the expectation of check_style does not match
    its pattern, something is thrown while the handler runs) becomes a
    failed result with its diagnostic for that scenario; the loop goes
    on: after the pause every later scenario is executed by
    executeScenario, in order, and its result kept.  In particular, when
    B and C pass after a failing A, the results of [A; B; C] are fail,
    pass, pass.  An expectation of check_text, fill_input or navigate
    that does not match its pattern is not detected: the replacement
    gives it back unchanged, for the handler to use as the value. *)
Theorem local_failure_is_recovered_and_run_continues (page : Page)
    (sc : TestScenario) (rest : list TestScenario)
    (results : list TestResult) (st : state World) (msg : string) :
  localFailure P page sc st msg ->
  (exists st1,
     executeScenario P page sc st = (Returned (failed sc msg), st1)
     /\ forEachScenario P page (sc :: rest) results st
          = forEachScenario P page rest (results ++ [failed sc msg])
              (paused P 500 st1)
     /\ (exists out st',
           forEachScenario P page (sc :: rest) results st
             = (Returned (results ++ failed sc msg :: out), st')
           /\ processed P page rest (paused P 500 st1) out st'
           /\ map scenario out = rest)
     /\ forall B C rB rC stB stC,
          executeScenario P page B (paused P 500 st1) = (Returned rB, stB) ->
          passed rB = true ->
          executeScenario P page C (paused P 500 stB) = (Returned rC, stC) ->
          passed rC = true ->
          forEachScenario P page [sc; B; C] [] st
            = (Returned [failed sc msg; rB; rC], paused P 500 stC)
          /\ map passed [failed sc msg; rB; rC] = [false; true; true])
  /\ (forall e, exec true textPattern e = None -> extractText e = e)
  /\ (forall e, exec true fillPattern e = None -> extractFill e = e)
  /\ (forall e, exec true navigatePattern e = None -> extractUrl e = e).
Proof.
  intros F. split.
  - destruct (localFailure_dispatch page sc st msg F) as [st1 E].
    exists st1. split; [exact E|].
    pose proof (forEachScenario_step page sc rest results st st1 _ E) as S1.
    split; [exact S1|]. split.
    + rewrite S1.
      destruct (forEachScenario_processed page rest (results ++ [failed sc msg])
                  (paused P 500 st1)) as [out [st' [E2 [Hp Hout]]]].
      exists out, st'. rewrite E2, <- app_assoc. auto.
    + intros B C rB rC stB stC EB HB EC HC.
      rewrite (forEachScenario_step page sc [B; C] [] st st1 _ E).
      rewrite (forEachScenario_step page B [C] _ _ stB _ EB).
      rewrite (forEachScenario_step page C [] _ _ stC _ EC).
      cbn. now rewrite HB, HC.
  - repeat split; intros e H; apply replace_without_match; exact H.
Qed.


Lemma strictEq_true (a b : jsval) : strictEq a b = true <-> a = b.
Proof.
  destruct a as [x | |], b as [y | |]; cbn;
    try (split; [discriminate | intros H; discriminate H]);
    try (split; reflexivity).
  rewrite String.eqb_eq. split; [now intros -> | now intros [= ->]].
Qed.

Lemma dispatch_action (page : Page) (sc : TestScenario) (a : string) :
  toLowerCase (action sc) = a ->
  dispatch P page sc =
    if String.eqb a "check_style" then checkStyle P page sc
    else if String.eqb a "click" then doClick P page sc
    else if String.eqb a "check_text" then checkText P page sc
    else if String.eqb a "check_visibility" then checkVisibility P page sc
    else if String.eqb a "navigate" then doNavigate P page sc
    else if String.eqb a "hover" then doHover P page sc
    else if String.eqb a "fill_input" then fillInput P page sc
    else ret (failed sc ("Unknown action: " ++ action sc)%string).
Proof.
  intros <-. reflexivity.
Qed.

(** What check_style gives when the target resolves, the expectation
    parses and the computed style is read. *)
Lemma executeScenario_check_style (page : Page) (sc : TestScenario)
    (st : state World) (el : Element) (w w' : World)
    (property expectedValue actual : string) :
  toLowerCase (action sc) = "check_style" ->
  querySelector P page (target sc) (world st) = (Returned (Some el), w) ->
  parseStyle (expectedResult sc) = Some (property, expectedValue) ->
  computedStyle P page el (trim property) w = (Returned actual, w') ->
  executeScenario P page sc st =
    (Returned
       (checked sc
          (strictEq (normalizeColorValue (trim actual))
             (normalizeColorValue (trim expectedValue)))
          (trim actual)
          ("Expected " ++ property ++ " to be " ++ quoted expectedValue
           ++ ", but got " ++ quoted actual)%string),
     {| world := w';
        calls := (calls st ++ [CallQuery (target sc)])
                 ++ [CallComputedStyle (trim property)] |}).
Proof.
  intros Ha Hq Hp Hs. unfold executeScenario, tryCatch.
  rewrite (dispatch_action page sc _ Ha). cbn [String.eqb Ascii.eqb Bool.eqb].
  unfold checkStyle, bind, call. rewrite Hq, Hp. cbn. rewrite Hs. reflexivity.
Qed.

Lemma executeScenario_check_text (page : Page) (sc : TestScenario)
    (st : state World) (el : Element) (w w' : World)
    (actualText : option string) :
  toLowerCase (action sc) = "check_text" ->
  querySelector P page (target sc) (world st) = (Returned (Some el), w) ->
  textContent P page el w = (Returned actualText, w') ->
  let expectedText := extractText (expectedResult sc) in
  executeScenario P page sc st =
    (Returned
       (checked sc
          (match actualText with
           | Some t => includes t expectedText || String.eqb t expectedText
           | None => false
           end)
          (match actualText with Some t => t | None => EmptyString end)
          ("Expected text to contain " ++ quoted expectedText
           ++ ", but got " ++ quoted (showNullable actualText))%string),
     {| world := w';
        calls := (calls st ++ [CallQuery (target sc)]) ++ [CallTextContent] |}).
Proof.
  intros Ha Hq Ht. unfold executeScenario, tryCatch.
  rewrite (dispatch_action page sc _ Ha). cbn [String.eqb Ascii.eqb Bool.eqb].
  unfold checkText, bind, call. rewrite Hq. cbn. rewrite Ht. reflexivity.
Qed.



(** The try block and the catch clause of runTests, once the session
    is set up: the loop returns, so nothing is left to catch. *)
Lemma withBrowser_after_setup (url : string) (scenarios : list TestScenario)
    (st : state World) (b : Browser) (w : World) :
  launch P (world st) = (Returned b, w) ->
  let st0 := {| world := w; calls := calls st ++ [CallLaunch] |} in
  match sessionSetup P url st with
  | (Thrown e, _) => fst (withBrowser P b url scenarios st0) = Thrown e
  | (Returned _, _) =>
      exists results,
        fst (withBrowser P b url scenarios st0) = Returned results
        /\ List.length results = List.length scenarios
  end.
Proof.
  intros L st0. unfold sessionSetup, withBrowser, launchBrowser, bind.
  unfold call at 1. rewrite L. fold st0. unfold call, sleep.
  destruct (newPage P b (world st0)) as [[page | e] w1]; [| reflexivity].
  cbn.
  destruct (setViewport P page 1920 1080 w1) as [[[] | e] w2]; [| reflexivity].
  cbn.
  destruct (goto P page url w2) as [[[] | e] w3]; [| reflexivity].
  cbn.
  match goal with
  | |- context [forEachScenario P page scenarios [] ?s] =>
      destruct (forEachScenario_returns page scenarios [] s)
        as [out [st2 [E2 Hout]]]
  end.
  rewrite E2. exists out. split; [reflexivity|].
  now rewrite <- Hout, length_map.
Qed.


(** C5: for a check_style scenario whose target resolves, the pair
    (property, expectedValue) is what the pattern extracts, which for
    an expectation written as property, should, be, value (the two
    words in any letter case) is that property and that value; the
    computed style of the trimmed property is read; the scenario passes
    exactly when the normalized actual and expected values are equal,
    and the result carries the trimmed actual value. *)
Theorem check_style_compares_normalized_values (page : Page)
    (sc : TestScenario) (st : state World) (el : Element) (w w' : World)
    (property expectedValue actual : string) :
  toLowerCase (action sc) = "check_style" ->
  querySelector P page (target sc) (world st) = (Returned (Some el), w) ->
  parseStyle (expectedResult sc) = Some (property, expectedValue) ->
  computedStyle P page el (trim property) w = (Returned actual, w') ->
  (exists r st',
     executeScenario P page sc st = (Returned r, st')
     /\ scenario r = sc
     /\ (passed r = true <->
          normalizeColorValue (trim actual)
            = normalizeColorValue (trim expectedValue))
     /\ actualValue r = Some (trim actual)
     /\ calls st' = calls st ++ [CallQuery (target sc);
                                  CallComputedStyle (trim property)])
  /\ forall p ws1 sh ws2 be ws3 v,
       propertyName p -> blanks ws1 -> spelled "should" sh -> blanks ws2 ->
       spelled "be" be -> blanks ws3 -> valueText v ->
       expectedResult sc = str (p ++ ws1 ++ sh ++ ws2 ++ be ++ ws3 ++ v) ->
       property = str p /\ expectedValue = str v.
Proof.
  intros Ha Hq Hp Hs. split.
  - eexists. eexists. split.
    + exact (executeScenario_check_style page sc st el w w' _ _ _ Ha Hq Hp Hs).
    + cbn. split; [reflexivity|]. split; [apply strictEq_true|].
      split; [reflexivity|]. now rewrite <- app_assoc.
  - intros p ws1 sh ws2 be ws3 v H1 H2 H3 H4 H5 H6 H7 E.
    rewrite E, (parseStyle_on_grammar p ws1 sh ws2 be ws3 v) in Hp by assumption.
    now inversion Hp.
Qed.


(** C4, as the code has it: a failure while the session is set up
    (launch, new page, viewport, first load) aborts the run: it returns
    no results and throws one error, which is the error of runTests
    about the failure or, when the browser was launched and its close
    throws as well, the error of the close.  Once the session is set up
    nothing that the page operations do, throwing included, aborts the
    run: what a handler throws is caught and becomes a failed result
    with the message thrown, and the run returns one result per
    scenario, unless the close of the browser throws, which the run then
    throws. *)
Theorem runTests_aborts_only_on_setup_failure (portalUrl : string)
    (scenarios : list TestScenario) (st : state World) :
  let out := runTests P portalUrl scenarios st in
  match sessionSetup P portalUrl st with
  | (Thrown e, _) =>
      (forall results, fst out <> Returned results)
      /\ match launch P (world st) with
         | (Thrown _, _) => fst out = Thrown (automationFailed e)
         | (Returned b, w) =>
             let tried :=
               withBrowser P b portalUrl scenarios
                 {| world := w; calls := calls st ++ [CallLaunch] |} in
             fst out
             = match fst (close P b (world (snd tried))) with
               | Returned _ => Thrown (automationFailed e)
               | Thrown e' => Thrown e'
               end
         end
  | (Returned (b, _), _) =>
      exists w results,
        launch P (world st) = (Returned b, w)
        /\ let tried :=
             withBrowser P b portalUrl scenarios
               {| world := w; calls := calls st ++ [CallLaunch] |} in
           fst tried = Returned results
           /\ List.length results = List.length scenarios
           /\ fst out
              = match fst (close P b (world (snd tried))) with
                | Returned _ => Returned results
                | Thrown e' => Thrown e'
                end
  end
  /\ forall page sc st0 e st1,
       dispatch P page sc st0 = (Thrown e, st1) ->
       executeScenario P page sc st0 = (Returned (failed sc (message e)), st1).
Proof.
  intros out. split.
  - destruct (launch P (world st)) as [[b | e] w] eqn:L.
    + pose proof (withBrowser_after_setup portalUrl scenarios st b w L) as H.
      cbv zeta in H.
      assert (O : fst out
                  = match
                      fst (close P b
                             (world (snd (withBrowser P b portalUrl scenarios
                                {| world := w;
                                   calls := calls st ++ [CallLaunch] |}))))
                    with
                    | Returned _ =>
                        match
                          fst (withBrowser P b portalUrl scenarios
                                 {| world := w;
                                    calls := calls st ++ [CallLaunch] |})
                        with
                        | Returned results => Returned results
                        | Thrown e => Thrown (automationFailed e)
                        end
                    | Thrown e' => Thrown e'
                    end).
      { unfold out. rewrite (runTests_launched portalUrl scenarios st b w L).
        destruct (withBrowser P b portalUrl scenarios _) as [r st2].
        unfold call. cbn [fst snd].
        destruct (close P b (world st2)) as [[[] | e'] w3]; reflexivity. }
      destruct (sessionSetup P portalUrl st) as [[[b' pg] | e] st1] eqn:S.
      * assert (b' = b) as ->.
        { unfold sessionSetup, launchBrowser, bind in S. unfold call at 1 in S.
          rewrite L in S. unfold call in S. cbn [world calls] in S.
          destruct (newPage P b w) as [[pg0 | e0] w1]; [| discriminate].
          cbn [world calls] in S.
          destruct (setViewport P pg0 1920 1080 w1) as [[[] | e0] w2];
            [| discriminate].
          cbn [world calls] in S.
          destruct (goto P pg0 portalUrl w2) as [[[] | e0] w3];
            [| discriminate].
          now inversion S. }
        destruct H as [results [Hr Hlen]].
        exists w, results. split; [reflexivity|]. cbv zeta.
        split; [exact Hr|]. split; [exact Hlen|].
        rewrite O, Hr. reflexivity.
      * cbv zeta. rewrite O, H. split; [| reflexivity].
        intros results.
        destruct (fst (close P b _)) as [[] | e']; discriminate.
    + unfold out. rewrite (runTests_not_launched portalUrl scenarios st e w L).
      unfold sessionSetup, launchBrowser, bind. unfold call at 1. rewrite L.
      cbn [fst]. split; [intros results; discriminate | reflexivity].
  - intros page sc st0 e st1 D. unfold executeScenario, tryCatch.
    rewrite D. reflexivity.
Qed.

End Session.

(** *** The close of the browser, counted *)

Section Release.
Context {World Browser Page Element : Type}.
Variable P : Puppeteer World Browser Page Element.

Lemma uncounted_ret {A} (a : A) :
  uncounted (World := World) (ret a) (ret a).
Proof.
  intros n st. reflexivity.
Qed.

Lemma uncounted_bind {A B} (m' : M (World * nat) A) (m : M World A)
    (f' : A -> M (World * nat) B) (f : A -> M World B) :
  uncounted m' m -> (forall a, uncounted (f' a) (f a)) ->
  uncounted (bind m' f') (bind m f).
Proof.
  intros Hm Hf n st. unfold bind. rewrite (Hm n st).
  destruct (m st) as [[a | e] st1]; cbn [fst snd]; [apply Hf | reflexivity].
Qed.

Lemma uncounted_tryCatch {A} (m' : M (World * nat) A) (m : M World A)
    (h' : JsError -> M (World * nat) A) (h : JsError -> M World A) :
  uncounted m' m -> (forall e, uncounted (h' e) (h e)) ->
  uncounted (tryCatch m' h') (tryCatch m h).
Proof.
  intros Hm Hh n st. unfold tryCatch. rewrite (Hm n st).
  destruct (m st) as [[a | e] st1]; cbn [fst snd]; [reflexivity | apply Hh].
Qed.

Lemma uncounted_call {A} (ev : event) (f : World -> outcome A * World) :
  uncounted (call ev (onWorld f)) (call ev f).
Proof.
  intros n st. unfold call, onWorld, counted. cbn [world calls fst snd].
  destruct (f (world st)) as [r w]. reflexivity.
Qed.

Lemma uncounted_sleep (ms : nat) :
  uncounted (sleep (countingCloses P) ms) (sleep P ms).
Proof.
  intros n st. reflexivity.
Qed.

Ltac uncounted_steps :=
  repeat first
    [ apply uncounted_ret | apply uncounted_sleep
    | apply uncounted_call
    | apply uncounted_bind; [| intros ?]
    | match goal with
      | |- uncounted (match ?x with _ => _ end) _ => destruct x
      end ].

Lemma uncounted_dispatch (page : Page) (sc : TestScenario) :
  uncounted (dispatch (countingCloses P) page sc) (dispatch P page sc).
Proof.
  unfold dispatch.
  repeat match goal with
         | |- uncounted (if ?c then _ else _) _ => destruct c
         end;
    unfold checkStyle, doClick, checkText, checkVisibility, doNavigate,
      doHover, fillInput;
    cbn [countingCloses goto querySelector computedStyle textContent click
           hover type];
    uncounted_steps.
Qed.

Lemma uncounted_executeScenario (page : Page) (sc : TestScenario) :
  uncounted (executeScenario (countingCloses P) page sc)
    (executeScenario P page sc).
Proof.
  unfold executeScenario. apply uncounted_tryCatch.
  - apply uncounted_dispatch.
  - intros e. apply uncounted_ret.
Qed.

Lemma uncounted_forEachScenario (page : Page) (scenarios : list TestScenario) :
  forall results,
    uncounted (forEachScenario (countingCloses P) page scenarios results)
      (forEachScenario P page scenarios results).
Proof.
  induction scenarios as [| sc rest IH]; intros results; cbn [forEachScenario].
  - apply uncounted_ret.
  - apply uncounted_bind; [apply uncounted_executeScenario | intros r].
    apply uncounted_bind; [apply uncounted_sleep | intros _]. apply IH.
Qed.

Lemma uncounted_withBrowser (b : Browser) (url : string)
    (scenarios : list TestScenario) :
  uncounted (withBrowser (countingCloses P) b url scenarios)
    (withBrowser P b url scenarios).
Proof.
  unfold withBrowser.
  cbn [countingCloses newPage setViewport goto].
  apply uncounted_bind; [apply uncounted_call | intros page].
  apply uncounted_bind; [apply uncounted_call | intros _].
  apply uncounted_bind; [apply uncounted_call | intros _].
  apply uncounted_bind; [apply uncounted_sleep | intros _].
  apply uncounted_forEachScenario.
Qed.

(** C2: when the launch has returned a browser, runTests closes it
    exactly once, on every way out.  The close is carried out on the
    browser that was launched, in the world that the try block has left,
    whether that block gave results or threw, and the run ends in the
    world that the close leaves; it is the last call of the run and the
    only close among them.  In a world that counts the closes carried
    out, the run does what it does and the counter goes up by one. *)
Theorem runTests_closes_browser_once (portalUrl : string)
    (scenarios : list TestScenario) (st : state World) (b : Browser)
    (w : World) :
  launch P (world st) = (Returned b, w) ->
  let tried :=
    withBrowser P b portalUrl scenarios
      {| world := w; calls := calls st ++ [CallLaunch] |} in
  let closed := close P b (world (snd tried)) in
  let out := runTests P portalUrl scenarios st in
  world (snd out) = snd closed
  /\ fst out
     = match fst closed with
       | Returned _ =>
           match fst tried with
           | Returned results => Returned results
           | Thrown e => Thrown (automationFailed e)
           end
       | Thrown e => Thrown e
       end
  /\ (exists before,
        calls (snd tried) = calls st ++ before
        /\ calls (snd out) = calls st ++ before ++ [CallClose]
        /\ closeCount before = 0
        /\ closeCount (before ++ [CallClose]) = 1)
  /\ forall n,
       runTests (countingCloses P) portalUrl scenarios (counted n st)
       = (fst out, counted (S n) (snd out)).
Proof.
  intros L tried closed out.
  assert (O : out
              = (match fst closed with
                 | Returned _ =>
                     match fst tried with
                     | Returned results => Returned results
                     | Thrown e => Thrown (automationFailed e)
                     end
                 | Thrown e => Thrown e
                 end,
                 {| world := snd closed;
                    calls := calls (snd tried) ++ [CallClose] |})).
  { unfold out, closed, tried.
    rewrite (runTests_launched P portalUrl scenarios st b w L).
    destruct (withBrowser P b portalUrl scenarios _) as [r st2].
    unfold call. cbn [fst snd].
    destruct (close P b (world st2)) as [[[] | e] w3]; reflexivity. }
  split; [rewrite O; reflexivity|]. split; [rewrite O; reflexivity|]. split.
  - destruct (quiet_withBrowser P b portalUrl scenarios
                {| world := w; calls := calls st ++ [CallLaunch] |})
      as [tr [E C]].
    fold tried in E. cbn [calls] in E.
    assert (C1 : closeCount (CallLaunch :: tr) = 0) by exact C.
    exists (CallLaunch :: tr). rewrite O. cbn [snd calls]. rewrite E.
    split; [now rewrite <- !app_assoc|].
    split; [now rewrite <- !app_assoc|].
    split; [exact C1 | now rewrite closeCount_app, C1].
  - intros n.
    assert (L' : launch (countingCloses P) (world (counted n st))
                 = (Returned b, (w, n))).
    { cbn [countingCloses launch counted world]. unfold onWorld.
      cbn [fst snd]. rewrite L. reflexivity. }
    rewrite (runTests_launched (countingCloses P) portalUrl scenarios
               (counted n st) b (w, n) L').
    pose proof (uncounted_withBrowser b portalUrl scenarios n
                  {| world := w; calls := calls st ++ [CallLaunch] |}) as U.
    unfold counted in U at 1. cbn [world calls] in U.
    cbn [counted calls]. rewrite U. fold tried.
    rewrite O. unfold call. cbn [countingCloses close counted world calls fst snd].
    unfold closed.
    destruct (close P b (world (snd tried))) as [[[] | e] w3];
      cbn [fst snd]; reflexivity.
Qed.

End Release.

(** *** Runs on the simulated browser *)

Lemma runTests_preserves_scenarios_witness :
  let scenarios := [Sim.scenarioA; Sim.scenarioB; Sim.scenarioC] in
  let out := Sim.run scenarios Sim.healthy in
  out = (Returned Sim.resultsABC, snd out)
  /\ List.length Sim.resultsABC = List.length scenarios
  /\ forall i, option_map scenario (nth_error Sim.resultsABC i)
               = nth_error scenarios i.
Proof.
  intros scenarios out.
  assert (E : out = (Returned Sim.resultsABC, snd out))
    by (vm_compute; reflexivity).
  split; [exact E|].
  exact (runTests_preserves_scenarios Sim.driver "http://portal.test"
           scenarios Sim.healthy (snd out) Sim.resultsABC E).
Defined.

Lemma runTests_closes_browser_once_witness :
  let scenarios := [Sim.scenarioB; Sim.scenarioB] in
  let run st :=
    runTests (countingCloses Sim.driver) "http://portal.test" scenarios
      (counted 0 st) in
  launch Sim.driver (world Sim.healthy) = (Returned tt, world Sim.healthy)
  /\ (fst (run Sim.healthy)
        = Returned [succeeded Sim.scenarioB; succeeded Sim.scenarioB]
      /\ snd (world (snd (run Sim.healthy))) = 1)
  /\ (fst (run (Sim.crashingAfter 3))
        = Returned [succeeded Sim.scenarioB;
                    failed Sim.scenarioB (message Sim.targetClosed)]
      /\ snd (world (snd (run (Sim.crashingAfter 3)))) = 1)
  /\ (fst (run (Sim.crashingAfter 0))
        = Thrown (automationFailed Sim.targetClosed)
      /\ snd (world (snd (run (Sim.crashingAfter 0)))) = 1).
Proof.
  intros scenarios run.
  assert (E1 : fst (Sim.run scenarios Sim.healthy)
               = Returned [succeeded Sim.scenarioB; succeeded Sim.scenarioB])
    by (vm_compute; reflexivity).
  assert (E2 : fst (Sim.run scenarios (Sim.crashingAfter 3))
               = Returned [succeeded Sim.scenarioB;
                           failed Sim.scenarioB (message Sim.targetClosed)])
    by (vm_compute; reflexivity).
  assert (E3 : fst (Sim.run scenarios (Sim.crashingAfter 0))
               = Thrown (automationFailed Sim.targetClosed))
    by (vm_compute; reflexivity).
  split; [reflexivity|]. unfold run. split; [| split].
  - destruct (runTests_closes_browser_once Sim.driver "http://portal.test"
                scenarios Sim.healthy tt (world Sim.healthy) eq_refl)
      as (_ & _ & _ & H).
    rewrite (H 0). split; [exact E1 | reflexivity].
  - destruct (runTests_closes_browser_once Sim.driver "http://portal.test"
                scenarios (Sim.crashingAfter 3) tt
                (world (Sim.crashingAfter 3)) eq_refl)
      as (_ & _ & _ & H).
    rewrite (H 0). split; [exact E2 | reflexivity].
  - destruct (runTests_closes_browser_once Sim.driver "http://portal.test"
                scenarios (Sim.crashingAfter 0) tt
                (world (Sim.crashingAfter 0)) eq_refl)
      as (_ & _ & _ & H).
    rewrite (H 0). split; [exact E3 | reflexivity].
Defined.

Lemma unsupported_action_fails_and_run_continues_witness :
  let unknown := failed Sim.dragDrop "Unknown action: drag_drop" in
  supported (toLowerCase (action Sim.dragDrop)) = false
  /\ executeScenario Sim.driver tt Sim.dragDrop Sim.healthy
       = (Returned unknown, Sim.healthy)
  /\ exists out st',
       forEachScenario Sim.driver tt [Sim.dragDrop; Sim.scenarioB; Sim.scenarioC]
         [] Sim.healthy
         = (Returned ([] ++ unknown :: out), st')
       /\ processed Sim.driver tt [Sim.scenarioB; Sim.scenarioC]
            (paused Sim.driver 500 Sim.healthy) out st'
       /\ out = [succeeded Sim.scenarioB;
                 checked Sim.scenarioC true "rgb(255, 255, 0)" EmptyString].
Proof.
  intros unknown.
  assert (H : supported (toLowerCase (action Sim.dragDrop)) = false)
    by (vm_compute; reflexivity).
  split; [exact H|].
  destruct (unsupported_action_fails_and_run_continues Sim.driver tt
              Sim.dragDrop [Sim.scenarioB; Sim.scenarioC] [] Sim.healthy H)
    as (E & _ & _ & out & st' & R & Hp & _).
  split; [exact E|]. exists out, st'. split; [exact R|]. split; [exact Hp|].
  pose (outB := executeScenario Sim.driver tt Sim.scenarioB
                  (paused Sim.driver 500 Sim.healthy)).
  pose (outC := executeScenario Sim.driver tt Sim.scenarioC
                  (paused Sim.driver 500 (snd outB))).
  assert (EB : outB = (Returned (succeeded Sim.scenarioB), snd outB))
    by (vm_compute; reflexivity).
  assert (EC : outC = (Returned (checked Sim.scenarioC true "rgb(255, 255, 0)"
                                   EmptyString), snd outC))
    by (vm_compute; reflexivity).
  inversion Hp as [| ? ? ? rB stB outR ? XB PB]; subst.
  assert (XB' : outB = (Returned rB, stB)) by exact XB.
  rewrite EB in XB'. injection XB' as <- <-.
  inversion PB as [| ? ? ? rC stC outR' ? XC PC]; subst.
  assert (XC' : outC = (Returned rC, stC)) by exact XC.
  rewrite EC in XC'.
  assert (RC : Returned (checked Sim.scenarioC true "rgb(255, 255, 0)"
                           EmptyString) = Returned rC)
    by exact (f_equal fst XC').
  injection RC as <-.
  inversion PC; subst. reflexivity.
Defined.

Lemma local_failure_is_recovered_and_run_continues_witness :
  let msg := ("Element " ++ quoted "#missing" ++ " not found")%string in
  localFailure Sim.driver tt Sim.scenarioA Sim.healthy msg
  /\ fst (forEachScenario Sim.driver tt
            [Sim.scenarioA; Sim.scenarioB; Sim.scenarioC] [] Sim.healthy)
       = Returned Sim.resultsABC
  /\ map passed Sim.resultsABC = [false; true; true].
Proof.
  intros msg.
  assert (F : localFailure Sim.driver tt Sim.scenarioA Sim.healthy msg).
  { apply (ElementNotFound Sim.driver tt Sim.scenarioA Sim.healthy
             (world Sim.healthy)); vm_compute; reflexivity. }
  split; [exact F|].
  destruct (local_failure_is_recovered_and_run_continues Sim.driver tt
              Sim.scenarioA [Sim.scenarioB; Sim.scenarioC] [] Sim.healthy msg F)
    as ((st1 & E1 & _ & _ & H) & _).
  vm_compute in E1. injection E1 as <-.
  pose (outB := executeScenario Sim.driver tt Sim.scenarioB
                  (paused Sim.driver 500
                     {| world := world Sim.healthy;
                        calls := [CallQuery "#missing"] |})).
  pose (outC := executeScenario Sim.driver tt Sim.scenarioC
                  (paused Sim.driver 500 (snd outB))).
  assert (EB : outB = (Returned (succeeded Sim.scenarioB), snd outB))
    by (vm_compute; reflexivity).
  assert (EC : outC = (Returned (checked Sim.scenarioC true "rgb(255, 255, 0)"
                                   EmptyString), snd outC))
    by (vm_compute; reflexivity).
  destruct (H Sim.scenarioB Sim.scenarioC _ _ _ _ EB eq_refl EC eq_refl)
    as [R Hp].
  split; [| exact Hp].
  change (forEachScenario Sim.driver tt
            [Sim.scenarioA; Sim.scenarioB; Sim.scenarioC] [] Sim.healthy)
    with (forEachScenario Sim.driver tt
            [Sim.scenarioA; Sim.scenarioB; Sim.scenarioC] []
            {| world := world Sim.healthy; calls := [] |}).
  exact (f_equal fst R).
Defined.

Lemma check_style_compares_normalized_values_witness :
  parseStyle (expectedResult Sim.scenarioC) = Some ("background-color", "yellow")
  /\ Sim.styleOf Sim.button "background-color" = "rgb(255, 255, 0)"
  /\ (exists r st',
        executeScenario Sim.driver tt Sim.scenarioC Sim.healthy = (Returned r, st')
        /\ passed r = true
        /\ actualValue r = Some "rgb(255, 255, 0)")
  /\ (expectedResult Sim.scenarioC
        = str (chars "background-color" ++ chars " " ++ chars "should"
               ++ chars " " ++ chars "be" ++ chars " " ++ chars "yellow")
      /\ "background-color" = str (chars "background-color")
      /\ "yellow" = str (chars "yellow")).
Proof.
  assert (Hp : parseStyle (expectedResult Sim.scenarioC)
               = Some ("background-color", "yellow"))
    by (vm_compute; reflexivity).
  split; [exact Hp|]. split; [reflexivity|].
  destruct (check_style_compares_normalized_values Sim.driver tt Sim.scenarioC
              Sim.healthy Sim.button (world Sim.healthy) (world Sim.healthy)
              "background-color" "yellow" "rgb(255, 255, 0)")
    as [(r & st' & E & _ & Hpass & Hact & _) G].
  - vm_compute; reflexivity.
  - vm_compute; reflexivity.
  - exact Hp.
  - vm_compute; reflexivity.
  - split.
    + exists r, st'. split; [exact E|]. split.
      * apply Hpass. vm_compute; reflexivity.
      * rewrite Hact. vm_compute; reflexivity.
    + split; [reflexivity|].
      apply (G (chars "background-color") (chars " ") (chars "should")
               (chars " ") (chars "be") (chars " ") (chars "yellow")).
      * split; [discriminate | repeat constructor].
      * split; [discriminate | repeat constructor].
      * repeat constructor.
      * split; [discriminate | repeat constructor].
      * repeat constructor.
      * split; [discriminate | repeat constructor].
      * split; [repeat constructor | eexists; eexists; split; reflexivity].
      * reflexivity.
Defined.


Lemma runTests_aborts_only_on_setup_failure_witness :
  let scenarios := [Sim.scenarioB; Sim.scenarioB; Sim.checkVisible] in
  (exists results,
     fst (Sim.run scenarios (Sim.crashingAfter 3)) = Returned results
     /\ List.length results = List.length scenarios)
  /\ fst (Sim.run scenarios (Sim.crashingAfter 0))
       = Thrown (automationFailed Sim.targetClosed)
  /\ fst (runTests SimServer.closeFails "http://portal.test" scenarios
            (Sim.crashingAfter 0))
       = Thrown {| message := "Connection closed" |}
  /\ fst (runTests SimServer.closeFails "http://portal.test" scenarios
            (Sim.crashingAfter 3))
       = Thrown {| message := "Connection closed" |}.
Proof.
  intros scenarios.
  assert (S3 : forall P : Puppeteer Sim.SimWorld unit unit Sim.SimElement,
             launch P = launch Sim.driver ->
             newPage P = newPage Sim.driver ->
             setViewport P = setViewport Sim.driver ->
             goto P = goto Sim.driver ->
             forall n,
               fst (sessionSetup P "http://portal.test" (Sim.crashingAfter n))
               = match n with
                 | O => Thrown Sim.targetClosed
                 | S _ => Returned (tt, tt)
                 end).
  { intros P HL HN HV HG n.
    unfold sessionSetup, launchBrowser, bind, call.
    rewrite HL, HN, HV, HG. destruct n; reflexivity. }
  split; [| split; [| split]].
  - pose proof (runTests_aborts_only_on_setup_failure Sim.driver
                  "http://portal.test" scenarios (Sim.crashingAfter 3))
      as [H _].
    pose proof (S3 Sim.driver eq_refl eq_refl eq_refl eq_refl 3) as X.
    destruct (sessionSetup Sim.driver "http://portal.test"
                (Sim.crashingAfter 3)) as [[[b pg] | e] st1];
      [| discriminate X].
    destruct H as (w & results & _ & Hr & Hlen & Ho).
    exists results. split; [exact Ho | exact Hlen].
  - pose proof (runTests_aborts_only_on_setup_failure Sim.driver
                  "http://portal.test" scenarios (Sim.crashingAfter 0))
      as [H _].
    pose proof (S3 Sim.driver eq_refl eq_refl eq_refl eq_refl 0) as X.
    destruct (sessionSetup Sim.driver "http://portal.test"
                (Sim.crashingAfter 0)) as [[[b pg] | e] st1];
      [discriminate X |].
    cbn [fst] in X. injection X as ->.
    destruct H as [_ Ho]. exact Ho.
  - pose proof (runTests_aborts_only_on_setup_failure SimServer.closeFails
                  "http://portal.test" scenarios (Sim.crashingAfter 0))
      as [H _].
    pose proof (S3 SimServer.closeFails eq_refl eq_refl eq_refl eq_refl 0) as X.
    destruct (sessionSetup SimServer.closeFails "http://portal.test"
                (Sim.crashingAfter 0)) as [[[b pg] | e] st1];
      [discriminate X |].
    destruct H as [_ Ho]. exact Ho.
  - pose proof (runTests_aborts_only_on_setup_failure SimServer.closeFails
                  "http://portal.test" scenarios (Sim.crashingAfter 3))
      as [H _].
    pose proof (S3 SimServer.closeFails eq_refl eq_refl eq_refl eq_refl 3) as X.
    destruct (sessionSetup SimServer.closeFails "http://portal.test"
                (Sim.crashingAfter 3)) as [[[b pg] | e] st1];
      [| discriminate X].
    destruct H as (w & results & _ & _ & _ & Ho). exact Ho.
Defined.

(** When the launch fails there is no browser, and nothing is closed. *)
Example launch_failure_closes_nothing :
  let out := runTests Sim.noBrowser "http://portal.test" [Sim.scenarioA]
               Sim.healthy in
  fst out
    = Thrown (automationFailed
                {| message := "Failed to launch the browser process" |})
  /\ closeCount (calls (snd out)) = 0.
Proof.
  split; reflexivity.
Qed.

(** *** Where the code parts from the specification *)

(** The browser dies in the middle of a run (after the first scenario),
    and the run returns a full sequence of results instead of throwing:
    the later scenarios fail one by one with the message of the crash. *)
Lemma crash_mid_run_returns_results :
  let scenarios := [Sim.scenarioB; Sim.scenarioB; Sim.checkVisible] in
  let out := Sim.run scenarios (Sim.crashingAfter 3) in
  Sim.remaining (world (snd out)) = Some 0
  /\ fst out
       = Returned [ succeeded Sim.scenarioB;
                    failed Sim.scenarioB (message Sim.targetClosed);
                    failed Sim.checkVisible (message Sim.targetClosed) ]
  /\ forall e, fst out <> Thrown e.
Proof.
  intros scenarios out.
  assert (E : fst out
              = Returned [ succeeded Sim.scenarioB;
                           failed Sim.scenarioB (message Sim.targetClosed);
                           failed Sim.checkVisible (message Sim.targetClosed) ])
    by (vm_compute; reflexivity).
  split; [vm_compute; reflexivity|]. split; [exact E|].
  intros e. rewrite E. discriminate.
Qed.


(** An expectation of fill_input that is not written in its grammar is
    no failure of the scenario: all of it is typed into the element and
    the scenario passes. *)
Lemma fill_input_mismatch_is_no_failure :
  exec true fillPattern (expectedResult Sim.fillOffGrammar) = None
  /\ (forall msg,
        ~ localFailure Sim.driver tt Sim.fillOffGrammar
            (paused Sim.driver 2000 (snd (sessionSetup Sim.driver
                                            "http://portal.test" Sim.healthy)))
            msg)
  /\ Sim.run [Sim.fillOffGrammar] Sim.healthy
     = (Returned [succeeded Sim.fillOffGrammar],
        {| world := world Sim.healthy;
           calls := [CallLaunch; CallNewPage; CallSetViewport 1920 1080;
                     CallGoto "http://portal.test"; Pause 2000;
                     CallQuery "#btn"; CallType "abc"; Pause 500;
                     CallClose] |})
  /\ ~ (exists r, fst (Sim.run [Sim.fillOffGrammar] Sim.healthy) = Returned [r]
                  /\ passed r = false).
Proof.
  assert (E : Sim.run [Sim.fillOffGrammar] Sim.healthy
              = (Returned [succeeded Sim.fillOffGrammar],
                 {| world := world Sim.healthy;
                    calls := [CallLaunch; CallNewPage;
                              CallSetViewport 1920 1080;
                              CallGoto "http://portal.test"; Pause 2000;
                              CallQuery "#btn"; CallType "abc"; Pause 500;
                              CallClose] |}))
    by (vm_compute; reflexivity).
  split; [vm_compute; reflexivity|]. split; [| split; [exact E|]].
  - intros msg F.
    inversion F as [w Ha Hq | Ha | el w Ha Hq Hp | e st' Hd].
    + vm_compute in Hq. discriminate Hq.
    + vm_compute in Ha. discriminate Ha.
    + vm_compute in Ha. discriminate Ha.
    + vm_compute in Hd. discriminate Hd.
  - intros (r & Hr & Hp). rewrite E in Hr. cbn [fst] in Hr.
    injection Hr as <-. discriminate Hp.
Qed.

(** C7, on the code: of the expectation text should contain "Hello" the
    replacement removes the words, the opening quote and nothing else,
    so the closing quote stays in the text that is searched for, and an
    element whose text is Hello fails the check. *)
Theorem check_text_keeps_closing_quote :
  expectedResult Sim.textQuoted = ("text should contain " ++ quoted "Hello")%string
  /\ extractText (expectedResult Sim.textQuoted) = ("Hello" ++ dq)%string
  /\ Sim.text Sim.button = Some "Hello"
  /\ exists r,
       fst (Sim.run [Sim.textQuoted] Sim.healthy) = Returned [r]
       /\ passed r = false
       /\ actualValue r = Some "Hello".
Proof.
  split; [reflexivity|]. split; [vm_compute; reflexivity|].
  split; [reflexivity|].
  eexists. split; [vm_compute; reflexivity|]. split; reflexivity.
Qed.

(** The example of the project's README, with the value between single
    quotes: nothing but the words is removed, both quotes stay. *)
Example extractText_keeps_single_quotes :
  extractText "text should contain 'Success'" = "'Success'".
Proof.
  vm_compute; reflexivity.
Qed.

(** C8, on the code: a colour written with # and three characters that
    are not hexadecimal digits normalizes to a text with NaN, and that
    text normalizes to another one, in lower case. *)
Theorem normalizeColorValue_not_idempotent_on_bad_hex :
  normalizeColorValue "#xyz" = JStr "rgb(NaN, NaN, NaN)"
  /\ normalizeColorValue "rgb(NaN, NaN, NaN)" = JStr "rgb(nan, nan, nan)"
  /\ normalizeColorValue "rgb(NaN, NaN, NaN)" <> normalizeColorValue "#xyz".
Proof.
  assert (E1 : normalizeColorValue "#xyz" = JStr "rgb(NaN, NaN, NaN)")
    by (vm_compute; reflexivity).
  assert (E2 : normalizeColorValue "rgb(NaN, NaN, NaN)"
               = JStr "rgb(nan, nan, nan)")
    by (vm_compute; reflexivity).
  split; [exact E1|]. split; [exact E2|]. rewrite E1, E2. discriminate.
Qed.

(** C9: the five ways of writing yellow normalize to the same canonical
    text, also in capital letters and between blanks; in general the
    normalizer sees its input in lower case and trimmed only. *)
Theorem normalizeColorValue_yellow_forms :
  map normalizeColorValue
    ["yellow"; "#FFFF00"; "#ff0"; "rgb(255,255,0)"; "rgba(255,255,0,0.5)"]
    = repeat (JStr "rgb(255, 255, 0)") 5
  /\ map normalizeColorValue
       ["  YELLOW  "; " #ffff00 "; "#FF0"; " RGB(255,255,0)";
        "RGBA(255,255,0,0.5) "]
     = repeat (JStr "rgb(255, 255, 0)") 5
  /\ forall x, normalizeColorValue x = normalizeColorValue (trim (toLowerCase x)).
Proof.
  split; [vm_compute; reflexivity|]. split; [vm_compute; reflexivity|].
  intros x. unfold normalizeColorValue. now rewrite lower_trim_idempotent.
Qed.

End Properties.

(** ** Further properties of the code *)

Module Coverage.
Import JsString Regex Normalizer Expectation Engine Spec Notions Properties.

(** *** The normalizer, branch by branch *)

Lemma digits_stop_at (c : ascii) (s : list ascii) :
  isDigit c = false -> stopsAt false isDigit (c :: s).
Proof. exact (fun H => H). Qed.

Lemma space_is_no_digit (c : ascii) : isSpace c = true -> isDigit c = false.
Proof. by_cases_on c. Qed.

Lemma spaces_class (ws : list ascii) :
  spacesText ws -> Forall (fun c => classMatches false isSpace c = true) ws.
Proof. exact (fun H => H). Qed.

(** The rgba pattern on rgba(d1, d2, d3 and anything after that does not
    go on with a digit. *)
Lemma rgbaPattern_on_rgba (d1 d2 d3 ws1 ws2 rest : list ascii) :
  digitText d1 -> digitText d2 -> digitText d3 ->
  spacesText ws1 -> spacesText ws2 -> stopsAt false isDigit rest ->
  matchAt false rgbaPattern
    (chars "rgba(" ++ d1 ++ ","%char :: ws1 ++ d2 ++ ","%char :: ws2 ++ d3 ++ rest)
    = Some (rest, [(3, d3); (2, d2); (1, d1)]).
Proof.
  intros H1 H2 H3 W1 W2 R.
  pose proof (digits_stop_spaces d2 (","%char :: ws2 ++ d3 ++ rest) H2) as S2.
  pose proof (digits_stop_spaces d3 rest H3) as S3.
  destruct H1 as [N1 F1], H2 as [N2 F2], H3 as [N3 F3].
  unfold matchAt, rgbaPattern, digits, spaces, comma.
  change (chars "rgba(" ++ ?s) with (chars "rgb" ++ "a"%char :: "("%char :: s).
  rewrite rmatch_seq.
  rewrite (literal_matches false _ _ _ (chars "rgb") (chars "rgb"))
    by (cbn; repeat constructor).
  rewrite rmatch_seq. apply opt_char_taken; [reflexivity|].
  rewrite rmatch_seq, char_matches by reflexivity.
  rewrite rmatch_seq, rmatch_group.
  apply plus_greedy_class; auto using digits_class; [reflexivity|].
  rewrite consumed_app, rmatch_seq, char_matches by reflexivity.
  rewrite rmatch_seq.
  apply (star_greedy_class_all false isSpace _ _ ws1); [exact W1 | exact S2 |].
  rewrite rmatch_seq, rmatch_group.
  apply plus_greedy_class; auto using digits_class; [reflexivity|].
  rewrite consumed_app, rmatch_seq, char_matches by reflexivity.
  rewrite rmatch_seq.
  apply (star_greedy_class_all false isSpace _ _ ws2); [exact W2 | exact S3 |].
  rewrite rmatch_group.
  apply plus_greedy_class; auto using digits_class.
  now rewrite consumed_app.
Qed.

(** X1: an rgba colour loses its alpha channel, whatever stands in its
    place, and needs no closing parenthesis. *)
Theorem rgba_drops_what_follows_the_third_number (x : string)
    (d1 d2 d3 ws1 ws2 rest : list ascii) :
  digitText d1 -> digitText d2 -> digitText d3 ->
  spacesText ws1 -> spacesText ws2 -> stopsAt false isDigit rest ->
  trim (toLowerCase x)
    = str (chars "rgba(" ++ d1 ++ ","%char :: ws1 ++ d2
           ++ ","%char :: ws2 ++ d3 ++ rest) ->
  normalizeColorValue x = JStr (canonical d1 d2 d3).
Proof.
  intros H1 H2 H3 W1 W2 R E. unfold normalizeColorValue. rewrite E.
  set (input := chars "rgba(" ++ d1 ++ ","%char :: ws1 ++ d2
                ++ ","%char :: ws2 ++ d3 ++ rest).
  assert (E1 : colorMapGet (str input) = None) by reflexivity.
  assert (E2 : rgbaBranch (str input) = Some (canonical d1 d2 d3)).
  { unfold rgbaBranch, startsWith, exec. rewrite chars_str.
    change (isPrefix (chars "rgba") input) with true. cbv iota.
    unfold input.
    rewrite (search_here _ _ _ _ _ _
               (rgbaPattern_on_rgba d1 d2 d3 ws1 ws2 rest H1 H2 H3 W1 W2 R)).
    reflexivity. }
  now rewrite E1, E2.
Qed.

Lemma rgba_drops_what_follows_the_third_number_witness :
  normalizeColorValue " RGBA(255,  255,0 , 0.5) " = JStr "rgb(255, 255, 0)".
Proof.
  apply (rgba_drops_what_follows_the_third_number " RGBA(255,  255,0 , 0.5) "
           (chars "255") (chars "255") (chars "0") (chars "  ") []
           (chars " , 0.5)"));
    try (split; [discriminate | repeat constructor]);
    try (repeat constructor).
Defined.

(** A separator between two numbers of rgb(...) is passed by the optional
    comma and the blanks of the pattern. *)
Lemma separator_passed (tail : regex) (sep s : list ascii) (caps : captures)
    (k : cont) (res : result) :
  separator sep -> stopsAt false isSpace s ->
  rmatch false tail s caps k = Some res ->
  rmatch false (RSeq (ROpt true comma) (RSeq spaces tail)) (sep ++ s) caps k
    = Some res.
Proof.
  intros [(ws & -> & W) | (N & W)] S K; rewrite rmatch_seq.
  - cbn [app]. apply opt_char_taken; [reflexivity|].
    rewrite rmatch_seq.
    now apply (star_greedy_class_all false isSpace _ _ ws).
  - destruct sep as [| c sep]; [contradiction|]. cbn [app].
    assert (Hc : charMatches false "," c = false).
    { inversion W; subst. revert H1. clear. by_cases_on c. }
    unfold comma. rewrite (opt_char_skipped false _ c _ _ _ Hc).
    rewrite rmatch_seq.
    now apply (star_greedy_class_all false isSpace _ _ (c :: sep)).
Qed.

Lemma separator_stops_digits (sep s : list ascii) :
  separator sep -> stopsAt false isDigit (sep ++ s).
Proof.
  intros [(ws & -> & W) | (N & W)]; [reflexivity|].
  destruct sep as [| c sep]; [contradiction|].
  inversion W; subst. now apply space_is_no_digit.
Qed.

Lemma rgbPattern_on_rgb (d1 d2 d3 sep1 sep2 rest : list ascii) :
  digitText d1 -> digitText d2 -> digitText d3 ->
  separator sep1 -> separator sep2 ->
  matchAt false rgbPattern
    (chars "rgb(" ++ d1 ++ sep1 ++ d2 ++ sep2 ++ d3 ++ ")"%char :: rest)
    = Some (rest, [(3, d3); (2, d2); (1, d1)]).
Proof.
  intros H1 H2 H3 P1 P2.
  pose proof (digits_stop_spaces d2 (sep2 ++ d3 ++ ")"%char :: rest) H2) as S2.
  pose proof (digits_stop_spaces d3 (")"%char :: rest) H3) as S3.
  pose proof (separator_stops_digits sep1 (d2 ++ sep2 ++ d3 ++ ")"%char :: rest) P1)
    as T1.
  pose proof (separator_stops_digits sep2 (d3 ++ ")"%char :: rest) P2) as T2.
  destruct H1 as [N1 F1], H2 as [N2 F2], H3 as [N3 F3].
  unfold matchAt, rgbPattern, digits.
  rewrite rmatch_seq.
  rewrite (literal_matches false _ _ _ (chars "rgb(") (chars "rgb("))
    by (cbn; repeat constructor).
  rewrite rmatch_seq, rmatch_group.
  apply plus_greedy_class; auto using digits_class.
  rewrite consumed_app.
  apply separator_passed; [exact P1 | exact S2 |].
  rewrite rmatch_seq, rmatch_group.
  apply plus_greedy_class; auto using digits_class.
  rewrite consumed_app.
  apply separator_passed; [exact P2 | exact S3 |].
  rewrite rmatch_seq, rmatch_group.
  apply plus_greedy_class; auto using digits_class; [reflexivity|].
  rewrite consumed_app, char_matches by reflexivity. reflexivity.
Qed.

(** X2: the numbers of an rgb colour may be separated by a comma, by
    blanks or by both, and what follows the closing parenthesis is
    dropped. *)
Theorem rgb_accepts_commas_and_blanks (x : string)
    (d1 d2 d3 sep1 sep2 rest : list ascii) :
  digitText d1 -> digitText d2 -> digitText d3 ->
  separator sep1 -> separator sep2 ->
  trim (toLowerCase x)
    = str (chars "rgb(" ++ d1 ++ sep1 ++ d2 ++ sep2 ++ d3 ++ ")"%char :: rest) ->
  normalizeColorValue x = JStr (canonical d1 d2 d3).
Proof.
  intros H1 H2 H3 P1 P2 E. unfold normalizeColorValue. rewrite E.
  set (input := chars "rgb(" ++ d1 ++ sep1 ++ d2 ++ sep2 ++ d3 ++ ")"%char :: rest).
  assert (E1 : colorMapGet (str input) = None) by reflexivity.
  assert (E2 : rgbaBranch (str input) = None).
  { unfold rgbaBranch, startsWith. rewrite chars_str. reflexivity. }
  assert (E3 : rgbBranch (str input) = Some (canonical d1 d2 d3)).
  { unfold rgbBranch, startsWith, exec. rewrite chars_str.
    change (isPrefix (chars "rgb") input) with true. cbv iota.
    unfold input.
    rewrite (search_here _ _ _ _ _ _
               (rgbPattern_on_rgb d1 d2 d3 sep1 sep2 rest H1 H2 H3 P1 P2)).
    reflexivity. }
  now rewrite E1, E2, E3.
Qed.

Lemma rgb_accepts_commas_and_blanks_witness :
  normalizeColorValue "RGB(255 255,  0) !important" = JStr "rgb(255, 255, 0)".
Proof.
  apply (rgb_accepts_commas_and_blanks "RGB(255 255,  0) !important"
           (chars "255") (chars "255") (chars "0") (chars " ") (chars ",  ")
           (chars " !important")).
  - split; [discriminate | repeat constructor].
  - split; [discriminate | repeat constructor].
  - split; [discriminate | repeat constructor].
  - right. split; [discriminate | repeat constructor].
  - left. exists (chars "  "). split; [reflexivity | repeat constructor].
  - vm_compute; reflexivity.
Defined.

Lemma hexDigit_bounds (c : ascii) (v : Z) :
  hexDigit c = Some v -> (0 <= v <= 15)%Z.
Proof.
  destruct c as [[] [] [] [] [] [] [] []]; vm_compute; intros H;
    try discriminate H; inversion H; subst; split; discriminate.
Qed.

Lemma parseInt16_of_pair (c1 c2 : ascii) (a b : Z) :
  hexDigit c1 = Some a -> hexDigit c2 = Some b ->
  parseInt16 (str [c1; c2]) = Some (16 * a + b)%Z.
Proof.
  intros H1 H2. rewrite parseInt16_pair_digits by congruence.
  now apply hexPrefix_pair.
Qed.

(** X3: six hexadecimal digits behind # are read as three numbers from 0
    to 255, each from two digits. *)
Theorem hex_six_digits_decode (x : string) (a b c d e f : ascii)
    (va vb vc vd ve vf : Z) :
  hexDigit a = Some va -> hexDigit b = Some vb -> hexDigit c = Some vc ->
  hexDigit d = Some vd -> hexDigit e = Some ve -> hexDigit f = Some vf ->
  trim (toLowerCase x) = str ["#"%char; a; b; c; d; e; f] ->
  normalizeColorValue x
    = JStr (rgbText (decimal (16 * va + vb)) (decimal (16 * vc + vd))
              (decimal (16 * ve + vf)))
  /\ (0 <= 16 * va + vb <= 255)%Z /\ (0 <= 16 * vc + vd <= 255)%Z
  /\ (0 <= 16 * ve + vf <= 255)%Z.
Proof.
  intros Ha Hb Hc Hd He Hf E. split.
  - unfold normalizeColorValue. rewrite E.
    assert (E1 : colorMapGet (str ["#"%char; a; b; c; d; e; f]) = None)
      by reflexivity.
    assert (E2 : rgbaBranch (str ["#"%char; a; b; c; d; e; f]) = None)
      by reflexivity.
    assert (E3 : rgbBranch (str ["#"%char; a; b; c; d; e; f]) = None)
      by reflexivity.
    rewrite E1, E2, E3. unfold hexBranch, startsWith. rewrite chars_str.
    cbn [isPrefix chars list_ascii_of_string Ascii.eqb Bool.eqb andb removeFirst
         List.length Nat.eqb].
    change (substring 0 2 [a; b; c; d; e; f]) with (str [a; b]).
    change (substring 2 4 [a; b; c; d; e; f]) with (str [c; d]).
    change (substring 4 6 [a; b; c; d; e; f]) with (str [e; f]).
    now rewrite (parseInt16_of_pair a b va vb Ha Hb),
      (parseInt16_of_pair c d vc vd Hc Hd), (parseInt16_of_pair e f ve vf He Hf).
  - pose proof (hexDigit_bounds a va Ha). pose proof (hexDigit_bounds b vb Hb).
    pose proof (hexDigit_bounds c vc Hc). pose proof (hexDigit_bounds d vd Hd).
    pose proof (hexDigit_bounds e ve He). pose proof (hexDigit_bounds f vf Hf).
    lia.
Qed.

Lemma hex_six_digits_decode_witness :
  normalizeColorValue " #FFa500" = JStr "rgb(255, 165, 0)".
Proof.
  apply (hex_six_digits_decode " #FFa500" "f" "f" "a" "5" "0" "0"
           15 15 10 5 0 0); reflexivity.
Defined.

(** X4: three hexadecimal digits behind # stand for the six digits in
    which each one is doubled. *)
Theorem hex_three_digits_are_doubled (x y : string) (a b c : ascii) :
  hexDigits [a; b; c] ->
  trim (toLowerCase x) = str ["#"%char; a; b; c] ->
  trim (toLowerCase y) = str ["#"%char; a; a; b; b; c; c] ->
  normalizeColorValue x = normalizeColorValue y.
Proof.
  intros H Ex Ey.
  inversion H as [| ? ? Ha H1]; subst. inversion H1 as [| ? ? Hb H2]; subst.
  inversion H2 as [| ? ? Hc _]; subst.
  destruct (hexDigit a) as [va |] eqn:Ea; [| contradiction].
  destruct (hexDigit b) as [vb |] eqn:Eb; [| contradiction].
  destruct (hexDigit c) as [vc |] eqn:Ec; [| contradiction].
  destruct (hex_six_digits_decode y a a b b c c va va vb vb vc vc
              Ea Ea Eb Eb Ec Ec Ey) as [-> _].
  unfold normalizeColorValue. rewrite Ex.
  assert (E1 : colorMapGet (str ["#"%char; a; b; c]) = None) by reflexivity.
  assert (E2 : rgbaBranch (str ["#"%char; a; b; c]) = None) by reflexivity.
  assert (E3 : rgbBranch (str ["#"%char; a; b; c]) = None) by reflexivity.
  rewrite E1, E2, E3. unfold hexBranch, startsWith. rewrite chars_str.
  cbn [isPrefix chars list_ascii_of_string Ascii.eqb Bool.eqb andb removeFirst
       List.length Nat.eqb].
  change (charAt [a; b; c] 0 ++ charAt [a; b; c] 0)%string with (str [a; a]).
  change (charAt [a; b; c] 1 ++ charAt [a; b; c] 1)%string with (str [b; b]).
  change (charAt [a; b; c] 2 ++ charAt [a; b; c] 2)%string with (str [c; c]).
  now rewrite (parseInt16_of_pair a a va va Ea Ea),
    (parseInt16_of_pair b b vb vb Eb Eb), (parseInt16_of_pair c c vc vc Ec Ec).
Qed.

Lemma hex_three_digits_are_doubled_witness :
  normalizeColorValue "#FA0" = normalizeColorValue "#ffaa00".
Proof.
  apply (hex_three_digits_are_doubled "#FA0" "#ffaa00" "f" "a" "0").
  - repeat constructor; discriminate.
  - reflexivity.
  - reflexivity.
Defined.

Lemma colorMap_own (name value : string) :
  In (name, value) colorMap -> colorMapGet name = Some (JStr value).
Proof.
  cbn. intros H.
  repeat (destruct H as [[= <- <-] | H]; [reflexivity|]).
  contradiction.
Qed.

(** X5: every name of the colour table, in any letter case and between
    blanks, normalizes to the value of the table, and that value
    normalizes to itself: a name and its rgb text compare equal. *)
Theorem named_colors_normalize_to_their_value (x name value : string) :
  In (name, value) colorMap ->
  trim (toLowerCase x) = name ->
  normalizeColorValue x = JStr value
  /\ normalizeColorValue value = JStr value.
Proof.
  intros H E. split.
  - unfold normalizeColorValue. now rewrite E, (colorMap_own name value H).
  - apply colorMap_values_normalized.
    change value with (snd (name, value)). now apply in_map.
Qed.

Lemma named_colors_normalize_to_their_value_witness :
  normalizeColorValue "  Grey" = JStr "rgb(128, 128, 128)"
  /\ normalizeColorValue "rgb(128, 128, 128)" = JStr "rgb(128, 128, 128)".
Proof.
  apply (named_colors_normalize_to_their_value "  Grey" "grey").
  - cbn. do 7 right. left. reflexivity.
  - reflexivity.
Defined.

Lemma isPrefix_shorter (p q l : list ascii) :
  isPrefix (p ++ q) l = true -> isPrefix p l = true.
Proof.
  revert l. induction p as [| c p IH]; intros l; cbn; [reflexivity|].
  destruct l as [| x l]; [discriminate|].
  destruct (Ascii.eqb c x); [apply IH | discriminate].
Qed.

(** X6: a value that is no name of the table and does not start with rgb
    or # is returned in lower case and trimmed, nothing else; so two such
    values compare equal exactly when they differ in letter case and outer
    blanks only. *)
Theorem plain_values_pass_through (x y : string) :
  colorMapGet (trim (toLowerCase x)) = None ->
  startsWith (trim (toLowerCase x)) "rgb" = false ->
  startsWith (trim (toLowerCase x)) "#" = false ->
  normalizeColorValue x = JStr (trim (toLowerCase x))
  /\ (colorMapGet (trim (toLowerCase y)) = None ->
      startsWith (trim (toLowerCase y)) "rgb" = false ->
      startsWith (trim (toLowerCase y)) "#" = false ->
      (strictEq (normalizeColorValue x) (normalizeColorValue y) = true
       <-> trim (toLowerCase x) = trim (toLowerCase y))).
Proof.
  assert (P : forall z,
             colorMapGet (trim (toLowerCase z)) = None ->
             startsWith (trim (toLowerCase z)) "rgb" = false ->
             startsWith (trim (toLowerCase z)) "#" = false ->
             normalizeColorValue z = JStr (trim (toLowerCase z))).
  { intros z H1 H2 H3. unfold normalizeColorValue, rgbaBranch, rgbBranch, hexBranch.
    rewrite H1, H2, H3.
    destruct (startsWith (trim (toLowerCase z)) "rgba") eqn:E; [| reflexivity].
    unfold startsWith in E, H2.
    rewrite (isPrefix_shorter (chars "rgb") (chars "a") _ E) in H2. discriminate. }
  intros H1 H2 H3. split; [now apply P|].
  intros K1 K2 K3. rewrite (P x H1 H2 H3), (P y K1 K2 K3), strictEq_true.
  split; [now intros [= ->] | now intros ->].
Qed.

Lemma plain_values_pass_through_witness :
  normalizeColorValue " 16PX " = JStr "16px"
  /\ (strictEq (normalizeColorValue " 16PX ") (normalizeColorValue "16px") = true
      <-> trim (toLowerCase " 16PX ") = trim (toLowerCase "16px")).
Proof.
  destruct (plain_values_pass_through " 16PX " "16px") as [H1 H2];
    try reflexivity.
  split; [exact H1|]. apply H2; reflexivity.
Defined.

(** X7: a canonical text rgb(r, g, b), with decimal numbers of any length,
    normalizes to itself; and what the rgba and the rgb branch return is
    always such a text. *)
Theorem canonical_texts_are_fixed_points :
  (forall d1 d2 d3,
     digitText d1 -> digitText d2 -> digitText d3 ->
     normalizeColorValue (canonical d1 d2 d3) = JStr (canonical d1 d2 d3))
  /\ (forall lowerColor s,
        rgbaBranch lowerColor = Some s \/ rgbBranch lowerColor = Some s ->
        exists d1 d2 d3,
          digitText d1 /\ digitText d2 /\ digitText d3
          /\ s = canonical d1 d2 d3
          /\ normalizeColorValue s = JStr s).
Proof.
  split; [exact normalizeColorValue_canonical|].
  intros lowerColor s [H | H].
  - unfold rgbaBranch in H.
    destruct (startsWith lowerColor "rgba"); [| discriminate].
    destruct (exec false rgbaPattern lowerColor) as [m |] eqn:Em; [| discriminate].
    inversion H; subst s.
    destruct (exec_groups_canonical _ _ _ rgbaPattern_groups Em)
      as (d1 & d2 & d3 & H1 & H2 & H3 & ->).
    exists d1, d2, d3. repeat (split; [assumption|]).
    split; [reflexivity | now apply normalizeColorValue_canonical].
  - unfold rgbBranch in H.
    destruct (startsWith lowerColor "rgb"); [| discriminate].
    destruct (exec false rgbPattern lowerColor) as [m |] eqn:Em; [| discriminate].
    inversion H; subst s.
    destruct (exec_groups_canonical _ _ _ rgbPattern_groups Em)
      as (d1 & d2 & d3 & H1 & H2 & H3 & ->).
    exists d1, d2, d3. repeat (split; [assumption|]).
    split; [reflexivity | now apply normalizeColorValue_canonical].
Qed.

Lemma canonical_texts_are_fixed_points_witness :
  normalizeColorValue "rgb(0, 128, 255)" = JStr "rgb(0, 128, 255)"
  /\ rgbBranch "rgb(1234)" = Some "rgb(12, 3, 4)"
  /\ exists d1 d2 d3,
       digitText d1 /\ digitText d2 /\ digitText d3
       /\ "rgb(12, 3, 4)" = canonical d1 d2 d3
       /\ normalizeColorValue "rgb(12, 3, 4)" = JStr "rgb(12, 3, 4)".
Proof.
  destruct canonical_texts_are_fixed_points as [F B].
  assert (E : rgbBranch "rgb(1234)" = Some "rgb(12, 3, 4)")
    by (vm_compute; reflexivity).
  split; [| split; [exact E|]].
  - apply (F (chars "0") (chars "128") (chars "255"));
      (split; [discriminate | repeat constructor]).
  - apply (B "rgb(1234)"). right. exact E.
Defined.

(** X8: normalizing twice is normalizing once, for every input that gives
    a text and has nothing but hexadecimal digits behind a leading #. *)
Theorem normalizer_is_idempotent_on_well_formed_input (x s : string) :
  normalizeColorValue x = JStr s ->
  (startsWith (trim (toLowerCase x)) "#" = true ->
   hexDigits (removeFirst "#" (chars (trim (toLowerCase x))))) ->
  normalizeColorValue s = normalizeColorValue x.
Proof.
  intros H Hd. rewrite H.
  exact (normalizeColorValue_idempotent_on_hex_digits x s H Hd).
Qed.

Lemma normalizer_is_idempotent_on_well_formed_input_witness :
  normalizeColorValue "#FFA500" = JStr "rgb(255, 165, 0)"
  /\ normalizeColorValue "rgb(255, 165, 0)" = normalizeColorValue "#FFA500".
Proof.
  assert (H : normalizeColorValue "#FFA500" = JStr "rgb(255, 165, 0)")
    by (vm_compute; reflexivity).
  split; [exact H|].
  apply (normalizer_is_idempotent_on_well_formed_input "#FFA500" _ H).
  intros _. vm_compute. repeat constructor; discriminate.
Defined.
(** *** The values of the replace patterns *)

Lemma str_app (a b : list ascii) : str (a ++ b) = (str a ++ str b)%string.
Proof.
  unfold str. induction a as [| c a IH]; cbn; [reflexivity|]. now rewrite IH.
Qed.

Lemma opt_char_at_end (ic : bool) (c : ascii) (caps : captures) (k : cont) :
  rmatch ic (ROpt true (RChar c)) [] caps k = k [] caps.
Proof. reflexivity. Qed.

Lemma no_quote (c : ascii) : c <> "034"%char -> charMatches true "034" c = false.
Proof.
  intros H. unfold charMatches. apply Ascii.eqb_neq. intros E. apply H.
  revert E. clear. by_cases_on c.
Qed.

(** A replacement whose match starts the text: the first group and the
    rest of the text are what is left. *)
Lemma replace_at_start (ic : bool) (r : regex) (pre s' g : list ascii)
    (caps : captures) :
  matchAt ic r (pre ++ s') = Some (s', caps) ->
  capture 1 caps = Some g ->
  replaceWithGroup1 ic r (str (pre ++ s')) = str (g ++ s').
Proof.
  intros M G. unfold replaceWithGroup1, exec. rewrite chars_str.
  rewrite (search_here _ _ _ _ _ _ M). cbn [index matched groups].
  rewrite Nat.add_0_l, skipn_consumed. unfold group. cbn [groups]. rewrite G.
  now rewrite str_app.
Qed.

(** The optional quote after the group: it takes a quote that is there. *)
Lemma closing_quote_skipped (rest : list ascii) (caps : captures) (k : cont) :
  match rest with x :: _ => x <> "034"%char | [] => True end ->
  rmatch true optQuote rest caps k = k rest caps.
Proof.
  destruct rest as [| x rest]; intros H; [reflexivity|].
  unfold optQuote. now rewrite (opt_char_skipped true _ x _ _ _ (no_quote x H)).
Qed.

Lemma lazyValue_bare (c : ascii) (rest : list ascii) (caps : captures)
    (k : cont) (res : result) :
  isLineTerminator c = false -> c <> "034"%char ->
  match rest with x :: _ => x <> "034"%char | [] => True end ->
  k rest ((1, [c]) :: caps) = Some res ->
  rmatch true lazyValue (c :: rest) caps k = Some res.
Proof.
  intros Hc Hq Hr K. unfold lazyValue.
  rewrite rmatch_seq. unfold optQuote at 1.
  rewrite (opt_char_skipped true _ c _ _ _ (no_quote c Hq)).
  rewrite rmatch_seq, rmatch_group.
  apply plus_lazy_class_one; [now apply any_class|].
  rewrite (closing_quote_skipped rest _ _ Hr).
  change (c :: rest) with ([c] ++ rest). now rewrite consumed_app.
Qed.

Lemma lazyValue_after_quote (c : ascii) (rest : list ascii) (caps : captures)
    (k : cont) (res : result) :
  isLineTerminator c = false ->
  match rest with x :: _ => x <> "034"%char | [] => True end ->
  k rest ((1, [c]) :: caps) = Some res ->
  rmatch true lazyValue ("034"%char :: c :: rest) caps k = Some res.
Proof.
  intros Hc Hr K. unfold lazyValue.
  rewrite rmatch_seq. unfold optQuote at 1.
  apply opt_char_taken; [reflexivity|].
  rewrite rmatch_seq, rmatch_group.
  apply plus_lazy_class_one; [now apply any_class|].
  rewrite (closing_quote_skipped rest _ _ Hr).
  change (c :: rest) with ([c] ++ rest). now rewrite consumed_app.
Qed.

Lemma lazyValue_one_quoted (c : ascii) (rest : list ascii) (caps : captures)
    (k : cont) (res : result) :
  isLineTerminator c = false ->
  k rest ((1, [c]) :: caps) = Some res ->
  rmatch true lazyValue ("034"%char :: c :: "034"%char :: rest) caps k = Some res.
Proof.
  intros Hc K. unfold lazyValue.
  rewrite rmatch_seq. unfold optQuote at 1.
  apply opt_char_taken; [reflexivity|].
  rewrite rmatch_seq, rmatch_group.
  apply plus_lazy_class_one; [now apply any_class|].
  unfold optQuote. apply opt_char_taken; [reflexivity|].
  change (c :: "034"%char :: rest) with ([c] ++ "034"%char :: rest).
  now rewrite consumed_app.
Qed.

Lemma leads_navigate : leads navigatePattern "navigate to ".
Proof.
  intros w s caps k res W H. unfold navigatePattern.
  now rewrite rmatch_seq, (literal_matches true _ _ _ _ w W).
Qed.

Lemma leads_fill : leads fillPattern "fill with ".
Proof.
  intros w s caps k res W H. unfold fillPattern.
  now rewrite rmatch_seq, (literal_matches true _ _ _ _ w W).
Qed.

Lemma spelled_app (a b : string) (w : list ascii) :
  spelled (a ++ b) w ->
  exists wa wb, w = wa ++ wb /\ spelled a wa /\ spelled b wb.
Proof.
  unfold spelled. rewrite chars_append. intros H.
  apply Forall2_app_inv_l in H. destruct H as (wa & wb & Ha & Hb & ->).
  now exists wa, wb.
Qed.

Lemma leads_text_contain : leads textPattern "text should contain ".
Proof.
  intros w s caps k res W H.
  change "text should contain " with ("text should " ++ "contain" ++ " ")%string in W.
  apply spelled_app in W. destruct W as (w1 & w23 & -> & W1 & W23).
  apply spelled_app in W23. destruct W23 as (w2 & w3 & -> & W2 & W3).
  inversion W3 as [| ? x ? ? Hx W4]; subst. inversion W4; subst.
  unfold textPattern. rewrite <- !app_assoc.
  rewrite rmatch_seq, (literal_matches true _ _ _ _ w1 W1).
  rewrite rmatch_seq. apply alt_first.
  rewrite (literal_matches true _ _ _ _ w2 W2).
  cbn [app]. now rewrite rmatch_seq, (char_matches true _ x _ _ _ Hx).
Qed.

Lemma spelled_b_is_no_c (x : ascii) :
  charMatches true "b" x = true -> charMatches true "c" x = false.
Proof. by_cases_on x. Qed.

Lemma leads_text_be : leads textPattern "text should be ".
Proof.
  intros w s caps k res W H.
  change "text should be " with ("text should " ++ "be" ++ " ")%string in W.
  apply spelled_app in W. destruct W as (w1 & w23 & -> & W1 & W23).
  apply spelled_app in W23. destruct W23 as (w2 & w3 & -> & W2 & W3).
  inversion W3 as [| ? x ? ? Hx W4]; subst. inversion W4; subst.
  unfold textPattern. rewrite <- !app_assoc.
  rewrite rmatch_seq, (literal_matches true _ _ _ _ w1 W1).
  rewrite rmatch_seq, alt_second.
  - rewrite (literal_matches true _ _ _ _ w2 W2).
    cbn [app]. now rewrite rmatch_seq, (char_matches true _ x _ _ _ Hx).
  - inversion W2 as [| ? b ? ? Hb _]; subst. cbn [app chars list_ascii_of_string RLit].
    rewrite rmatch_seq. cbn [rmatch]. now rewrite (spelled_b_is_no_c b Hb).
Qed.

(** The replacement on the words and a value that the pattern takes as
    one character and the rest. *)
Lemma replace_leading (pat : regex) (words : string) (w value rest g : list ascii) :
  leads pat words -> spelled words w ->
  (forall caps k res,
     k rest ((1, g) :: caps) = Some res ->
     rmatch true lazyValue value caps k = Some res) ->
  (exists pre, value = pre ++ rest) ->
  replaceWithGroup1 true pat (str (w ++ value)) = str (g ++ rest).
Proof.
  intros L W V [pre ->].
  rewrite app_assoc. apply (replace_at_start true pat _ rest g [(1, g)]).
  - unfold matchAt. rewrite <- app_assoc. apply (L w _ _ _ _ W). now apply V.
  - reflexivity.
Qed.

(** X9: a value written without quotes after the words of the pattern is
    extracted as it is, the words in any letter case. *)
Theorem bare_values_are_extracted_whole (v : list ascii) :
  bareValue v ->
  (forall w, spelled "text should contain " w ->
             extractText (str (w ++ v)) = str v)
  /\ (forall w, spelled "text should be " w ->
                extractText (str (w ++ v)) = str v)
  /\ (forall w, spelled "navigate to " w -> extractUrl (str (w ++ v)) = str v)
  /\ (forall w, spelled "fill with " w -> extractFill (str (w ++ v)) = str v).
Proof.
  intros (c & rest & -> & Hc & Hq & Hr).
  assert (V : forall caps k res,
             k rest ((1, [c]) :: caps) = Some res ->
             rmatch true lazyValue (c :: rest) caps k = Some res).
  { intros caps k res K. now apply lazyValue_bare. }
  assert (S : exists pre, c :: rest = pre ++ rest) by now exists [c].
  repeat split; intros w W.
  - exact (replace_leading _ _ w _ rest [c] leads_text_contain W V S).
  - exact (replace_leading _ _ w _ rest [c] leads_text_be W V S).
  - exact (replace_leading _ _ w _ rest [c] leads_navigate W V S).
  - exact (replace_leading _ _ w _ rest [c] leads_fill W V S).
Qed.

Lemma bare_values_are_extracted_whole_witness :
  extractText "Text Should Be About Us" = "About Us"
  /\ extractText "text should contain Success" = "Success"
  /\ extractUrl "Navigate to /dashboard" = "/dashboard"
  /\ extractFill "fill with test@example.com" = "test@example.com".
Proof.
  split; [| split; [| split]].
  - destruct (bare_values_are_extracted_whole (chars "About Us")) as (_ & H & _).
    + exists "A"%char, (chars "bout Us"). repeat split; discriminate.
    + apply (H (chars "Text Should Be ")). repeat constructor.
  - destruct (bare_values_are_extracted_whole (chars "Success")) as (H & _).
    + exists "S"%char, (chars "uccess"). repeat split; discriminate.
    + apply (H (chars "text should contain ")). repeat constructor.
  - destruct (bare_values_are_extracted_whole (chars "/dashboard"))
      as (_ & _ & H & _).
    + exists "/"%char, (chars "dashboard"). repeat split; discriminate.
    + apply (H (chars "Navigate to ")). repeat constructor.
  - destruct (bare_values_are_extracted_whole (chars "test@example.com"))
      as (_ & _ & _ & H).
    + exists "t"%char, (chars "est@example.com"). repeat split; discriminate.
    + apply (H (chars "fill with ")). repeat constructor.
Defined.

(** X10: of a value between double quotes, fill_input and navigate drop the
    opening quote only: the closing quote stays at the end of what is typed
    or loaded, unless the value is a single character. *)
Theorem quoted_values_keep_the_closing_quote (c : ascii) :
  isLineTerminator c = false ->
  (forall w, spelled "fill with " w ->
     extractFill (str (w ++ "034"%char :: c :: ["034"%char])) = str [c])
  /\ (forall w, spelled "navigate to " w ->
        extractUrl (str (w ++ "034"%char :: c :: ["034"%char])) = str [c])
  /\ (forall x v w, x <> "034"%char -> spelled "fill with " w ->
        extractFill (str (w ++ "034"%char :: c :: x :: v ++ ["034"%char]))
          = str (c :: x :: v ++ ["034"%char]))
  /\ (forall x v w, x <> "034"%char -> spelled "navigate to " w ->
        extractUrl (str (w ++ "034"%char :: c :: x :: v ++ ["034"%char]))
          = str (c :: x :: v ++ ["034"%char])).
Proof.
  intros Hc.
  assert (V1 : forall caps k res,
             k [] ((1, [c]) :: caps) = Some res ->
             rmatch true lazyValue ("034"%char :: c :: ["034"%char]) caps k
               = Some res).
  { intros caps k res K. now apply lazyValue_one_quoted. }
  assert (S1 : exists pre, "034"%char :: c :: ["034"%char] = pre ++ [])
    by (eexists; now rewrite app_nil_r).
  assert (V2 : forall x v, x <> "034"%char -> forall caps k res,
             k (x :: v ++ ["034"%char]) ((1, [c]) :: caps) = Some res ->
             rmatch true lazyValue ("034"%char :: c :: x :: v ++ ["034"%char])
               caps k = Some res).
  { intros x v Hx caps k res K. now apply lazyValue_after_quote. }
  assert (S2 : forall x v, exists pre,
             "034"%char :: c :: x :: v ++ ["034"%char]
             = pre ++ x :: v ++ ["034"%char])
    by (intros x v; now exists ["034"%char; c]).
  repeat split.
  - intros w W. exact (replace_leading _ _ w _ [] [c] leads_fill W V1 S1).
  - intros w W. exact (replace_leading _ _ w _ [] [c] leads_navigate W V1 S1).
  - intros x v w Hx W.
    exact (replace_leading _ _ w _ _ [c] leads_fill W (V2 x v Hx) (S2 x v)).
  - intros x v w Hx W.
    exact (replace_leading _ _ w _ _ [c] leads_navigate W (V2 x v Hx) (S2 x v)).
Qed.

Lemma quoted_values_keep_the_closing_quote_witness :
  extractFill ("fill with " ++ quoted "7") = "7"
  /\ extractFill ("fill with " ++ quoted "abc") = ("abc" ++ dq)%string
  /\ extractUrl ("navigate to " ++ quoted "/about") = ("/about" ++ dq)%string.
Proof.
  split; [| split].
  - destruct (quoted_values_keep_the_closing_quote "7" eq_refl) as (H & _).
    apply (H (chars "fill with ")). repeat constructor.
  - destruct (quoted_values_keep_the_closing_quote "a" eq_refl) as (_ & _ & H & _).
    apply (H "b"%char (chars "c") (chars "fill with ")); [discriminate|].
    repeat constructor.
  - destruct (quoted_values_keep_the_closing_quote "/" eq_refl)
      as (_ & _ & _ & H).
    apply (H "a"%char (chars "bout") (chars "navigate to ")); [discriminate|].
    repeat constructor.
Defined.
(** *** The handlers that the statements above leave out *)

Lemma isPrefix_app (w b : list ascii) : isPrefix w (w ++ b) = true.
Proof.
  induction w as [| c w IH]; cbn; [reflexivity|]. now rewrite Ascii.eqb_refl.
Qed.

Lemma includesChars_middle (a w b : list ascii) :
  includesChars (a ++ w ++ b) w = true.
Proof.
  induction a as [| c a IH]; cbn [app].
  - destruct (w ++ b) eqn:E; cbn; rewrite <- ?E, isPrefix_app; reflexivity.
  - cbn [includesChars]. rewrite IH. apply orb_true_r.
Qed.

Lemma visible_in_lower_case (word : list ascii) :
  spelled "visible" word -> map lowerChar word = chars "visible".
Proof.
  unfold spelled. cbn [chars list_ascii_of_string]. intros H.
  repeat match goal with
         | H : Forall2 _ (_ :: _) _ |- _ => inversion H; subst; clear H
         | H : Forall2 _ [] _ |- _ => inversion H; subst; clear H
         end.
  cbn [map].
  repeat match goal with
         | H : charMatches true ?c ?x = true |- _ =>
             assert (lowerChar x = c) as -> by (revert H; clear; by_cases_on x);
             clear H
         end.
  reflexivity.
Qed.

Lemma asks_for_presence (a word b : list ascii) :
  spelled "visible" word ->
  includes (toLowerCase (str (a ++ word ++ b))) "visible" = true.
Proof.
  intros W. unfold includes, toLowerCase. rewrite !chars_str, !map_app.
  rewrite (visible_in_lower_case word W). apply includesChars_middle.
Qed.

Section Handlers.
Context {World Browser Page Element : Type}.
Variable P : Puppeteer World Browser Page Element.

(** X11: check_visibility never fails for a missing element as such: it
    asks the page once and passes exactly when the presence of the element
    agrees with the presence of the word visible, in any letter case and
    anywhere, in the expectation. *)
Theorem check_visibility_compares_presence_with_the_word (page : Page)
    (sc : TestScenario) (st : state World) (found : option Element) (w : World) :
  toLowerCase (action sc) = "check_visibility" ->
  querySelector P page (target sc) (world st) = (Returned found, w) ->
  let present := match found with Some _ => true | None => false end in
  let wanted := includes (toLowerCase (expectedResult sc)) "visible" in
  (exists r,
     executeScenario P page sc st
       = (Returned r,
          {| world := w; calls := calls st ++ [CallQuery (target sc)] |})
     /\ scenario r = sc
     /\ passed r = Bool.eqb present wanted
     /\ actualValue r = Some (if present then "visible" else "not visible"))
  /\ forall a word b,
       spelled "visible" word ->
       expectedResult sc = str (a ++ word ++ b) -> wanted = true.
Proof.
  intros Ha Hq present wanted. split.
  - eexists. split.
    + unfold executeScenario, tryCatch.
      rewrite (dispatch_action P page sc _ Ha).
      cbn [String.eqb Ascii.eqb Bool.eqb].
      unfold checkVisibility, bind, call. rewrite Hq. reflexivity.
    + cbn. repeat split; reflexivity.
  - intros a word b W E. unfold wanted. rewrite E. now apply asks_for_presence.
Qed.

(** X12: check_text is a test for a substring, with the letter case as it
    is: when the element has a text, the scenario passes exactly when that
    text contains the extracted one -- the comparison for equality adds
    nothing -- and it fails when the element has no text at all.  The page
    is asked twice, for the element and for its text. *)
Theorem check_text_is_a_substring_test (page : Page) (sc : TestScenario)
    (st : state World) (el : Element) (w w' : World)
    (actualText : option string) :
  toLowerCase (action sc) = "check_text" ->
  querySelector P page (target sc) (world st) = (Returned (Some el), w) ->
  textContent P page el w = (Returned actualText, w') ->
  exists r,
    executeScenario P page sc st
      = (Returned r,
         {| world := w';
            calls := calls st ++ [CallQuery (target sc); CallTextContent] |})
    /\ scenario r = sc
    /\ passed r
       = match actualText with
         | Some t => includes t (extractText (expectedResult sc))
         | None => false
         end
    /\ actualValue r
       = Some (match actualText with Some t => t | None => EmptyString end).
Proof.
  intros Ha Hq Ht. eexists. split.
  - rewrite (executeScenario_check_text P page sc st el w w' actualText Ha Hq Ht).
    rewrite <- app_assoc. reflexivity.
  - cbn. split; [reflexivity|]. split; [| reflexivity].
    destruct actualText as [t |]; [| reflexivity].
    destruct (String.eqb t (extractText (expectedResult sc))) eqn:E;
      [| apply orb_false_r].
    apply String.eqb_eq in E. rewrite <- E.
    pose proof (includes_suffix EmptyString t) as I. cbn [append] in I.
    rewrite I. reflexivity.
Qed.

End Handlers.

Lemma check_visibility_compares_presence_with_the_word_witness :
  exists r st',
    executeScenario Sim.driver tt
      (Sim.scenarioOf "check_visibility" "#missing" "should NOT be Visible")
      Sim.healthy = (Returned r, st')
    /\ passed r = false
    /\ actualValue r = Some "not visible".
Proof.
  destruct (check_visibility_compares_presence_with_the_word Sim.driver tt
              (Sim.scenarioOf "check_visibility" "#missing" "should NOT be Visible")
              Sim.healthy None (world Sim.healthy))
    as [(r & E & _ & Hp & Hv) W].
  - vm_compute; reflexivity.
  - vm_compute; reflexivity.
  - exists r. eexists. split; [exact E|]. rewrite Hp, Hv.
    rewrite (W (chars "should NOT be ") (chars "Visible") []).
    + split; reflexivity.
    + repeat constructor.
    + reflexivity.
Defined.

Lemma check_text_is_a_substring_test_witness :
  exists r st',
    executeScenario Sim.driver tt
      (Sim.scenarioOf "check_text" "#btn" "text should be hello")
      Sim.healthy = (Returned r, st')
    /\ passed r = includes "Hello" "hello"
    /\ passed r = false.
Proof.
  destruct (check_text_is_a_substring_test Sim.driver tt
              (Sim.scenarioOf "check_text" "#btn" "text should be hello")
              Sim.healthy Sim.button (world Sim.healthy) (world Sim.healthy)
              (Some "Hello"))
    as (r & E & _ & Hp & _).
  - vm_compute; reflexivity.
  - vm_compute; reflexivity.
  - vm_compute; reflexivity.
  - exists r. eexists. split; [exact E|].
    assert (X : extractText "text should be hello" = "hello")
      by (vm_compute; reflexivity).
    cbn [expectedResult Sim.scenarioOf] in Hp. rewrite X in Hp.
    split; [exact Hp|]. rewrite Hp. vm_compute. reflexivity.
Defined.
(** *** What a run costs *)

Lemma weight_app (mu : event -> nat) (a b : list event) :
  weight mu (a ++ b) = weight mu a + weight mu b.
Proof.
  unfold weight. now rewrite map_app, list_sum_app.
Qed.

Ltac run_handler P :=
  repeat match goal with
         | |- context [querySelector P ?p ?t ?w] =>
             destruct (querySelector P p t w) as [[[?el |] | ?e] ?w1]; cbn
         | |- context [textContent P ?p ?x ?w] =>
             destruct (textContent P p x w) as [[[?t |] | ?e] ?w1]; cbn
         | |- context [computedStyle P ?p ?x ?y ?w] =>
             destruct (computedStyle P p x y w) as [[?v | ?e] ?w1]; cbn
         | |- context [click P ?x ?w] =>
             destruct (click P x w) as [[?v | ?e] ?w1]; cbn
         | |- context [hover P ?x ?w] =>
             destruct (hover P x w) as [[?v | ?e] ?w1]; cbn
         | |- context [type P ?x ?y ?w] =>
             destruct (type P x y w) as [[?v | ?e] ?w1]; cbn
         | |- context [goto P ?x ?y ?w] =>
             destruct (goto P x y w) as [[?v | ?e] ?w1]; cbn
         | |- context [match parseStyle ?x with _ => _ end] =>
             destruct (parseStyle x) as [[? ?] |]; cbn
         end.

Section Costs.
Context {World Browser Page Element : Type}.
Variable P : Puppeteer World Browser Page Element.

(** What one scenario adds to the trace, and what its result has to do
    with the pause. *)
Lemma executeScenario_cost (page : Page) (sc : TestScenario) (st : state World) :
  exists r st' tr,
    executeScenario P page sc st = (Returned r, st')
    /\ calls st' = calls st ++ tr
    /\ pausedMs tr
       = (if passed r then settleDelay (toLowerCase (action sc)) else 0)
    /\ weight pageCall tr <= 2
    /\ weight sessionCall tr = 0.
Proof.
  unfold executeScenario, tryCatch, dispatch.
  generalize (toLowerCase (action sc)). intros a.
  repeat match goal with
         | |- context [if String.eqb ?y ?x then _ else _] =>
             destruct (String.eqb y x) eqn:?E
         end;
    try match goal with
        | H : String.eqb _ _ = true |- _ => apply String.eqb_eq in H; subst a
        end;
    unfold checkStyle, doClick, checkText, checkVisibility, doNavigate,
      doHover, fillInput, bind, call, sleep, ret; cbn;
    run_handler P;
    do 3 eexists;
    (split; [reflexivity|]);
    (split; [cbn; first [symmetry; apply app_nil_r
                        | rewrite <- ?app_assoc; reflexivity]|]);
    try (unfold settleDelay; rewrite ?E, ?E0, ?E1, ?E2, ?E3, ?E4, ?E5);
    cbn; repeat split; try lia;
    match goal with
    | |- context [if ?b then _ else _] => destruct b; reflexivity
    | _ => idtac
    end.
Qed.


Lemma settleDelay_bound (a : string) : settleDelay a <= 1000.
Proof.
  unfold settleDelay.
  repeat match goal with
         | |- context [if ?b then _ else _] => destruct b
         end; lia.
Qed.

(** What the loop adds to the trace. *)
Lemma forEachScenario_cost (page : Page) (scenarios : list TestScenario) :
  forall results st, exists out st' tr,
    forEachScenario P page scenarios results st = (Returned out, st')
    /\ calls st' = calls st ++ tr
    /\ 500 * List.length scenarios <= pausedMs tr
    /\ pausedMs tr <= 1500 * List.length scenarios
    /\ weight pageCall tr <= 2 * List.length scenarios
    /\ weight sessionCall tr = 0.
Proof.
  induction scenarios as [| sc rest IH]; intros results st.
  - exists results, st, []. cbn. rewrite app_nil_r. repeat split; lia.
  - cbn [forEachScenario]. unfold bind at 1.
    destruct (executeScenario_cost page sc st)
      as (r & st1 & tr1 & E1 & C1 & T1 & G1 & V1).
    rewrite E1. unfold bind at 1, sleep at 1.
    destruct (IH (results ++ [r])
                {| world := elapse P 500 (world st1);
                   calls := calls st1 ++ [Pause 500] |})
      as (out & st2 & tr2 & E2 & C2 & L2 & U2 & G2 & V2).
    exists out, st2, (tr1 ++ [Pause 500] ++ tr2).
    split; [exact E2|].
    split; [rewrite C2; cbn [calls]; rewrite C1, <- !app_assoc; reflexivity|].
    unfold pausedMs in *. rewrite !weight_app.
    assert (pausedMs tr1 <= 1000) as B.
    { unfold pausedMs. rewrite T1. destruct (passed r); [|lia].
      apply settleDelay_bound. }
    unfold pausedMs in B. cbn [List.length].
    change (weight pauseOf [Pause 500]) with 500.
    change (weight pageCall [Pause 500]) with 0.
    change (weight sessionCall [Pause 500]) with 0.
    repeat split; lia.
Qed.

Ltac weigh :=
  unfold pausedMs, weight, list_sum;
  cbn [map fold_right pauseOf pageCall sessionCall app];
  repeat split; try reflexivity; try lia;
  intros; try discriminate; try lia.

(** What a run adds to the trace: the bounds of the loop, with the launch,
    the three calls of the setup, the pause of two seconds and the close
    around them. *)
Lemma runTests_cost (portalUrl : string) (scenarios : list TestScenario)
    (st : state World) :
  exists tr,
    calls (snd (runTests P portalUrl scenarios st)) = calls st ++ tr
    /\ pausedMs tr <= 2000 + 1500 * List.length scenarios
    /\ weight pageCall tr <= 1 + 2 * List.length scenarios
    /\ weight sessionCall tr <= 4
    /\ (forall results,
          fst (runTests P portalUrl scenarios st) = Returned results ->
          2000 + 500 * List.length scenarios <= pausedMs tr
          /\ 1 <= weight pageCall tr
          /\ weight sessionCall tr = 4).
Proof.
  unfold runTests, tryBlock, launchBrowser, call.
  destruct (launch P (world st)) as [[b | e] w1].
  2:{ exists [CallLaunch]. cbn [fst snd calls]. weigh. }
  unfold withBrowser, bind, call, sleep. cbn [world calls].
  destruct (newPage P b w1) as [[page | e] w2]; cbn [world calls].
  2:{ destruct (close P b w2) as [[? | ?] w3];
      exists [CallLaunch; CallNewPage; CallClose]; cbn [fst snd calls];
      rewrite <- ?app_assoc; weigh. }
  destruct (setViewport P page 1920 1080 w2) as [[? | e] w3]; cbn [world calls].
  2:{ destruct (close P b w3) as [[? | ?] w4];
      exists [CallLaunch; CallNewPage; CallSetViewport 1920 1080; CallClose];
      cbn [fst snd calls]; rewrite <- ?app_assoc; weigh. }
  destruct (goto P page portalUrl w3) as [[? | e] w4]; cbn [world calls].
  2:{ destruct (close P b w4) as [[? | ?] w5];
      exists [CallLaunch; CallNewPage; CallSetViewport 1920 1080;
              CallGoto portalUrl; CallClose];
      cbn [fst snd calls]; rewrite <- ?app_assoc; weigh. }
  match goal with
  | |- context [forEachScenario P page scenarios [] ?s] =>
      destruct (forEachScenario_cost page scenarios [] s)
        as (out & st2 & tr2 & E2 & C2 & L2 & U2 & G2 & V2)
  end.
  rewrite E2. cbn [calls] in C2.
  exists ([CallLaunch; CallNewPage; CallSetViewport 1920 1080;
           CallGoto portalUrl; Pause 2000] ++ tr2 ++ [CallClose]).
  unfold pausedMs in *.
  assert (forall mu, weight mu ([CallLaunch; CallNewPage;
            CallSetViewport 1920 1080; CallGoto portalUrl; Pause 2000]
            ++ tr2 ++ [CallClose])
          = mu CallLaunch + mu CallNewPage + mu (CallSetViewport 1920 1080)
            + mu (CallGoto portalUrl) + mu (Pause 2000) + weight mu tr2
            + mu CallClose) as W.
  { intros mu. rewrite !weight_app. unfold weight at 1 3.
    unfold list_sum. cbn [map fold_right]. lia. }
  rewrite !W. cbn [pauseOf pageCall sessionCall].
  split.
  { destruct (close P b (world st2)) as [[? | ?] w5]; cbn [snd calls];
      rewrite C2, <- !app_assoc; reflexivity. }
  repeat split; lia.
Qed.


(** X13: a scenario is followed by a settle pause only when it passed: a
    result that failed, for whatever reason, comes without any pause of the
    handler, and a result that passed comes after the pause of its action
    (half a second for click, a second for navigate, 300 ms for hover,
    none for the others).  A scenario makes two calls to the page at
    most. *)
Theorem settle_pause_follows_success_only (page : Page) (sc : TestScenario)
    (st : state World) :
  exists r st' tr,
    executeScenario P page sc st = (Returned r, st')
    /\ calls st' = calls st ++ tr
    /\ pausedMs tr
       = (if passed r then settleDelay (toLowerCase (action sc)) else 0)
    /\ weight pageCall tr <= 2.
Proof.
  destruct (executeScenario_cost page sc st)
    as (r & st1 & tr & E & C & T & G & _).
  exists r, st1, tr. auto.
Qed.

(** X14: the pauses of a run of n scenarios add up to 2000 + 1500 n ms at
    most, and to 2000 + 500 n ms at least when the run returns. *)
Theorem run_pauses_within_budget (portalUrl : string)
    (scenarios : list TestScenario) :
  bounded pauseOf (2000 + 500 * List.length scenarios)
    (2000 + 1500 * List.length scenarios) (runTests P portalUrl scenarios).
Proof.
  intros st.
  destruct (runTests_cost portalUrl scenarios st) as (tr & C & U & _ & _ & L).
  exists tr. split; [exact C|]. split; [exact U|].
  intros results R. exact (proj1 (L results R)).
Qed.

(** X15: a run of n scenarios makes 1 + 2 n calls to the page at most, the
    first load included, and four calls that make or end a session (launch,
    new page, viewport, close) at most; a run that returns has made all
    four. *)
Theorem run_calls_within_budget (portalUrl : string)
    (scenarios : list TestScenario) :
  bounded pageCall 1 (1 + 2 * List.length scenarios)
    (runTests P portalUrl scenarios)
  /\ bounded sessionCall 4 4 (runTests P portalUrl scenarios).
Proof.
  split; intros st;
    destruct (runTests_cost portalUrl scenarios st)
      as (tr & C & _ & G & V & L);
    exists tr; (split; [exact C|]); (split; [assumption|]);
    intros results R; destruct (L results R) as (_ & L1 & L2); lia.
Qed.

(** X16: the loop over a list of scenarios is the loop over its first part
    followed by the loop over the rest, which starts from the page and the
    results that the first part has left. *)
Theorem forEachScenario_app (page : Page) (first rest : list TestScenario) :
  forall results st,
    forEachScenario P page (first ++ rest) results st
    = bind (forEachScenario P page first results)
        (fun sofar => forEachScenario P page rest sofar) st.
Proof.
  induction first as [| sc first IH]; intros results st.
  - reflexivity.
  - cbn [app forEachScenario]. unfold bind.
    destruct (executeScenario P page sc st) as [[r | e] st1]; [|reflexivity].
    cbn [sleep]. unfold sleep. rewrite IH. reflexivity.
Qed.

(** X17: when the close of the browser throws, the run throws that very
    error: the results of the scenarios are lost, and so is the error of a
    setup that failed; the message is not prefixed. *)
Theorem close_error_replaces_the_outcome (portalUrl : string)
    (scenarios : list TestScenario) (st : state World) (b : Browser)
    (w : World) (e : JsError) :
  launch P (world st) = (Returned b, w) ->
  (forall w1, fst (close P b w1) = Thrown e) ->
  fst (runTests P portalUrl scenarios st) = Thrown e.
Proof.
  intros HL HC. unfold runTests, tryBlock, launchBrowser, call at 1.
  rewrite HL.
  destruct (withBrowser P b portalUrl scenarios _) as [r st2].
  unfold call. specialize (HC (world st2)).
  destruct (close P b (world st2)) as [[? | e'] w3]; cbn in HC |- *;
    congruence.
Qed.

End Costs.

Lemma close_error_replaces_the_outcome_witness :
  fst (runTests SimServer.closeFails "http://portal.test"
         [Sim.scenarioA; Sim.scenarioC] Sim.healthy)
  = Thrown {| message := "Connection closed" |}.
Proof.
  apply (close_error_replaces_the_outcome SimServer.closeFails
           "http://portal.test" [Sim.scenarioA; Sim.scenarioC]
           Sim.healthy tt (world Sim.healthy)).
  - reflexivity.
  - intros w1. reflexivity.
Defined.
(** *** The key of a ticket and the JSON of an answer *)

Lemma search_skips (r : regex) (pre s : list ascii) :
  (forall c rest, In c pre -> matchAt false r (c :: rest) = None) ->
  forall i,
    search false r i (pre ++ s) = search false r (i + List.length pre) s.
Proof.
  induction pre as [| c pre IH]; intros H i.
  - cbn. now rewrite Nat.add_0_r.
  - cbn [app search]. rewrite (H c (pre ++ s) (or_introl eq_refl)).
    rewrite IH by (intros; apply H; now right).
    cbn [List.length]. f_equal. lia.
Qed.

(** Where a search finds its match. *)
Lemma search_finds (ic : bool) (r : regex) (s : list ascii) :
  forall i m,
    search ic r i s = Some m ->
    exists pre s0 s',
      s = pre ++ s0 /\ index m = i + List.length pre
      /\ matched m = consumed s0 s'
      /\ matches ic r s0 [] s' (groups m).
Proof.
  induction s as [| x s IH]; intros i m H; cbn [search] in H.
  - destruct (matchAt ic r []) as [[s' caps] |] eqn:E; [| discriminate].
    inversion H; subst. exists [], [], s'. cbn.
    repeat split; auto. now apply matchAt_sound.
  - destruct (matchAt ic r (x :: s)) as [[s' caps] |] eqn:E.
    + inversion H; subst. exists [], (x :: s), s'. cbn.
      repeat split; auto. now apply matchAt_sound.
    + destruct (IH _ _ H) as (pre & s0 & s' & -> & I & Mt & Ms).
      exists (x :: pre), s0, s'. cbn. repeat split; auto. lia.
Qed.

Lemma ticketPattern_starts_with_a_capital (c : ascii) (rest : list ascii) :
  Jira.isUpper c = false -> matchAt false Jira.ticketPattern (c :: rest) = None.
Proof.
  intros H. unfold matchAt, Jira.ticketPattern.
  rewrite rmatch_group, rmatch_seq. now apply class_fails.
Qed.

Lemma ticketPattern_on_key (letters ds post : list ascii) :
  2 <= List.length letters ->
  Forall (fun c => Jira.isUpper c = true) letters ->
  digitText ds -> stopsAt false isDigit post ->
  matchAt false Jira.ticketPattern (letters ++ "-"%char :: ds ++ post)
    = Some (post, [(1, letters ++ "-"%char :: ds)]).
Proof.
  intros Hlen Hup [Hne Hds] Hpost.
  destruct letters as [| u1 [| u2 us]]; try (cbn in Hlen; lia).
  inversion Hup as [| ? ? Hu1 Hup']; subst.
  unfold matchAt, Jira.ticketPattern.
  rewrite rmatch_group, rmatch_seq. cbn [app].
  rewrite (class_matches false _ u1 _ _ _ Hu1), rmatch_seq.
  apply (plus_greedy_class false Jira.isUpper _ _ (u2 :: us)
           ("-"%char :: ds ++ post)); [discriminate | exact Hup' | reflexivity |].
  rewrite rmatch_seq, char_matches by reflexivity.
  apply plus_greedy_class; [exact Hne | now apply digits_class | exact Hpost |].
  f_equal. f_equal. f_equal. f_equal.
  etransitivity;
    [| apply (consumed_app (u1 :: u2 :: us ++ "-"%char :: ds) post)].
  f_equal. cbn. rewrite <- app_assoc. reflexivity.
Qed.

Lemma matches_class_plus (p : ascii -> bool) (s s' : list ascii)
    (caps caps' : captures) :
  matches false (RPlus true (RClass p)) s caps s' caps' ->
  exists x xs,
    s = x :: xs ++ s' /\ Forall (fun c => p c = true) (x :: xs) /\ caps' = caps.
Proof.
  unfold RPlus. intros H.
  inversion H as [| | | ? ? ? ? s1 caps1 ? ? Hc Hs | | | | | | |]; subst.
  inversion Hc; subst.
  pose proof (matches_groupFree _ _ _ _ _ _ Hs eq_refl) as ->.
  destruct (matches_class_star _ _ _ _ _ _ _ _ Hs eq_refl) as (xs & -> & F).
  exists x, xs. repeat split; auto.
Qed.

Lemma matches_ticketPattern (s s' : list ascii) (caps' : captures) :
  matches false Jira.ticketPattern s [] s' caps' ->
  exists k, ticketKey k /\ s = k ++ s' /\ caps' = [(1, k)].
Proof.
  unfold Jira.ticketPattern. intros H.
  inversion H as [| | | | | | | | | | ? ? ? ? ? caps0 H1]; subst.
  inversion H1 as [| | | ? ? ? ? s1 caps1 ? ? Hc Hs | | | | | | |]; subst.
  inversion Hc as [| | ? u1 ? ? Hu1 | | | | | | | |]; subst.
  inversion Hs as [| | | ? ? ? ? s2 caps2 ? ? Hp Hr | | | | | | |]; subst.
  destruct (matches_class_plus _ _ _ _ _ Hp) as (u2 & us & -> & Hus & ->).
  inversion Hr as [| | | ? ? ? ? s3 caps3 ? ? Hh Hd | | | | | | |]; subst.
  inversion Hh as [| ? h ? ? Hh' | | | | | | | | |]; subst.
  apply Ascii.eqb_eq in Hh'. subst h.
  destruct (matches_class_plus _ _ _ _ _ Hd) as (d & ds & -> & Hds & ->).
  exists ((u1 :: u2 :: us) ++ "-"%char :: d :: ds).
  assert (E : u1 :: (u2 :: us ++ "-"%char :: d :: ds ++ s')
              = ((u1 :: u2 :: us) ++ "-"%char :: d :: ds) ++ s').
  { cbn. rewrite <- app_assoc. reflexivity. }
  split.
  - exists (u1 :: u2 :: us), (d :: ds). split; [reflexivity|].
    split; [cbn; lia|]. split; [now constructor|].
    split; [discriminate | exact Hds].
  - split; [exact E|]. rewrite E, consumed_app. reflexivity.
Qed.

(** X18: what extractJiraTicketId returns is a ticket key -- two capitals
    or more, a hyphen, digits -- and stands in the input. *)
Theorem extracted_id_is_a_key_of_the_input (input k : string) :
  Jira.extractJiraTicketId input = Some k ->
  ticketKey (chars k)
  /\ exists pre post, chars input = pre ++ chars k ++ post.
Proof.
  unfold Jira.extractJiraTicketId, exec. intros H.
  destruct (search false Jira.ticketPattern 0 (chars input)) as [m |] eqn:E;
    [| discriminate].
  inversion H; subst k. clear H.
  destruct (search_finds _ _ _ _ _ E) as (pre & s0 & s' & Es & _ & _ & Ms).
  destruct (matches_ticketPattern _ _ _ Ms) as (key & Hk & -> & G).
  unfold group. rewrite G. cbn [capture Nat.eqb]. rewrite chars_str.
  split; [exact Hk|]. exists pre, s'. exact Es.
Qed.

Lemma extracted_id_is_a_key_of_the_input_witness :
  ticketKey (chars "QA-123")
  /\ exists pre post,
       chars "https://jira.example.com/browse/QA-123?focus=1"
         = pre ++ chars "QA-123" ++ post.
Proof.
  apply (extracted_id_is_a_key_of_the_input
           "https://jira.example.com/browse/QA-123?focus=1" "QA-123").
  vm_compute. reflexivity.
Defined.

(** X19: the key that no capital letter precedes is the one that is
    extracted, whole: all its capitals and all its digits, whatever
    follows them. *)
Theorem first_key_is_extracted (pre letters ds post : list ascii) :
  Forall (fun c => Jira.isUpper c = false) pre ->
  2 <= List.length letters ->
  Forall (fun c => Jira.isUpper c = true) letters ->
  digitText ds -> stopsAt false isDigit post ->
  Jira.extractJiraTicketId (str (pre ++ letters ++ "-"%char :: ds ++ post))
    = Some (str (letters ++ "-"%char :: ds)).
Proof.
  intros Hpre Hlen Hup Hds Hpost.
  unfold Jira.extractJiraTicketId, exec. rewrite chars_str.
  rewrite search_skips.
  2:{ intros c rest Hin. apply ticketPattern_starts_with_a_capital.
      rewrite Forall_forall in Hpre. now apply Hpre. }
  rewrite (search_here false _ _ _ _ _
             (ticketPattern_on_key letters ds post Hlen Hup Hds Hpost)).
  reflexivity.
Qed.

Lemma first_key_is_extracted_witness :
  Jira.extractJiraTicketId "https://jira.example.com/browse/QA-123?focus=1"
  = Some "QA-123".
Proof.
  apply (first_key_is_extracted (chars "https://jira.example.com/browse/")
           (chars "QA") (chars "123") (chars "?focus=1")).
  - repeat constructor.
  - cbn. lia.
  - repeat constructor.
  - split; [discriminate | repeat constructor].
  - reflexivity.
Defined.

Lemma no_capital_no_key (s : list ascii) :
  Forall (fun c => Jira.isUpper c = false) s ->
  forall i, search false Jira.ticketPattern i s = None.
Proof.
  induction 1 as [| c s Hc _ IH]; intros i; cbn [search].
  - reflexivity.
  - now rewrite (ticketPattern_starts_with_a_capital c s Hc).
Qed.
(** *** The handler of POST /api/test *)

Lemma passedCount_le (rs : list TestResult) :
  Server.passedCount rs <= Server.totalCount rs.
Proof.
  unfold Server.passedCount, Server.totalCount. apply filter_length_le.
Qed.

Lemma allPassed_forallb (rs : list TestResult) :
  Server.allPassed rs = forallb passed rs.
Proof.
  unfold Server.allPassed, Server.passedCount, Server.totalCount.
  induction rs as [| r rs IH]; [reflexivity|].
  cbn [filter forallb List.length]. destruct (passed r); cbn [andb].
  - exact IH.
  - apply Nat.eqb_neq. pose proof (filter_length_le passed rs).
    cbn [List.length]. lia.
Qed.

Lemma failed_count (rs : list TestResult) :
  Server.totalCount rs - Server.passedCount rs
  = List.length (filter (fun r => negb (passed r)) rs).
Proof.
  unfold Server.passedCount, Server.totalCount.
  induction rs as [| r rs IH]; [reflexivity|].
  pose proof (filter_length_le passed rs).
  cbn [filter List.length]. destruct (passed r); cbn [negb List.length]; lia.
Qed.

(** X20: in the summary of an answer the passed and the failed add up to
    the total, the failed are the results that did not pass, there is one
    row for each result, in the order of the results, and allTestsPassed
    says that no result failed -- which holds of a run without
    scenarios. *)
Theorem summary_counts_add_up (testResults : list TestResult) :
  let s := Server.summarize testResults in
  Api.Summary.passed s + Api.Summary.failed s = Api.Summary.total s
  /\ Api.Summary.total s = List.length testResults
  /\ Api.Summary.failed s
     = List.length (filter (fun r => negb (passed r)) testResults)
  /\ map Api.Row.passed (Api.Summary.tests s) = map passed testResults
  /\ map Api.Row.description (Api.Summary.tests s)
     = map (fun r => description (scenario r)) testResults
  /\ Server.allPassed testResults = forallb passed testResults
  /\ (Server.allPassed testResults = true <-> Api.Summary.failed s = 0).
Proof.
  cbn. pose proof (passedCount_le testResults) as L.
  split; [lia|]. split; [reflexivity|]. split; [apply failed_count|].
  rewrite !map_map. split; [reflexivity|]. split; [reflexivity|].
  split; [apply allPassed_forallb|].
  unfold Server.allPassed. rewrite Nat.eqb_eq. lia.
Qed.

Section Requests.
Context {World Browser Page Element : Type}.
Variable P : Puppeteer World Browser Page Element.
Variable S : Server.Services World.

(** The trace of a run: the launch alone when it throws, and else the
    launch, calls that close nothing, and the close. *)
Lemma runTests_trace (url : string) (scenarios : list TestScenario)
    (st : state World) :
  (exists e,
     fst (runTests P url scenarios st) = Thrown e
     /\ calls (snd (runTests P url scenarios st)) = calls st ++ [CallLaunch])
  \/ exists mid,
       calls (snd (runTests P url scenarios st))
         = calls st ++ CallLaunch :: mid ++ [CallClose]
       /\ closeCount mid = 0.
Proof.
  destruct (launch P (world st)) as [[b | e] w] eqn:L.
  - right. rewrite (runTests_launched P url scenarios st b w L).
    destruct (quiet_withBrowser P b url scenarios
                {| world := w; calls := calls st ++ [CallLaunch] |})
      as [tr [E C]].
    destruct (withBrowser P b url scenarios _) as [r st2].
    cbn in E. unfold call. exists tr.
    destruct (close P b (world st2)) as [[[] | e] w3]; cbn [snd calls];
      rewrite E, <- !app_assoc; auto.
  - left. rewrite (runTests_not_launched P url scenarios st e w L).
    eexists. split; reflexivity.
Qed.

(** X21: the handler answers every request, with 200, 400 or 500, and
    never throws.  A request that is refused with 400 has not touched the
    browser; an answer 200 comes after one whole session, whose last call
    is its only close; an answer 500 carries a message and leaves no
    session open unless the launch itself or the close failed. *)
Theorem postTest_answers_every_request (ticketId portalUrl : option string)
    (st : state World) :
  exists resp st',
    Server.postTest P S ticketId portalUrl st = (Returned resp, st')
    /\ ((Api.statusCode resp = 400 /\ calls st' = calls st)
        \/ (Api.statusCode resp = 200
            /\ exists mid,
                 calls st' = calls st ++ CallLaunch :: mid ++ [CallClose]
                 /\ closeCount mid = 0)
        \/ (Api.statusCode resp = 500
            /\ (exists msg, Api.json resp = Api.Failure msg)
            /\ (calls st' = calls st
                \/ calls st' = calls st ++ [CallLaunch]
                \/ exists mid,
                     calls st' = calls st ++ CallLaunch :: mid ++ [CallClose]
                     /\ closeCount mid = 0))).
Proof.
  unfold Server.postTest.
  destruct ticketId as [id |]; [| do 2 eexists; split; [reflexivity | auto]].
  destruct portalUrl as [url |]; [| do 2 eexists; split; [reflexivity | auto]].
  destruct (Server.falsy (Some id) || Server.falsy (Some url));
    [do 2 eexists; split; [reflexivity | auto] |].
  unfold tryCatch, Server.testSteps.
  destruct (Jira.extractJiraTicketId id) as [extractedId |];
    [| do 2 eexists; split; [reflexivity | auto]].
  unfold bind at 1, Server.service at 1.
  destruct (Server.getJiraTicket S extractedId (world st)) as [[ticket | e] w1];
    [| do 2 eexists; split; [reflexivity |]; right; right; cbn; eauto].
  destruct (String.eqb (Jira.acceptanceCriteria ticket) _);
    [do 2 eexists; split; [reflexivity | cbn; auto] |].
  unfold bind at 1, Server.service at 1. cbn [world calls].
  destruct (Server.parseAcceptanceCriteria S _ _ _ w1) as [[parsed | e] w2];
    [| do 2 eexists; split; [reflexivity |]; right; right; cbn; eauto].
  unfold bind at 1.
  match goal with
  | |- context [runTests P url ?scs ?s] =>
      pose proof (runTests_trace url scs s) as T;
      destruct (runTests P url scs s) as [[results | e] st3]
  end; cbn [fst snd calls] in T.
  - destruct T as [(e & T & _) | T]; [discriminate|].
    unfold bind at 1, Server.service at 1.
    destruct (Server.generateTestReport S _ _ _ (world st3))
      as [[report | e] w4];
      do 2 eexists; (split; [reflexivity|]); cbn; right; eauto 7.
  - do 2 eexists; (split; [reflexivity|]); cbn. right. right.
    split; [reflexivity|]. split; [eauto|].
    destruct T as [(e' & _ & T) | T]; auto.
Qed.

End Requests.
(** *** The JSON of an answer of the model *)

Lemma jsonPattern_starts_with_a_brace (c : ascii) (rest : list ascii) :
  c <> "{"%char -> matchAt false Ai.jsonPattern (c :: rest) = None.
Proof.
  intros H. unfold matchAt, Ai.jsonPattern. rewrite rmatch_seq.
  cbn [rmatch charMatches].
  destruct (Ascii.eqb "{" c) eqn:E; [| reflexivity].
  apply Ascii.eqb_eq in E. congruence.
Qed.

(** After a star over every character, a character that does not occur
    in the rest of the input is not found. *)
Lemma star_anything_misses (c : ascii) (k : cont) (t : list ascii) :
  Forall (fun x => x <> c) t ->
  forall n caps,
    starLoop true (rmatch false Ai.anything)
      (fun s' caps' => rmatch false (RChar c) s' caps' k) n t caps = None.
Proof.
  induction 1 as [| x t Hx _ IH]; intros n caps.
  - unfold Ai.anything. rewrite starLoop_at_end. reflexivity.
  - assert (K : rmatch false (RChar c) (x :: t) caps k = None).
    { cbn [rmatch charMatches]. destruct (Ascii.eqb c x) eqn:E; [| reflexivity].
      apply Ascii.eqb_eq in E. congruence. }
    destruct n as [| n]; [exact K|].
    rewrite starLoop_S. unfold Ai.anything at 1.
    rewrite class_matches by reflexivity.
    rewrite progress_cons. fold Ai.anything. rewrite IH. exact K.
Qed.

(** A greedy star over every character gives back what it took down to
    the last occurrence of the character that has to follow. *)
Lemma star_anything_backtracks (c : ascii) (k : cont) (res : result)
    (post : list ascii) (caps : captures) :
  Forall (fun x => x <> c) post -> k post caps = Some res ->
  forall mid n,
    List.length (mid ++ c :: post) <= n ->
    starLoop true (rmatch false Ai.anything)
      (fun s' caps' => rmatch false (RChar c) s' caps' k) n
      (mid ++ c :: post) caps = Some res.
Proof.
  intros Hpost Hk. induction mid as [| x mid IH]; intros n Hn.
  - destruct n as [| n]; [cbn in Hn; lia|].
    rewrite starLoop_S. cbn [app]. unfold Ai.anything at 1.
    rewrite class_matches by reflexivity.
    rewrite progress_cons. fold Ai.anything.
    rewrite (star_anything_misses c k post Hpost).
    cbn [orElse]. rewrite char_matches; [exact Hk|].
    cbn. apply Ascii.eqb_refl.
  - destruct n as [| n]; [cbn in Hn; lia|].
    rewrite starLoop_S. cbn [app]. unfold Ai.anything at 1.
    rewrite class_matches by reflexivity.
    rewrite progress_cons. fold Ai.anything.
    rewrite IH by (cbn in Hn; lia). reflexivity.
Qed.

(** X22: the text that parseAcceptanceCriteria hands to JSON.parse runs
    from the first opening brace of the answer to its last closing brace,
    whatever stands between them -- line breaks and further braces
    included. *)
Theorem jsonMatch_spans_first_to_last_brace (pre mid post : list ascii) :
  Forall (fun x => x <> "{"%char) pre ->
  Forall (fun x => x <> "}"%char) post ->
  Ai.jsonMatch (str (pre ++ "{"%char :: mid ++ "}"%char :: post))
    = Some (str ("{"%char :: mid ++ ["}"%char])).
Proof.
  intros Hpre Hpost. unfold Ai.jsonMatch, exec. rewrite chars_str.
  rewrite search_skips.
  2:{ intros c rest Hin. apply jsonPattern_starts_with_a_brace.
      rewrite Forall_forall in Hpre. now apply Hpre. }
  assert (E : matchAt false Ai.jsonPattern ("{"%char :: mid ++ "}"%char :: post)
              = Some (post, [])).
  { unfold matchAt, Ai.jsonPattern.
    rewrite rmatch_seq, char_matches by reflexivity.
    rewrite rmatch_seq.
    change (starLoop true (rmatch false Ai.anything)
              (fun s' caps' =>
                 rmatch false (RChar "}") s' caps'
                   (fun s'' caps'' => Some (s'', caps'')))
              (List.length (mid ++ "}"%char :: post))
              (mid ++ "}"%char :: post) [] = Some (post, [])).
    apply star_anything_backtracks; auto. }
  rewrite (search_here false _ _ _ _ _ E). cbn [matched].
  f_equal. f_equal.
  etransitivity; [| apply (consumed_app ("{"%char :: mid ++ ["}"%char]) post)].
  f_equal. cbn. rewrite <- app_assoc. reflexivity.
Qed.

Lemma jsonMatch_spans_first_to_last_brace_witness :
  Ai.jsonMatch "Here: {a:{b:1}} done"
  = Some "{a:{b:1}}".
Proof.
  apply (jsonMatch_spans_first_to_last_brace (chars "Here: ") (chars "a:{b:1}")
           (chars " done")).
  - repeat constructor; discriminate.
  - repeat constructor; discriminate.
Defined.

(** *** Requests that name no ticket, and requests that are served *)

Section Served.
Context {World Browser Page Element : Type}.
Variable P : Puppeteer World Browser Page Element.
Variable S : Server.Services World.

(** X23: a request whose ticket names no capital letter -- a key written
    in lower case, for one -- is refused with 400 and the message about
    the format, before the ticket service or the browser is asked
    anything. *)
Theorem ticket_without_capitals_is_refused (ticketId portalUrl : string)
    (st : state World) :
  ticketId <> EmptyString -> portalUrl <> EmptyString ->
  Forall (fun c => Jira.isUpper c = false) (chars ticketId) ->
  Server.postTest P S (Some ticketId) (Some portalUrl) st
  = (Returned
       {| Api.statusCode := 400;
          Api.json :=
            Api.Failure "Invalid ticket ID format. Expected format: ABC-123" |},
     st).
Proof.
  intros Ht Hu Hc. unfold Server.postTest, Server.falsy.
  apply String.eqb_neq in Ht, Hu. rewrite Ht, Hu. cbn [orb].
  unfold tryCatch, Server.testSteps, Jira.extractJiraTicketId, exec.
  rewrite (no_capital_no_key _ Hc). reflexivity.
Qed.

(** X24: an answer 200 reports the run of the scenarios that the model
    made of the ticket of the extracted key: one result for each scenario,
    in their order, counted in the summary, and allTestsPassed says whether
    all of them passed. *)
Theorem completed_answer_reports_every_scenario
    (ticketId portalUrl : option string) (st st' : state World)
    (resp : Api.response) :
  Server.postTest P S ticketId portalUrl st = (Returned resp, st') ->
  Api.statusCode resp = 200 ->
  exists input id ticket w1 parsed w2 results report,
    ticketId = Some input
    /\ Jira.extractJiraTicketId input = Some id
    /\ Server.getJiraTicket S id (world st) = (Returned ticket, w1)
    /\ Server.parseAcceptanceCriteria S (Jira.acceptanceCriteria ticket)
         (Jira.summary ticket) (Jira.description ticket) w1
       = (Returned parsed, w2)
    /\ map scenario results = Ai.scenarios parsed
    /\ Api.json resp
       = Api.Completed (forallb passed results) (Jira.key ticket)
           (Jira.summary ticket) (Jira.status ticket)
           (Server.summarize results) report
    /\ Api.Summary.total (Server.summarize results)
       = List.length (Ai.scenarios parsed).
Proof.
  unfold Server.postTest. intros E H200.
  destruct ticketId as [input |];
    [| inversion E; subst; discriminate].
  destruct portalUrl as [url |];
    [| inversion E; subst; discriminate].
  destruct (Server.falsy (Some input) || Server.falsy (Some url));
    [inversion E; subst; discriminate |].
  unfold tryCatch, Server.testSteps in E.
  destruct (Jira.extractJiraTicketId input) as [id |] eqn:EI;
    [| inversion E; subst; discriminate].
  unfold bind at 1, Server.service at 1 in E.
  destruct (Server.getJiraTicket S id (world st)) as [[ticket | e] w1] eqn:ET;
    [| inversion E; subst; discriminate].
  destruct (String.eqb (Jira.acceptanceCriteria ticket) _);
    [inversion E; subst; discriminate |].
  unfold bind at 1, Server.service at 1 in E. cbn [world calls] in E.
  destruct (Server.parseAcceptanceCriteria S _ _ _ w1)
    as [[parsed | e] w2] eqn:EP;
    [| inversion E; subst; discriminate].
  unfold bind at 1 in E.
  destruct (runTests P url (Ai.scenarios parsed) _)
    as [[results | e] st3] eqn:ER;
    [| inversion E; subst; discriminate].
  unfold bind at 1, Server.service at 1 in E.
  destruct (Server.generateTestReport S _ _ _ (world st3))
    as [[report | e] w4];
    [| inversion E; subst; discriminate].
  inversion E; subst. clear E.
  pose proof (runTests_results P _ _ _ _ _ ER) as R.
  exists input, id, ticket, w1, parsed, w2, results, report.
  repeat split; auto.
  - cbn. now rewrite allPassed_forallb.
  - cbn. unfold Server.totalCount. now rewrite <- R, length_map.
Qed.

End Served.

Lemma ticket_without_capitals_is_refused_witness :
  Server.postTest Sim.driver SimServer.services (Some "qa-7")
    (Some "http://portal.test") Sim.healthy
  = (Returned
       {| Api.statusCode := 400;
          Api.json :=
            Api.Failure "Invalid ticket ID format. Expected format: ABC-123" |},
     Sim.healthy).
Proof.
  apply (ticket_without_capitals_is_refused Sim.driver SimServer.services
           "qa-7" "http://portal.test" Sim.healthy).
  - discriminate.
  - discriminate.
  - repeat constructor.
Defined.

Lemma completed_answer_reports_every_scenario_witness :
  exists resp st',
    Server.postTest Sim.driver SimServer.services (Some "QA-7")
      (Some "http://portal.test") Sim.healthy = (Returned resp, st')
    /\ Api.statusCode resp = 200
    /\ exists results report,
         map scenario results = [Sim.scenarioA; Sim.scenarioC]
         /\ Api.json resp
            = Api.Completed (forallb passed results) "QA-7" "Yellow button"
                "Open" (Server.summarize results) report
         /\ Api.Summary.total (Server.summarize results) = 2.
Proof.
  destruct (Server.postTest Sim.driver SimServer.services (Some "QA-7")
              (Some "http://portal.test") Sim.healthy)
    as [out st'] eqn:E.
  assert (F : match out with
              | Returned r => Api.statusCode r
              | Thrown _ => 0
              end = 200).
  { replace out
      with (fst (Server.postTest Sim.driver SimServer.services (Some "QA-7")
                   (Some "http://portal.test") Sim.healthy))
      by (rewrite E; reflexivity).
    vm_compute. reflexivity. }
  destruct out as [resp | e]; [| discriminate].
  exists resp, st'. split; [reflexivity|]. split; [exact F|].
  destruct (completed_answer_reports_every_scenario Sim.driver
              SimServer.services _ _ _ _ _ E F)
    as (input & id & ticket & w1 & parsed & w2 & results & report
        & EI & EX & ET & EP & R & J & T).
  inversion EI; subst input.
  assert (id = "QA-7") as ->.
  { assert (X : Jira.extractJiraTicketId "QA-7" = Some "QA-7")
      by (vm_compute; reflexivity).
    congruence. }
  inversion ET; subst ticket w1. inversion EP; subst parsed w2.
  exists results, report. auto.
Defined.

End Coverage.
